(** * medSpellCheck: candidate generation and scoring engine

    A shallow embedding of [src/jamspell/spell_corrector.cpp] (namespace
    [NJamSpell]) and [src/openspell/spell_corrector.cpp] (namespace
    [NOpenSpell]), and the properties of the engine stated in the
    specification.

    Conventions.
    - [std::wstring] is a list of code points ([wchar = N]); a [TWord] is the
      run of code points it views.
    - [std::unordered_set<TWord>] and [std::sort] are taken by their
      contracts: any container that holds the inserted tokens and visits
      each once, in an order of its own, and any sort that returns a sorted
      rearrangement.
    - [double] is the kernel's binary64 type [float].
    - [size_t] and [uint64_t] values that take part in arithmetic are [Z]
      with the wrap-around modulo 2^64 written out; indices into containers
      held in memory are [nat].
    - A null dereference, a signed overflow and an out-of-range conversion
      are undefined behaviour in C++; the functions that can reach one return
      [option], [None] standing for it. *)

From Stdlib Require Import ZArith List Floats.
From stdpp Require Import gmap strings list.

Set Warnings "-inexact-float".

Local Open Scope Z_scope.

(** ** Strings *)

Definition wchar := N.
Definition wstring := list wchar.

(** Modelled from the spec: [WideToUTF8] (utils.cpp is not part of the
    sources); the bloom filters are keyed by the UTF-8 bytes of a string. *)
Definition utf8_of_wchar (c : wchar) : list N :=
  (if c <? 128 then [c]
   else if c <? 2048 then [192 + c / 64; 128 + c mod 64]
   else if c <? 65536 then [224 + c / 4096; 128 + (c / 64) mod 64; 128 + c mod 64]
   else [240 + c / 262144; 128 + (c / 4096) mod 64; 128 + (c / 64) mod 64; 128 + c mod 64])%N.

Definition WideToUTF8 (w : wstring) : list N := w ≫= utf8_of_wchar.

(** [w.substr(0, i) + w.substr(i+1)], for [i < w.size()]. *)
Definition delete_at (i : nat) (w : wstring) : wstring := take i w ++ drop (S i) w.

(** [w.substr(0, i) + ch + w.substr(i)], for [i <= w.size()]. *)
Definition insert_at (i : nat) (ch : wchar) (w : wstring) : wstring :=
  take i w ++ ch :: drop i w.

(** [w.substr(0, i) + ch + w.substr(i+1)], for [i < w.size()]. *)
Definition replace_at (i : nat) (ch : wchar) (w : wstring) : wstring :=
  take i w ++ ch :: drop (S i) w.

(** The transposition built at lines 385-390 of the jamspell source, for
    [i + 1 < w.size()]. *)
Definition transpose_at (i : nat) (w : wstring) : wstring :=
  take i w ++ take 1 (drop (S i) w) ++ take 1 (drop i w)
    ++ (if bool_decide (i + 2 < length w)%nat then drop (i + 2) w else []).

(** ** Machine integers *)

Definition wrap64 (z : Z) : Z := z mod 2 ^ 64.

Definition INT_MAX : Z := 2 ^ 31 - 1.
Definition INT_MIN : Z := - 2 ^ 31.

(** [double(s)] for a [size_t]. Values from 2^63 on are outside the model. *)
Definition double_of_size_t (z : Z) : option float :=
  if bool_decide (0 ≤ z < 2 ^ 63) then Some (PrimFloat.of_uint63 (Uint63.of_Z z))
  else None.

(** [int(x)] for a [double]: truncation toward zero, undefined when the
    value is a NaN, an infinity or outside the range of [int]. *)
Definition int_of_double (x : float) : option Z :=
  match Prim2SF x with
  | S754_zero _ => Some 0
  | S754_finite s m e =>
      let a := if bool_decide (0 ≤ e) then Z.pos m * 2 ^ e else Z.pos m / 2 ^ (- e) in
      let v := if s then - a else a in
      if bool_decide (INT_MIN ≤ v ≤ INT_MAX) then Some v else None
  | _ => None
  end.

(** ** Input streams and [NHandyPack::Load] *)

Record istream := { Data : list N; Good : bool }.

(** [in.read(buf, n)] over a buffer holding [init]: with fewer than [n]
    bytes left the stream fails and the tail of the buffer keeps its old
    content; a failed stream reads nothing. *)
Definition stream_read (n : nat) (init : list N) (s : istream) : list N * istream :=
  if Good s then
    if bool_decide (n ≤ length (Data s))%nat
    then (take n (Data s), {| Data := drop n (Data s); Good := true |})
    else (Data s ++ drop (length (Data s)) init, {| Data := []; Good := false |})
  else (init, s).

Fixpoint le_bytes (n : nat) (z : Z) : list N :=
  match n with
  | O => []
  | S n' => Z.to_N (z mod 256) :: le_bytes n' (z / 256)
  end.

Fixpoint le_value (bs : list N) : Z :=
  match bs with
  | [] => 0
  | b :: bs' => Z.of_N b + 256 * le_value bs'
  end.

(** Modelled from the spec: [NHandyPack::Load] on an integer of [width]
    bytes (contrib/handypack is not part of the sources); section 6.3 of the
    specification fixes the fields as raw integers in host byte order. *)
Definition Load (width : nat) (init : Z) (s : istream) : Z * istream :=
  let '(bs, s') := stream_read width (le_bytes width init) s in (le_value bs, s').

(** ** Bloom filter *)

(** Modelled from the spec: [TBloomFilter] (bloom_filter.hpp is not part of
    the sources). Section 4.A: a bit array of [NumBits] bits and [NumHashes]
    hash functions; [insert] sets the bits of the key's hashes, [contains]
    answers whether all of them are set. *)
Record TBloomFilter := {
  ExpectedItems : Z;
  FalsePositiveProb : float;
  NumBits : N;
  NumHashes : nat;
  Bits : gset N
}.

(** What the specification leaves to the implementation of the filter: the
    hash family, the dimensions the constructor derives from the expected
    number of items and the false-positive rate, and the reader of a
    persisted filter. *)
Class BloomBackend := {
  BloomHash : nat → list N → N;
  BloomDims : Z → float → N * nat;
  BloomLoad : istream → TBloomFilter * istream
}.

Section Bloom.
Context `{BloomBackend}.

Definition BloomEmpty : TBloomFilter :=
  {| ExpectedItems := 0; FalsePositiveProb := 0%float;
     NumBits := 0; NumHashes := 0; Bits := ∅ |}.

Definition BloomNew (n : Z) (p : float) : TBloomFilter :=
  {| ExpectedItems := n; FalsePositiveProb := p;
     NumBits := (BloomDims n p).1; NumHashes := (BloomDims n p).2; Bits := ∅ |}.

Definition BloomSlots (f : TBloomFilter) (key : list N) : list N :=
  (λ i, (BloomHash i key mod NumBits f)%N) <$> seq 0 (NumHashes f).

Definition BloomInsert (f : TBloomFilter) (key : list N) : TBloomFilter :=
  {| ExpectedItems := ExpectedItems f; FalsePositiveProb := FalsePositiveProb f;
     NumBits := NumBits f; NumHashes := NumHashes f;
     Bits := list_to_set (BloomSlots f key) ∪ Bits f |}.

Definition BloomContains (f : TBloomFilter) (key : list N) : bool :=
  forallb (λ b, bool_decide (b ∈ Bits f)) (BloomSlots f key).

End Bloom.

(** ** Sorting *)

Section Sorting.
Context {A : Type}.
Variable comp : A → A → bool.

(** [comp] is a strict weak ordering on the elements of [l], which is what
    [std::sort] and [std::stable_sort] require of their comparator. *)
Definition strict_weak_on (l : list A) : Prop :=
  (∀ a, a ∈ l → comp a a = false) ∧
  (∀ a b c, a ∈ l → b ∈ l → c ∈ l →
     comp a b = true → comp b c = true → comp a c = true) ∧
  (∀ a b c, a ∈ l → b ∈ l → c ∈ l →
     comp a c = true → comp a b = true ∨ comp b c = true).

(** No element is ordered strictly before an element that precedes it. *)
Definition sorted_by (l : list A) : Prop :=
  ∀ i j a b, (i < j)%nat → l !! i = Some a → l !! j = Some b → comp b a = false.

(** [x] is placed in front of the first element that is not strictly
    before it, so it stays ahead of its equivalents. *)
Fixpoint stable_insert (x : A) (l : list A) : list A :=
  match l with
  | [] => [x]
  | y :: l' => if comp y x then y :: stable_insert x l' else x :: y :: l'
  end.

(** [std::stable_sort]: for a strict weak ordering its result is fixed by
    the standard (sorted, equivalent elements in their original order); the
    insertion sort below computes it. *)
Definition stable_sort (l : list A) : list A := foldr stable_insert [] l.

End Sorting.

(** [std::sort]: the standard promises a sorted rearrangement when the
    comparator is a strict weak ordering, and says nothing of the order of
    equivalent elements. An implementation is any function with that
    contract. *)
Class StdSort := {
  std_sort : ∀ A : Type, (A → A → bool) → list A → list A;
  std_sort_perm : ∀ (A : Type) (comp : A → A → bool) (l : list A),
    strict_weak_on comp l → std_sort A comp l ≡ₚ l;
  std_sort_sorted : ∀ (A : Type) (comp : A → A → bool) (l : list A),
    strict_weak_on comp l → sorted_by comp (std_sort A comp l)
}.
Arguments std_sort {_ _} _ _.

(** ** The language model (consumed interface, section 6.1) *)

(** Modelled from the spec: [TWord] and [TLangModel] (lang_model.hpp is not
    part of the sources). Section 3: a word token is a view of a run of code
    points, and two tokens compare equal iff their code-point sequences
    match; section 6.1 lists the operations of the language model, which
    the engine treats as opaque. [GetWordToId] lists the vocabulary in the
    order its iteration visits it. *)
Definition TWord := wstring.
Definition TWords := list TWord.
Abbreviation TWordId := Z.
Abbreviation TCount := Z.

(** [c.Ptr && c.Len]: the token is neither nil nor empty. A nil token is
    modelled by the empty run of code points. *)
Definition IsWord (c : TWord) : bool := bool_decide (c ≠ []).

(** [std::unordered_set<TWord, TWordHashPtr>]: the standard fixes which
    tokens the container holds after a construction from a range, a
    [clear] and an [insert], and that an iteration visits each of them
    once; it leaves the order of the visit open, which depends on the hash
    values and on the insertions made so far. An implementation is any
    container with that contract; [uset_items] is the iteration from
    [begin()] to [end()]. *)
Class UnorderedSet := {
  uset : Type;
  uset_range : TWords → uset;
  uset_clear : uset → uset;
  uset_insert : TWord → uset → uset;
  uset_items : uset → TWords;
  uset_items_NoDup : ∀ s, NoDup (uset_items s);
  uset_range_spec : ∀ l c, c ∈ uset_items (uset_range l) ↔ c ∈ l;
  uset_clear_spec : ∀ s, uset_items (uset_clear s) = [];
  uset_insert_spec : ∀ c s x,
    x ∈ uset_items (uset_insert c s) ↔ x = c ∨ x ∈ uset_items s
}.

(** [size()]: the number of tokens an iteration visits. *)
Definition uset_size `{UnorderedSet} (s : uset) : nat := length (uset_items s).

Module TLangModel.
Record t := {
  GetWord : wstring → TWord;
  GetWordIdNoCreate : TWord → TWordId;
  GetWordCount : TWordId → TCount;
  GetWordToId : list (wstring * TWordId);
  GetAlphabet : list wchar;
  Score : TWords → float;
  GetCheckSum : Z
}.
End TLangModel.

Definition FileSystem := gmap string (list N).

(** Modelled from the spec: the default argument of [lastLevel] in the
    declarations of [Edits2] ([NJamSpell]) and [Edits] ([NOpenSpell]);
    spell_corrector.hpp is not part of the sources. Section 9 of the
    specification describes the recursion as gated by the flag. The gate is
    closed by default: were the default [false], every call would call the
    next level with the default again and none would return. *)
Definition lastLevelDefault : bool := true.

(** Modelled from the spec: [TBloomFilter::Dump] (bloom_filter.hpp is not
    part of the sources), the writer of the persisted form that [BloomLoad]
    reads (section 4.A, [dump(stream)]). *)
Class BloomDumper := { BloomDump : TBloomFilter → list N }.

(** Modelled from the spec: [NHandyPack::Dump] on an integer of [width]
    bytes (contrib/handypack is not part of the sources), the writer of
    what [Load] reads. *)
Definition Dump (width : nat) (z : Z) : list N := le_bytes width z.

(** Modelled from the spec: the operations of [TLangModel] that read and
    write model files and split text, and [ToLower] (lang_model.hpp and
    utils.cpp are not part of the sources; sections 1 and 6.1 name them as
    collaborators of the engine). [ModelLoad], [ModelTrain] and [ModelDump]
    return the success flag with the language model or the file system they
    leave behind. *)
Class ModelBackend := {
  ModelLoad : FileSystem → TLangModel.t → string → bool * TLangModel.t;
  ModelTrain : FileSystem → TLangModel.t → string → string → bool * TLangModel.t;
  ModelDump : FileSystem → TLangModel.t → string → bool * FileSystem;
  Tokenize : TLangModel.t → wstring → list TWords;
  ToLower : wstring → wstring
}.

(** ** [NJamSpell]: src/jamspell/spell_corrector.cpp *)

Module NJamSpell.

Record TScoredWord := { Word : TWord; Score : float }.
Definition TScoredWords := list TScoredWord.

Record TSpellCorrector := {
  LangModel : TLangModel.t;
  Deletes1 : option TBloomFilter;
  Deletes2 : option TBloomFilter;
  KnownWordsPenalty : float;
  UnknownWordsPenalty : float;
  MaxCandiatesToCheck : nat
}.

(** Lines 13-22. *)
Definition GetDeletes1 (w : wstring) : list wstring :=
  seq 0 (length w) ≫= λ i,
    let nw := delete_at i w in
    if bool_decide (nw ≠ []) then [nw] else [].

(** Lines 24-35. *)
Definition GetDeletes2 (w : wstring) : list (list wstring) :=
  seq 0 (length w) ≫= λ i,
    let nw := delete_at i w in
    if bool_decide (nw ≠ []) then [GetDeletes1 nw ++ [nw]] else [].

Section Engine.
Context `{BloomBackend} `{StdSort} `{UnorderedSet}.
Variable sc : TSpellCorrector.

Let lm := LangModel sc.

(** [TWord c = LangModel.GetWord(s); if (c.Ptr && c.Len) result.push_back(c);] *)
Definition Lookup (s : wstring) : TWords :=
  let c := TLangModel.GetWord lm s in
  if IsWord c then [c] else [].

(** The body of the loop of [Edits2] (lines 370-427) at index [i];
    [deeper s] is what [AddVec(result, Edits2(TWord(s)))] appends. *)
Definition Edits2At (deeper : wstring → TWords) (w : wstring) (i : nat) : TWords :=
  (if bool_decide (i < length w)%nat
   then let s := delete_at i w in Lookup s ++ deeper s
   else [])
  ++ (if bool_decide (i + 1 < length w)%nat
      then let s := transpose_at i w in Lookup s ++ deeper s
      else [])
  ++ (if bool_decide (i < length w)%nat
      then TLangModel.GetAlphabet lm ≫= λ ch,
             let s := replace_at i ch w in Lookup s ++ deeper s
      else [])
  ++ (TLangModel.GetAlphabet lm ≫= λ ch,
        let s := insert_at i ch w in Lookup s ++ deeper s).

Definition Edits2Level (deeper : wstring → TWords) (w : wstring) : TWords :=
  seq 0 (length w + 1) ≫= Edits2At deeper w.

(** Lines 366-430. The inner calls [Edits2(TWord(s))] pass no second
    argument and run with [lastLevelDefault]: the recursion is one level
    deep. *)
Definition Edits2 (word : TWord) (lastLevel : bool) : TWords :=
  Edits2Level (if lastLevel then λ _, [] else Edits2Level (λ _, [])) word.

(** Lines 432-442. *)
Definition Inserts (w : wstring) : TWords :=
  seq 0 (length w + 1) ≫= λ i,
    TLangModel.GetAlphabet lm ≫= λ ch, Lookup (insert_at i ch w).

(** Lines 444-453. *)
Definition Inserts2 (d1 : TBloomFilter) (w : wstring) : TWords :=
  seq 0 (length w + 1) ≫= λ i,
    TLangModel.GetAlphabet lm ≫= λ ch,
      let s := insert_at i ch w in
      if BloomContains d1 (WideToUTF8 s) then Inserts s else [].

(** What lines 349-359 append for one string [w] of the delete sets. *)
Definition EditsOf (d1 d2 : TBloomFilter) (w : wstring) : TWords :=
  Lookup w
  ++ (if BloomContains d1 (WideToUTF8 w) then Inserts w else [])
  ++ (if BloomContains d2 (WideToUTF8 w) then Inserts2 d1 w else []).

(** Lines 340-364. [Deletes1] and [Deletes2] are dereferenced. *)
Definition Edits (word : TWord) : option TWords :=
  d1 ← Deletes1 sc;
  d2 ← Deletes2 sc;
  let cands := GetDeletes2 word ++ [[word]] in
  Some (cands ≫= λ w1, w1 ≫= EditsOf d1 d2).

(** The comparator of line 166: larger counts first. *)
Definition byCount (a b : TCount * TWord) : bool := bool_decide (b.1 < a.1).

(** Lines 154-174. The loop of lines 169-171 reads [candidateCounts[i]]
    for [i < MaxCandiatesToCheck], all of them in range after the early
    return. *)
Definition FilterCandidatesByFrequency
    (uniqueCandidates : uset) (origWord : TWord) : uset :=
  if bool_decide (uset_size uniqueCandidates ≤ MaxCandiatesToCheck sc)%nat
  then uniqueCandidates
  else
    let candidateCounts :=
      (λ c, (TLangModel.GetWordCount lm (TLangModel.GetWordIdNoCreate lm c), c))
        <$> uset_items uniqueCandidates in
    let uniqueCandidates := uset_clear uniqueCandidates in
    let candidateCounts := stable_sort byCount candidateCounts in
    let uniqueCandidates :=
      foldl (λ s cc, uset_insert cc.2 s) uniqueCandidates
        (take (MaxCandiatesToCheck sc) candidateCounts) in
    uset_insert origWord uniqueCandidates.

(** Lines 104-113: the sentence handed to the language model. *)
Definition candSentence (sentence : TWords) (position : nat) (cand : TWord) : TWords :=
  seq 0 (length sentence) ≫= λ i,
    if bool_decide (i = position) then [cand]
    else if bool_decide ((i < position ∧ position ≤ i + 2)
                         ∨ (position < i ∧ i ≤ position + 2))%nat
         then option_list (sentence !! i)
         else [].

(** Lines 115-128. *)
Definition scoreCandidate (sentence : TWords) (position : nat)
    (w : TWord) (knownWord firstLevel : bool) (cand : TWord) : TScoredWord :=
  let score := TLangModel.Score lm (candSentence sentence position cand) in
  {| Word := cand;
     Score :=
       if bool_decide (cand = w) then score
       else if knownWord then
              if firstLevel then (score - KnownWordsPenalty sc)%float
              else (score * 50)%float
            else (score - UnknownWordsPenalty sc)%float |}.

(** The comparator of lines 132-134: larger scores first. *)
Definition byScore (w1 w2 : TScoredWord) : bool := (Score w2 <? Score w1)%float.

(** Lines 72-79: the candidates and the [firstLevel] flag. *)
Definition generateCandidates (w : TWord) : option (TWords * bool) :=
  let candidates := Edits2 w lastLevelDefault in
  if bool_decide (candidates = []) then
    candidates ← Edits w; Some (candidates, false)
  else Some (candidates, true).

(** Lines 86-94: the query word, its candidates and the [knownWord] flag
    after the vocabulary lookup. *)
Definition addQueryWord (w : TWord) (candidates : TWords) : TWord * TWords * bool :=
  let c := TLangModel.GetWord lm w in
  if IsWord c then (c, candidates ++ [c], true)
  else (w, candidates ++ [w], false).

(** Lines 96-130: the scored candidates before the final sort. *)
Definition scoredCandidates (sentence : TWords) (position : nat)
    (w : TWord) (candidates : TWords) (firstLevel : bool) : TScoredWords :=
  let '(w, candidates, knownWord) := addQueryWord w candidates in
  let uniqueCandidates := uset_range candidates in
  let uniqueCandidates := FilterCandidatesByFrequency uniqueCandidates w in
  scoreCandidate sentence position w knownWord firstLevel <$> uset_items uniqueCandidates.

(** Lines 65-138. *)
Definition GetCandidatesScoredRaw (sentence : TWords) (position : nat)
    : option TScoredWords :=
  if bool_decide (length sentence ≤ position)%nat then Some []
  else
    let w := default [] (sentence !! position) in
    '(candidates, firstLevel) ← generateCandidates w;
    if bool_decide (candidates = []) then Some []
    else Some (std_sort byScore (scoredCandidates sentence position w candidates firstLevel)).

(** Lines 140-152. *)
Definition GetCandidatesRaw (sentence : TWords) (position : nat) : option TWords :=
  match GetCandidatesScoredRaw sentence position with
  | Some scored => Some (Word <$> scored)
  | None => None
  end.

(** Lines 177-190: a [TWord] views each string of the sentence. *)
Definition GetCandidatesScored (sentence : list wstring) (position : nat)
    : option TScoredWords :=
  GetCandidatesScoredRaw sentence position.

(** Lines 239-250. *)
Definition GetCandidates (sentence : list wstring) (position : nat)
    : option (list wstring) :=
  GetCandidatesRaw sentence position.

End Engine.

Section Cache.
Context `{BloomBackend}.

Definition withDeletes (sc : TSpellCorrector) (d1 d2 : option TBloomFilter)
    : TSpellCorrector :=
  {| LangModel := LangModel sc; Deletes1 := d1; Deletes2 := d2;
     KnownWordsPenalty := KnownWordsPenalty sc;
     UnknownWordsPenalty := UnknownWordsPenalty sc;
     MaxCandiatesToCheck := MaxCandiatesToCheck sc |}.

(** Lines 458-467: the counters [n] and [s] after the sampling loop. *)
Fixpoint sampleLoop (wordToId : list (wstring * TWordId)) (n s : Z) : Z * Z :=
  match wordToId with
  | [] => (n, s)
  | it :: rest =>
      let n := wrap64 (n + 1) in
      let s := wrap64 (s + Z.of_nat (length it.1)) in
      if bool_decide (3000 < n) then (n, s) else sampleLoop rest n s
  end.

(** Line 468: [std::max(int(double(s) / n) + 1, 1)], converted to [size_t]. *)
Definition avgWordLenOf (n s : Z) : option Z :=
  ds ← double_of_size_t s;
  dn ← double_of_size_t n;
  q ← int_of_double (ds / dn)%float;
  if bool_decide (q + 1 ≤ INT_MAX) then Some (Z.max (q + 1) 1) else None.

(** Lines 458-478: the expected capacities of [Deletes1] and [Deletes2] and
    the false-positive rate handed to the two constructors. *)
Definition cacheSizes (wordToId : list (wstring * TWordId)) : option (Z * Z * float) :=
  let '(n, s) := sampleLoop wordToId 0 0 in
  avgWordLen ← avgWordLenOf n s;
  let avgWordLenMinusOne := Z.max 1 (wrap64 (avgWordLen - 1)) in
  let size := Z.of_nat (length wordToId) in
  let deletes1size := wrap64 (size * avgWordLen) in
  let deletes2size := wrap64 (wrap64 (size * avgWordLen) * avgWordLenMinusOne) in
  let deletes1size := Z.max 1000 deletes1size in
  let deletes1size := Z.max 1000 deletes1size in
  let falsePositiveProb := 0.001%float in
  Some (deletes1size, deletes2size, falsePositiveProb).

(** Lines 496-504: the strings of [keys] inserted one after the other. *)
Definition insertAll (d : TBloomFilter) (keys : list wstring) : TBloomFilter :=
  foldl (λ d2 w, BloomInsert d2 (WideToUTF8 w)) d keys.

(** Lines 492-509: the inserts made for one entry [w1] of [GetDeletes2]
    (never empty): its last string goes to [Deletes1], the strings before
    it to [Deletes2]. The modelled [Insert] and [WideToUTF8] raise nothing,
    so the handlers of lines 501-513 are never entered. *)
Definition insertDeletes (d : TBloomFilter * TBloomFilter) (w1 : list wstring)
    : TBloomFilter * TBloomFilter :=
  match last w1 with
  | Some back =>
      let d1 := BloomInsert d.1 (WideToUTF8 back) in
      let d2 := insertAll d.2 (take (length w1 - 1) w1) in
      (d1, d2)
  | None => d
  end.

(** Lines 487-514: the second loop, over the whole vocabulary. *)
Definition fillDeletes (wordToId : list (wstring * TWordId))
    (d : TBloomFilter * TBloomFilter) : TBloomFilter * TBloomFilter :=
  foldl (λ d it, foldl insertDeletes d (GetDeletes2 it.1)) d wordToId.

(** Lines 455-516. *)
Definition PrepareCache (sc : TSpellCorrector) : option TSpellCorrector :=
  let wordToId := TLangModel.GetWordToId (LangModel sc) in
  '(deletes1size, deletes2size, falsePositiveProb) ← cacheSizes wordToId;
  let d := fillDeletes wordToId
             (BloomNew deletes1size falsePositiveProb,
              BloomNew deletes2size falsePositiveProb) in
  Some (withDeletes sc (Some d.1) (Some d.2)).

Definition SPELL_CHECKER_CACHE_MAGIC_BYTE : Z := 3811558393781437494.
Definition SPELL_CHECKER_CACHE_VERSION : Z := 1.

(** Lines 521-554. [fs !! cacheFile] is the content of the file when it
    can be opened. *)
Definition LoadCache (fs : FileSystem) (sc : TSpellCorrector) (cacheFile : string)
    : bool * TSpellCorrector :=
  match fs !! cacheFile with
  | None => (false, sc)
  | Some content =>
      let in0 := {| Data := content; Good := true |} in
      let '(magicByte, in1) := Load 8 0 in0 in
      if bool_decide (magicByte ≠ SPELL_CHECKER_CACHE_MAGIC_BYTE) then (false, sc)
      else
        let '(version, in2) := Load 2 0 in1 in
        if bool_decide (version ≠ SPELL_CHECKER_CACHE_VERSION) then (false, sc)
        else
          let '(checkSum, in3) := Load 8 0 in2 in
          if bool_decide (checkSum ≠ TLangModel.GetCheckSum (LangModel sc)) then (false, sc)
          else
            let '(deletes1, in4) := BloomLoad in3 in
            let '(deletes2, in5) := BloomLoad in4 in
            let '(magicByte, in6) := Load 8 0 in5 in
            if bool_decide (magicByte ≠ SPELL_CHECKER_CACHE_MAGIC_BYTE) then (false, sc)
            else (true, withDeletes sc (Some deletes1) (Some deletes2))
  end.

End Cache.

(** Lines 322-325. *)
Definition SetPenalty (sc : TSpellCorrector) (knownWordsPenaly unknownWordsPenalty : float)
    : TSpellCorrector :=
  {| LangModel := LangModel sc; Deletes1 := Deletes1 sc; Deletes2 := Deletes2 sc;
     KnownWordsPenalty := knownWordsPenaly;
     UnknownWordsPenalty := unknownWordsPenalty;
     MaxCandiatesToCheck := MaxCandiatesToCheck sc |}.

(** Lines 327-329. *)
Definition SetMaxCandiatesToCheck (sc : TSpellCorrector) (maxCandidatesToCheck : nat)
    : TSpellCorrector :=
  {| LangModel := LangModel sc; Deletes1 := Deletes1 sc; Deletes2 := Deletes2 sc;
     KnownWordsPenalty := KnownWordsPenalty sc;
     UnknownWordsPenalty := UnknownWordsPenalty sc;
     MaxCandiatesToCheck := maxCandidatesToCheck |}.

(** Lines 331-333. *)
Definition GetLangModel (sc : TSpellCorrector) : TLangModel.t := LangModel sc.

Definition withLangModel (sc : TSpellCorrector) (lm : TLangModel.t) : TSpellCorrector :=
  {| LangModel := lm; Deletes1 := Deletes1 sc; Deletes2 := Deletes2 sc;
     KnownWordsPenalty := KnownWordsPenalty sc;
     UnknownWordsPenalty := UnknownWordsPenalty sc;
     MaxCandiatesToCheck := MaxCandiatesToCheck sc |}.

Section Lifecycle.
Context `{BloomBackend} `{BloomDumper} `{ModelBackend}.

(** The bytes lines 565-570 write. *)
Definition cacheImage (sc : TSpellCorrector) (d1 d2 : TBloomFilter) : list N :=
  Dump 8 SPELL_CHECKER_CACHE_MAGIC_BYTE
  ++ Dump 2 SPELL_CHECKER_CACHE_VERSION
  ++ Dump 8 (TLangModel.GetCheckSum (LangModel sc))
  ++ BloomDump d1 ++ BloomDump d2
  ++ Dump 8 SPELL_CHECKER_CACHE_MAGIC_BYTE.

(** Lines 556-572. [writable cacheFile] tells whether the output file can
    be opened; opening it creates it empty, or empties it, before the
    filters are looked at. What is written to an open file is taken to
    reach it. *)
Definition SaveCache (writable : string → bool) (fs : FileSystem)
    (sc : TSpellCorrector) (cacheFile : string) : bool * FileSystem :=
  if writable cacheFile then
    match Deletes1 sc, Deletes2 sc with
    | Some d1, Some d2 => (true, <[cacheFile := cacheImage sc d1 d2]> fs)
    | _, _ => (false, <[cacheFile := []]> fs)
    end
  else (false, fs).

(** Lines 37-48. The result of [SaveCache] is dropped. [None] where
    [PrepareCache] is undefined. *)
Definition LoadLangModel (writable : string → bool) (fs : FileSystem)
    (sc : TSpellCorrector) (modelFile : string)
    : option (bool * TSpellCorrector * FileSystem) :=
  let '(ok, lm) := ModelLoad fs (LangModel sc) modelFile in
  let sc := withLangModel sc lm in
  if negb ok then Some (false, sc, fs)
  else
    let cacheFile := modelFile +:+ ".spell" in
    let '(loaded, sc) := LoadCache fs sc cacheFile in
    if loaded then Some (true, sc, fs)
    else
      sc ← PrepareCache sc;
      Some (true, sc, (SaveCache writable fs sc cacheFile).2).

(** Lines 50-63. *)
Definition TrainLangModel (writable : string → bool) (fs : FileSystem)
    (sc : TSpellCorrector) (textFile alphabetFile modelFile : string)
    : option (bool * TSpellCorrector * FileSystem) :=
  let '(ok, lm) := ModelTrain fs (LangModel sc) textFile alphabetFile in
  let sc := withLangModel sc lm in
  if negb ok then Some (false, sc, fs)
  else
    sc ← PrepareCache sc;
    let '(dumped, fs) := ModelDump fs (LangModel sc) modelFile in
    if negb dumped then Some (false, sc, fs)
    else
      let cacheFile := modelFile +:+ ".spell" in
      let '(saved, fs) := SaveCache writable fs sc cacheFile in
      if negb saved then Some (false, sc, fs) else Some (true, sc, fs).

End Lifecycle.

Section Fragments.
Context `{BloomBackend} `{StdSort} `{ModelBackend} `{UnorderedSet}.
Variable sc : TSpellCorrector.

(** A loop whose body can fail. *)
Fixpoint foldlM {A B} (f : A → B → option A) (a : A) (l : list B) : option A :=
  match l with
  | [] => Some a
  | b :: l' => match f a b with Some a' => foldlM f a' l' | None => None end
  end.

(** Lines 305-309: one round of the loop over the words of a sentence;
    [words] is corrected in place and the word at [i] appended to [result]
    with a space. *)
Definition normalizeWord (st : TWords * wstring) (i : nat) : option (TWords * wstring) :=
  let '(words, result) := st in
  candidates ← GetCandidatesRaw sc words i;
  let words := match candidates with
               | c :: _ => <[i := c]> words
               | [] => words
               end in
  Some (words, result ++ default [] (words !! i) ++ [32%N]).

(** Lines 303-314: one sentence; the space after its last word gives way
    to a full stop and a space. *)
Definition normalizeSentence (result : wstring) (words : TWords) : option wstring :=
  '(words, result) ← foldlM normalizeWord (words, result) (seq 0 (length words));
  Some (if bool_decide (0 < length words)%nat
        then take (length result - 1) result ++ [46%N; 32%N]
        else result).

(** Lines 297-320. *)
Definition FixFragmentNormalized (text : wstring) : option wstring :=
  let lowered := ToLower text in
  let sentences := Tokenize (LangModel sc) lowered in
  result ← foldlM normalizeSentence [] sentences;
  Some (if bool_decide (result ≠ []) then take (length result - 1) result else result).

End Fragments.

End NJamSpell.

(** ** [NOpenSpell]: src/openspell/spell_corrector.cpp *)

Module NOpenSpell.

Record TScoredWord := { Word : TWord; Score : float }.

Section Engine.
Context `{StdSort} `{UnorderedSet}.
Variable LangModel : TLangModel.t.

Definition Lookup (s : wstring) : TWords :=
  let c := TLangModel.GetWord LangModel s in
  if IsWord c then [c] else [].

Definition visit (deeper : wstring → option TWords) (s : wstring) : option TWords :=
  more ← deeper s; Some (Lookup s ++ more).

(** Lines 101-107: the last pair is never transposed, and the rest of the
    word is appended only when more than one character follows the pair. *)
Definition transpose_at (i : nat) (w : wstring) : wstring :=
  take i w ++ take 1 (drop (S i) w) ++ take 1 (drop i w)
    ++ (if bool_decide (i + 3 < length w)%nat then drop (i + 2) w else []).

(** The body of the loop of [Edits] (lines 86-144) at index [i]. *)
Definition EditsAt (deeper : wstring → option TWords) (w : wstring) (i : nat)
    : option TWords :=
  del ← visit deeper (delete_at i w);
  tr ← (if bool_decide (i + 2 < length w)%nat
        then visit deeper (transpose_at i w) else Some []);
  rep ← mapM (λ ch, visit deeper (replace_at i ch w)) (TLangModel.GetAlphabet LangModel);
  ins ← mapM (λ ch, visit deeper (insert_at i ch w)) (TLangModel.GetAlphabet LangModel);
  Some (del ++ tr ++ concat rep ++ concat ins).

(** The loop runs while [i < w.size() - 1] in [size_t]: on the empty word
    the bound wraps around and the first [w.substr(i+1)] raises
    [std::out_of_range], which nothing catches ([None]). *)
Definition EditsLevel (deeper : wstring → option TWords) (w : wstring) : option TWords :=
  if bool_decide (w = []) then None
  else
    parts ← mapM (EditsAt deeper w) (seq 0 (length w - 1));
    Some (concat parts).

(** Lines 82-147; the inner calls [Edits(TWord(s))] run with
    [lastLevelDefault]. *)
Definition Edits (word : TWord) (lastLevel : bool) : option TWords :=
  EditsLevel (if lastLevel then λ _, Some [] else EditsLevel (λ _, Some [])) word.

Definition byScore (w1 w2 : TScoredWord) : bool := (Score w2 <? Score w1)%float.

(** Lines 43-64. *)
Definition scoreCandidate (sentence : TWords) (position : nat)
    (w : TWord) (firstLevel : bool) (cand : TWord) : TScoredWord :=
  let candSentence := <[position := cand]> sentence in
  let score := TLangModel.Score LangModel candSentence in
  {| Word := cand;
     Score :=
       if bool_decide (cand = w) then score
       else if firstLevel then (score * 1.045)%float else (score * 50)%float |}.

(** Lines 15-75. *)
Definition Correct (sentence : TWords) (position : nat) : option TWords :=
  if bool_decide (length sentence ≤ position)%nat then Some []
  else
    let w := default [] (sentence !! position) in
    candidates ← Edits w lastLevelDefault;
    '(candidates, firstLevel) ←
      (if bool_decide (candidates = [])
       then candidates ← Edits w false; Some (candidates, false)
       else Some (candidates, true));
    let c := TLangModel.GetWord LangModel w in
    let '(w, candidates) := if IsWord c then (c, candidates ++ [c]) else (w, candidates) in
    if bool_decide (candidates = []) then Some candidates
    else
      let uniqueCandidates := uset_range candidates in
      let scoredCandidates :=
        scoreCandidate sentence position w firstLevel <$> uset_items uniqueCandidates in
      Some (Word <$> std_sort byScore scoredCandidates).

End Engine.

End NOpenSpell.

(** ** Fixtures: a small engine to evaluate the definitions on *)

Module Fixture.
Import NJamSpell.

Definition ws (s : string) : wstring := Ascii.N_of_ascii <$> String.list_ascii_of_string s.

(** A filter backend: polynomial hashes seeded by the index of the hash
    function, ten of them over at least 1000 bits, and a persisted form made
    of the number of bits (8 bytes), the number of hashes (4 bytes) and the
    positions of the set bits, one byte each, after their count (1 byte). *)
Definition hashOf (i : nat) (key : list N) : N :=
  foldl (λ h b, ((h * 131 + b + 1) mod 4294967296)%N) (N.of_nat i * 7919 + 17)%N key.

Definition loadFilter (s : istream) : TBloomFilter * istream :=
  let '(m, s1) := Load 8 0 s in
  let '(k, s2) := Load 4 0 s1 in
  let '(n, s3) := Load 1 0 s2 in
  let '(bits, s4) := stream_read (Z.to_nat n) [] s3 in
  ({| ExpectedItems := 0; FalsePositiveProb := 0%float;
      NumBits := Z.to_N m; NumHashes := Z.to_nat k; Bits := list_to_set bits |}, s4).

Definition backend : BloomBackend :=
  {| BloomHash := hashOf;
     BloomDims := λ n _, (Z.to_N (Z.max 1000 (15 * n)), 10%nat);
     BloomLoad := loadFilter |}.

(** A language model over a vocabulary with counts: a word is its own
    canonical token, its identifier is its index, and a sentence scores the
    sum of the counts of its words. *)
Definition countOf (vocab : list (string * Z)) (w : TWord) : Z :=
  match list_find (λ e, ws e.1 = w) vocab with
  | Some (_, e) => e.2
  | None => 0
  end.

Definition idOf (vocab : list (string * Z)) (w : TWord) : Z :=
  match list_find (λ e, ws e.1 = w) vocab with
  | Some (i, _) => Z.of_nat i
  | None => -1
  end.

Definition modelOf (vocab : list (string * Z)) (alphabet : string) : TLangModel.t :=
  {| TLangModel.GetWord := λ s, if bool_decide (s ∈ (ws ∘ fst) <$> vocab) then s else [];
     TLangModel.GetWordIdNoCreate := idOf vocab;
     TLangModel.GetWordCount := λ id, default 0 (snd <$> vocab !! Z.to_nat id);
     TLangModel.GetWordToId := imap (λ i e, (ws e.1, Z.of_nat i)) vocab;
     TLangModel.GetAlphabet := ws alphabet;
     TLangModel.Score := λ sentence,
       PrimFloat.of_uint63 (Uint63.of_Z (foldr (λ w acc, countOf vocab w + acc) 0 sentence));
     TLangModel.GetCheckSum := 42 |}.

Definition engineOf (vocab : list (string * Z)) (alphabet : string) (K : nat)
    : TSpellCorrector :=
  {| LangModel := modelOf vocab alphabet;
     Deletes1 := None; Deletes2 := None;
     KnownWordsPenalty := 20%float; UnknownWordsPenalty := 50%float;
     MaxCandiatesToCheck := K |}.

(** The engine after [PrepareCache]; an engine whose cache cannot be built
    is left as it is. *)
Definition preparedOf (vocab : list (string * Z)) (alphabet : string) (K : nat)
    : TSpellCorrector :=
  default (engineOf vocab alphabet K)
    (PrepareCache (H := backend) (engineOf vocab alphabet K)).

End Fixture.

(** * Vocabulary of the properties *)

Section Vocabulary.
Import NJamSpell.
Context `{BloomBackend} `{UnorderedSet}.
Variable sc : TSpellCorrector.

(** The word at the queried position. *)
Definition queryWord (sentence : TWords) (p : nat) : TWord := default [] (sentence !! p).

(** The query word is a known word: its string is in the vocabulary. *)
Definition isKnown (w : TWord) : bool := IsWord (TLangModel.GetWord (LangModel sc) w).

(** The identity candidate: the canonical vocabulary token of a known
    word, the original token of an unknown one. *)
Definition identityToken (w : TWord) : TWord :=
  if isKnown w then TLangModel.GetWord (LangModel sc) w else w.

(** The candidates came from the first enumeration. *)
Definition fromFirstLevel (w : TWord) : bool := bool_decide (Edits2 sc w true ≠ []).

(** No score is a NaN: [operator>] on the scores is then the strict weak
    ordering that [std::sort] requires. *)
Definition rankable (l : TScoredWords) : Prop :=
  Forall (λ sw, PrimFloat.is_nan (Score sw) = false) l.

Definition countOfWord (c : TWord) : TCount * TWord :=
  (TLangModel.GetWordCount (LangModel sc) (TLangModel.GetWordIdNoCreate (LangModel sc) c), c).

(** The counted candidates after the stable sort of line 166, which starts
    from the order in which the container is iterated. *)
Definition rankedByCount (uniqueCandidates : uset) : list (TCount * TWord) :=
  stable_sort byCount (countOfWord <$> uset_items uniqueCandidates).

(** The scored candidates handed to the final sort; none when the query
    returns before scoring. *)
Definition beforeSort (sentence : TWords) (p : nat) : TScoredWords :=
  match generateCandidates sc (queryWord sentence p) with
  | Some (candidates, firstLevel) =>
      if bool_decide (length sentence ≤ p)%nat || bool_decide (candidates = []) then []
      else scoredCandidates sc sentence p (queryWord sentence p) candidates firstLevel
  | None => []
  end.

(** The candidates that are scored, in the order the loop of line 103
    visits them: the container built from the candidates and the identity
    token, pruned by frequency. *)
Definition prunedItems (w : TWord) (candidates : TWords) : TWords :=
  uset_items
    (FilterCandidatesByFrequency sc
       (uset_range (candidates ++ [identityToken w])) (identityToken w)).

(** The same as a set. *)
Definition prunedSet (w : TWord) (candidates : TWords) : gset TWord :=
  list_to_set (prunedItems w candidates).

(** Candidates of equal score come in the order of the enumeration: of
    two entries of [r] with the same score, the earlier one is not listed
    after the later one in [enumeration]. *)
Definition tiesKeepOrder (enumeration : TWords) (r : TScoredWords) : Prop :=
  ∀ i j a b i' j',
    (i < j)%nat → r !! i = Some a → r !! j = Some b → Score a = Score b →
    enumeration !! i' = Some (Word a) → enumeration !! j' = Some (Word b) →
    (i' ≤ j')%nat.

(** [s] is one delete, transposition, replacement or insertion away from
    [w], over the alphabet of the language model. *)
Definition oneEdit (w s : wstring) : Prop :=
  (∃ i, (i < length w)%nat ∧ s = delete_at i w)
  ∨ (∃ i, (i + 1 < length w)%nat ∧ s = transpose_at i w)
  ∨ (∃ i ch, (i < length w)%nat ∧ ch ∈ TLangModel.GetAlphabet (LangModel sc)
             ∧ s = replace_at i ch w)
  ∨ (∃ i ch, (i ≤ length w)%nat ∧ ch ∈ TLangModel.GetAlphabet (LangModel sc)
             ∧ s = insert_at i ch w).

(** The generation order read from the words of the specification: the
    symmetric-delete enumeration ([Edits] in the source) first, the
    one-level enumeration as its fallback. *)
Definition claimedGenerate (w : TWord) : option (TWords * bool) :=
  match Edits sc w with
  | Some candidates =>
      if bool_decide (candidates = []) then Some (Edits2 sc w true, false)
      else Some (candidates, true)
  | None => None
  end.

(** The fields of a cache file in the order of section 6.3, each read
    where the previous one ended. *)
Record CacheFields := {
  leadingMagic : Z;
  cacheVersion : Z;
  modelCheckSum : Z;
  loadedDeletes1 : TBloomFilter;
  loadedDeletes2 : TBloomFilter;
  trailingMagic : Z
}.

Definition readCacheFields (content : list N) : CacheFields :=
  let '(magic1, in1) := Load 8 0 {| Data := content; Good := true |} in
  let '(version, in2) := Load 2 0 in1 in
  let '(checkSum, in3) := Load 8 0 in2 in
  let '(deletes1, in4) := BloomLoad in3 in
  let '(deletes2, in5) := BloomLoad in4 in
  let '(magic2, _) := Load 8 0 in5 in
  {| leadingMagic := magic1; cacheVersion := version; modelCheckSum := checkSum;
     loadedDeletes1 := deletes1; loadedDeletes2 := deletes2; trailingMagic := magic2 |}.

(** The four checks of [LoadCache]. *)
Definition cacheChecks (c : CacheFields) : bool :=
  bool_decide (leadingMagic c = SPELL_CHECKER_CACHE_MAGIC_BYTE)
  && bool_decide (cacheVersion c = SPELL_CHECKER_CACHE_VERSION)
  && bool_decide (modelCheckSum c = TLangModel.GetCheckSum (LangModel sc))
  && bool_decide (trailingMagic c = SPELL_CHECKER_CACHE_MAGIC_BYTE).

(** One filter extends another: same dimensions, no bit cleared. *)
Definition extends (f g : TBloomFilter) : Prop :=
  NumBits g = NumBits f ∧ NumHashes g = NumHashes f ∧ Bits f ⊆ Bits g.

End Vocabulary.

(** The window in the words of section 4.E: the tokens at positions
    [p-2], [p-1], the candidate at [p], then [p+1] and [p+2], a position
    outside the sentence contributing nothing. *)
Definition localWindow (sentence : TWords) (p : nat) (c : TWord) : TWords :=
  (if bool_decide (2 ≤ p)%nat then option_list (sentence !! (p - 2)%nat) else [])
  ++ (if bool_decide (1 ≤ p)%nat then option_list (sentence !! (p - 1)%nat) else [])
  ++ [c]
  ++ option_list (sentence !! (p + 1)%nat)
  ++ option_list (sentence !! (p + 2)%nat).

(** The body of the loop of lines 105-113 at index [i]. *)
Definition windowStep (sentence : TWords) (position : nat) (cand : TWord) (i : nat)
    : TWords :=
  if bool_decide (i = position) then [cand]
  else if bool_decide ((i < position ∧ position ≤ i + 2)
                       ∨ (position < i ∧ i ≤ position + 2))%nat
       then option_list (sentence !! i)
       else [].

(** Engines the properties are evaluated on. *)

(** Vocabulary [ab] (5 times) and [abcd] (7 times) over the alphabet
    [a..d], cache built. *)
Definition engineAbcd : NJamSpell.TSpellCorrector :=
  Fixture.preparedOf [("ab", 5); ("abcd", 7)] "abcd" 14.

(** The same vocabulary over the alphabet [c, d]: no single edit of [ab]
    is a word. *)
Definition engineCd : NJamSpell.TSpellCorrector :=
  Fixture.preparedOf [("ab", 5); ("abcd", 7)] "cd" 14.

(** Two words of equal count. *)
Definition engineTie : NJamSpell.TSpellCorrector :=
  Fixture.preparedOf [("ab", 5); ("ac", 5)] "abc" 14.

(** The fixture of section 8 of the specification: eight words, the Latin
    alphabet. *)
Definition engineFox : NJamSpell.TSpellCorrector :=
  Fixture.preparedOf
    [("the", 900); ("quick", 100); ("brown", 120); ("fox", 80);
     ("jumps", 60); ("over", 300); ("lazy", 70); ("dog", 110)]
    "abcdefghijklmnopqrstuvwxyz" 14.

(** Cache files for the fixture backend. *)

(** A persisted filter of the fixture backend: 8 bits, 1 hash, the set
    bits listed. *)
Definition filterBytes (bits : list N) : list N :=
  le_bytes 8 8 ++ le_bytes 4 1 ++ le_bytes 1 (Z.of_nat (length bits)) ++ bits.

Definition cacheBytes (magic1 version checkSum : Z) (magic2 : list N) : list N :=
  le_bytes 8 magic1 ++ le_bytes 2 version ++ le_bytes 8 checkSum
    ++ filterBytes [1; 3]%N ++ filterBytes [2]%N ++ magic2.

Definition goodCache : list N :=
  cacheBytes NJamSpell.SPELL_CHECKER_CACHE_MAGIC_BYTE 1 42 (le_bytes 8 NJamSpell.SPELL_CHECKER_CACHE_MAGIC_BYTE).

Definition diskWith (content : list N) : FileSystem := {["model.bin.spell" := content]}.

(** * Vocabulary of the further properties *)

(** [w] is [v] with one character deleted, two neighbours exchanged, one
    character replaced or one character inserted; the characters that come
    in are arbitrary. *)
Definition misspelt (v w : wstring) : Prop :=
  (∃ i, (i < length v)%nat ∧ w = delete_at i v)
  ∨ (∃ i, (i + 1 < length v)%nat ∧ w = transpose_at i v)
  ∨ (∃ i ch, (i < length v)%nat ∧ w = replace_at i ch v)
  ∨ (∃ i ch, (i ≤ length v)%nat ∧ w = insert_at i ch v).

(** Every character of [v] is in the alphabet of the language model. *)
Definition spelled (sc : NJamSpell.TSpellCorrector) (v : wstring) : Prop :=
  ∀ ch, ch ∈ v → ch ∈ TLangModel.GetAlphabet (NJamSpell.LangModel sc).

(** [s] is [w] after [k] successive deletions of one character. *)
Fixpoint deletions (k : nat) (w s : wstring) : Prop :=
  match k with
  | O => s = w
  | S k' => ∃ i, (i < length w)%nat ∧ deletions k' (delete_at i w) s
  end.

(** [s] is [w] after [k] successive insertions of one character of the
    alphabet. *)
Fixpoint insertions (sc : NJamSpell.TSpellCorrector) (k : nat) (w s : wstring) : Prop :=
  match k with
  | O => s = w
  | S k' => ∃ i ch, (i ≤ length w)%nat
                    ∧ ch ∈ TLangModel.GetAlphabet (NJamSpell.LangModel sc)
                    ∧ insertions sc k' (insert_at i ch w) s
  end.

(** [l] joined by [sep]. *)
Fixpoint joinWith (sep : wstring) (l : list wstring) : wstring :=
  match l with
  | [] => []
  | [x] => x
  | x :: l' => x ++ sep ++ joinWith sep l'
  end.

(** [words'] is [words] corrected from left to right: it has as many
    words, and its word at [i] is the first candidate of the query at [i]
    on the sentence whose words before [i] are already corrected and whose
    words from [i] on are still those of [words], or the word of [words]
    at [i] when that query has no candidate. *)
Definition correctedWords `{BloomBackend} `{StdSort} `{UnorderedSet}
    (sc : NJamSpell.TSpellCorrector) (words words' : TWords) : Prop :=
  length words' = length words
  ∧ ∀ i, (i < length words)%nat →
      ∃ candidates,
        NJamSpell.GetCandidatesRaw sc (take i words' ++ drop i words) i = Some candidates
        ∧ words' !! i = match candidates with c :: _ => Some c | [] => words !! i end.

(** [BloomLoad] reads back what [BloomDump] wrote for [d], whatever
    follows it in the stream. *)
Definition dumpsFaithfully `{BloomBackend} `{BloomDumper} (d : TBloomFilter) : Prop :=
  ∀ rest, BloomLoad {| Data := BloomDump d ++ rest; Good := true |}
          = (d, {| Data := rest; Good := true |}).

(** Both filters of the engine are present and read back from their
    dumps. *)
Definition filtersPersist `{BloomBackend} `{BloomDumper}
    (sc : NJamSpell.TSpellCorrector) : Prop :=
  ∃ d1 d2, NJamSpell.Deletes1 sc = Some d1 ∧ NJamSpell.Deletes2 sc = Some d2
           ∧ dumpsFaithfully d1 ∧ dumpsFaithfully d2.

(** The checksum of the model is a [uint64_t]. *)
Definition checksumInRange (sc : NJamSpell.TSpellCorrector) : Prop :=
  0 ≤ TLangModel.GetCheckSum (NJamSpell.LangModel sc) < 2 ^ 64.

(** A second fixture: a filter format that keeps every field, a model
    store that loads one fixed model from any file that exists, and a
    tokenizer that splits at full stops and spaces. *)
Module FixtureIO.

Definition loadFilter (s : istream) : TBloomFilter * istream :=
  let '(n, s1) := Load 8 0 s in
  let '(m, s2) := Load 8 0 s1 in
  let '(k, s3) := Load 4 0 s2 in
  let '(count, s4) := Load 8 0 s3 in
  let '(bits, s5) := stream_read (Z.to_nat count) [] s4 in
  ({| ExpectedItems := n; FalsePositiveProb := 0.001%float;
      NumBits := Z.to_N m; NumHashes := Z.to_nat k; Bits := list_to_set bits |}, s5).

Definition dumpFilter (f : TBloomFilter) : list N :=
  Dump 8 (ExpectedItems f) ++ Dump 8 (Z.of_N (NumBits f))
    ++ Dump 4 (Z.of_nat (NumHashes f))
    ++ Dump 8 (Z.of_nat (length (elements (Bits f)))) ++ elements (Bits f).

Definition backend : BloomBackend :=
  {| BloomHash := Fixture.hashOf;
     BloomDims := λ n _, (Z.to_N (Z.max 1000 (15 * n)), 10%nat);
     BloomLoad := loadFilter |}.

Definition dumper : BloomDumper := {| BloomDump := dumpFilter |}.

Definition model : TLangModel.t :=
  Fixture.modelOf [("the", 900); ("fox", 80); ("dog", 110)] "abcdefghijklmnopqrstuvwxyz".

Fixpoint splitAt (sep : N) (cur : wstring) (text : wstring) : list wstring :=
  match text with
  | [] => [reverse cur]
  | ch :: text' =>
      if bool_decide (ch = sep) then reverse cur :: splitAt sep [] text'
      else splitAt sep (ch :: cur) text'
  end.

Definition wordsOf (sentence : wstring) : TWords :=
  filter (λ w, w ≠ []) (splitAt 32 [] sentence).

Definition lower (ch : N) : N :=
  if bool_decide (65 ≤ ch ≤ 90)%N then (ch + 32)%N else ch.

Definition store : ModelBackend :=
  {| ModelLoad := λ fs lm file, if bool_decide (is_Some (fs !! file)) then (true, model)
                               else (false, lm);
     ModelTrain := λ fs lm text alphabet,
       if bool_decide (is_Some (fs !! text) ∧ is_Some (fs !! alphabet)) then (true, model)
       else (false, lm);
     ModelDump := λ fs lm file, (true, <[file := [1%N]]> fs);
     Tokenize := λ lm text, wordsOf <$> splitAt 46 [] text;
     ToLower := fmap lower |}.

Definition engine : NJamSpell.TSpellCorrector :=
  {| NJamSpell.LangModel := Fixture.modelOf [] "" ;
     NJamSpell.Deletes1 := None; NJamSpell.Deletes2 := None;
     NJamSpell.KnownWordsPenalty := 20%float; NJamSpell.UnknownWordsPenalty := 50%float;
     NJamSpell.MaxCandiatesToCheck := 14 |}.

Definition disk : FileSystem := {["model.bin" := [1%N]]}.

(** The engine over [model] after [PrepareCache]. *)
Definition prepared : NJamSpell.TSpellCorrector :=
  default engine
    (NJamSpell.PrepareCache (H := backend) (NJamSpell.withLangModel engine model)).

(** The fields of the filter fit the widths of the persisted form. *)
Definition fits (d : TBloomFilter) : Prop :=
  FalsePositiveProb d = 0.001%float
  ∧ 0 ≤ ExpectedItems d < 2 ^ 64
  ∧ Z.of_N (NumBits d) < 2 ^ 64
  ∧ Z.of_nat (NumHashes d) < 2 ^ 32
  ∧ Z.of_nat (length (elements (Bits d))) < 2 ^ 64.

(** [LoadLangModel] and [TrainLangModel] on [disk], every file writable. *)
Definition loaded : option (bool * NJamSpell.TSpellCorrector * FileSystem) :=
  NJamSpell.LoadLangModel (H := backend) (H0 := dumper) (H1 := store)
    (λ _, true) disk engine "model.bin".

Definition trained : option (bool * NJamSpell.TSpellCorrector * FileSystem) :=
  NJamSpell.TrainLangModel (H := backend) (H0 := dumper) (H1 := store)
    (λ _, true) {["text.txt" := [2%N]; "alphabet.txt" := [3%N]]} engine
    "text.txt" "alphabet.txt" "model.bin".

End FixtureIO.

(** * Properties *)

(** ** Sorting *)

Section SortingFacts.
Context {A : Type}.
Variable comp : A → A → bool.

Lemma sorted_by_nil : sorted_by comp [].
Proof. intros i j a b _ Hi. by rewrite lookup_nil in Hi. Qed.

Lemma sorted_by_cons x l :
  sorted_by comp (x :: l) ↔ (∀ y, y ∈ l → comp y x = false) ∧ sorted_by comp l.
Proof.
  split.
  - intros Hs. split.
    + intros y [j Hj]%list_elem_of_lookup. apply (Hs 0%nat (S j) x y); [lia|done..].
    + intros i j a b Hij Hi Hj. apply (Hs (S i) (S j) a b); [lia|done..].
  - intros [Hx Hs] i j a b Hij Hi Hj.
    destruct j as [|j]; [lia|]. simpl in Hj.
    destruct i as [|i]; simpl in Hi.
    + injection Hi as <-. apply Hx. by apply list_elem_of_lookup_2 with j.
    + apply (Hs i j a b); [lia|done..].
Qed.

Lemma strict_weak_on_asym l a b :
  strict_weak_on comp l → a ∈ l → b ∈ l → comp a b = true → comp b a = false.
Proof.
  intros (Hirr & Htr & _) Ha Hb Hab.
  destruct (comp b a) eqn:Hba; [|done].
  rewrite <- (Hirr a Ha). symmetry. by apply (Htr a b a).
Qed.

Lemma strict_weak_on_sub l k :
  k ⊆ l → strict_weak_on comp l → strict_weak_on comp k.
Proof.
  intros Hsub (Hirr & Htr & Hneg). repeat split; intros.
  - apply Hirr; auto.
  - apply (Htr a b c); auto.
  - apply (Hneg a b c); auto.
Qed.

Lemma stable_insert_perm x l : stable_insert comp x l ≡ₚ x :: l.
Proof.
  induction l as [|y l IH]; simpl; [done|].
  destruct (comp y x); [|done].
  rewrite IH. apply Permutation_swap.
Qed.

Lemma stable_sort_perm l : stable_sort comp l ≡ₚ l.
Proof.
  induction l as [|x l IH]; simpl; [done|].
  rewrite stable_insert_perm. by rewrite IH.
Qed.

Lemma stable_insert_sorted x l :
  strict_weak_on comp (x :: l) → sorted_by comp l →
  sorted_by comp (stable_insert comp x l).
Proof.
  intros Hswo. induction l as [|y l IH]; simpl; intros Hs.
  - apply sorted_by_cons. split; [intros y Hy; by apply elem_of_nil in Hy|apply sorted_by_nil].
  - apply sorted_by_cons in Hs as [Hy Hs].
    destruct (comp y x) eqn:Hyx; apply sorted_by_cons.
    + split.
      * intros z Hz. rewrite stable_insert_perm in Hz.
        apply elem_of_cons in Hz as [->|Hz]; [|by apply Hy].
        apply (strict_weak_on_asym _ y x Hswo); [set_solver..|done].
      * apply IH; [|done]. eapply strict_weak_on_sub; [|done].
        intros a. rewrite !elem_of_cons. tauto.
    + split; [|by apply sorted_by_cons].
      intros z Hz. apply elem_of_cons in Hz as [->|Hz]; [done|].
      destruct (comp z x) eqn:Hzx; [|done].
      destruct Hswo as (_ & _ & Hneg).
      destruct (Hneg z y x) as [Hzy|Hyx']; [set_solver..|done| |congruence].
      rewrite (Hy z Hz) in Hzy. done.
Qed.

Lemma stable_sort_sorted l : strict_weak_on comp l → sorted_by comp (stable_sort comp l).
Proof.
  induction l as [|x l IH]; simpl; intros Hswo; [apply sorted_by_nil|].
  apply stable_insert_sorted.
  - eapply strict_weak_on_sub; [|done]. by rewrite stable_sort_perm.
  - apply IH. eapply strict_weak_on_sub; [|done]. set_solver.
Qed.

(** Stability: an element only moves past elements strictly before it. *)
Lemma stable_insert_filter (P : A → Prop) `{∀ a, Decision (P a)} x l :
  (∀ y, y ∈ l → P x → P y → comp y x = false) →
  filter P (stable_insert comp x l) = filter P (x :: l).
Proof.
  induction l as [|y l IH]; simpl; intros Hxy; [done|].
  destruct (comp y x) eqn:Hyx; [|done].
  rewrite !filter_cons. rewrite IH by (intros; apply Hxy; [set_solver|done..]).
  rewrite filter_cons.
  destruct (decide (P y)) as [Py|]; destruct (decide (P x)) as [Px|]; try done.
  rewrite Hxy in Hyx; [done|set_solver|done..].
Qed.

Lemma stable_sort_filter (P : A → Prop) `{∀ a, Decision (P a)} l :
  (∀ x y, x ∈ l → y ∈ l → P x → P y → comp y x = false) →
  filter P (stable_sort comp l) = filter P l.
Proof.
  induction l as [|x l IH]; simpl; intros Hxy; [done|].
  rewrite stable_insert_filter.
  - rewrite !filter_cons. rewrite IH; [done|]. intros; apply Hxy; set_solver.
  - intros y Hy. rewrite stable_sort_perm in Hy. apply Hxy; set_solver.
Qed.

End SortingFacts.

(** Insertion sort, which is stable, meets the contract of [std::sort]. *)
Definition StableStdSort : StdSort :=
  {| std_sort := λ A comp l, stable_sort comp l;
     std_sort_perm := λ A comp l _, stable_sort_perm comp l;
     std_sort_sorted := λ A comp l, stable_sort_sorted comp l |}.

(** A container that meets the contract of [std::unordered_set]: it keeps
    the insertions, the latest first, and an iteration visits the tokens
    from the one that came in last to the one that came in first. This is
    the traversal of a chained hash table that links a new token at the
    head of its list, as long as no two tokens share a bucket. *)
Definition RecentFirstSet : UnorderedSet :=
  {| uset := TWords;
     uset_range := λ l, reverse l;
     uset_clear := λ _, [];
     uset_insert := λ c s, c :: s;
     uset_items := λ s, remove_dups s;
     uset_items_NoDup := λ s, NoDup_remove_dups s;
     uset_range_spec := λ l c,
       iff_trans (elem_of_remove_dups (reverse l) c) (elem_of_reverse c l);
     uset_clear_spec := λ _, eq_refl;
     uset_insert_spec := λ c s x,
       iff_trans (elem_of_remove_dups (c :: s) x)
         (iff_trans (elem_of_cons s x c)
            (or_iff_compat_l (x = c) (iff_sym (elem_of_remove_dups s x)))) |}.

(** ** The order of [double] *)

Section FloatOrder.

Local Ltac cmp_cases :=
  repeat match goal with
  | |- context [Z.compare ?a ?b] => destruct (Z.compare_spec a b)
  | |- context [Pos.compare_cont Eq ?a ?b] =>
      change (Pos.compare_cont Eq a b) with (Pos.compare a b);
      destruct (Pos.compare_spec a b)
  | H : context [Z.compare ?a ?b] |- _ => destruct (Z.compare_spec a b)
  | H : context [Pos.compare_cont Eq ?a ?b] |- _ =>
      change (Pos.compare_cont Eq a b) with (Pos.compare a b) in H;
      destruct (Pos.compare_spec a b)
  end.

Lemma SFltb_irrefl a : SFltb a a = false.
Proof.
  destruct a as [[]|[]| |[] m e]; cbv beta iota delta [SFltb SFcompare]; try done.
  - rewrite Z.compare_refl. change (Pos.compare_cont Eq m m) with (Pos.compare m m).
    by rewrite Pos.compare_refl.
  - rewrite Z.compare_refl. change (Pos.compare_cont Eq m m) with (Pos.compare m m).
    by rewrite Pos.compare_refl.
Qed.

Lemma SFltb_trans a b c : SFltb a b = true → SFltb b c = true → SFltb a c = true.
Proof.
  destruct a as [[]|[]| |[] ma ea], b as [[]|[]| |[] mb eb], c as [[]|[]| |[] mc ec];
    cbv beta iota delta [SFltb SFcompare]; try done;
    intros H1 H2; cmp_cases; try done; lia.
Qed.

Lemma SFltb_negtrans a b c :
  b ≠ S754_nan → SFltb a c = true → SFltb a b = true ∨ SFltb b c = true.
Proof.
  destruct a as [[]|[]| |[] ma ea], b as [[]|[]| |[] mb eb], c as [[]|[]| |[] mc ec];
    cbv beta iota delta [SFltb SFcompare]; try done;
    intros Hb H1; try (by left); try (by right);
    cmp_cases; try done; try (by left); try (by right); lia.
Qed.

Lemma is_nan_false x : PrimFloat.is_nan x = false → Prim2SF x ≠ S754_nan.
Proof.
  unfold PrimFloat.is_nan. rewrite FloatAxioms.eqb_spec. intros Hx Hnan.
  rewrite Hnan in Hx. done.
Qed.

Lemma ltb_irrefl x : (x <? x)%float = false.
Proof. rewrite FloatAxioms.ltb_spec. apply SFltb_irrefl. Qed.

Lemma ltb_trans x y z :
  (x <? y)%float = true → (y <? z)%float = true → (x <? z)%float = true.
Proof. rewrite !FloatAxioms.ltb_spec. apply SFltb_trans. Qed.

Lemma ltb_negtrans x y z :
  PrimFloat.is_nan y = false →
  (x <? z)%float = true → (x <? y)%float = true ∨ (y <? z)%float = true.
Proof. rewrite !FloatAxioms.ltb_spec. intros Hy%is_nan_false. by apply SFltb_negtrans. Qed.

End FloatOrder.

(** ** Out-of-range queries *)

(** C9. For every sentence and every position greater than or equal to the
    length of the sentence, the candidate query returns the empty ranked
    list: [GetCandidatesScoredRaw] and the entry points built on it in
    [NJamSpell], and [Correct] in [NOpenSpell]; none of them fails. *)
Theorem query_out_of_range `{BloomBackend} `{StdSort} `{UnorderedSet}
    (sc : NJamSpell.TSpellCorrector) (lm : TLangModel.t)
    (sentence : TWords) (position : nat) :
  (length sentence ≤ position)%nat →
  NJamSpell.GetCandidatesScoredRaw sc sentence position = Some []
  ∧ NJamSpell.GetCandidatesScored sc sentence position = Some []
  ∧ NJamSpell.GetCandidatesRaw sc sentence position = Some []
  ∧ NJamSpell.GetCandidates sc sentence position = Some []
  ∧ NOpenSpell.Correct lm sentence position = Some [].
Proof.
  intros Hpos.
  assert (Hraw : NJamSpell.GetCandidatesScoredRaw sc sentence position = Some []).
  { unfold NJamSpell.GetCandidatesScoredRaw. by rewrite bool_decide_eq_true_2. }
  repeat split; try done.
  - unfold NJamSpell.GetCandidatesRaw. by rewrite Hraw.
  - unfold NJamSpell.GetCandidates, NJamSpell.GetCandidatesRaw. by rewrite Hraw.
  - unfold NOpenSpell.Correct. by rewrite bool_decide_eq_true_2.
Qed.

(** Scenario 6 of the specification: the sentence ["the"], position 5. *)
Lemma query_out_of_range_witness :
  let sc := Fixture.preparedOf [("the", 9)] "the" 14 in
  NJamSpell.GetCandidatesScoredRaw (H := Fixture.backend) (H0 := StableStdSort)
      (H1 := RecentFirstSet)
    sc [Fixture.ws "the"] 5 = Some []
  ∧ NJamSpell.GetCandidatesScored (H := Fixture.backend) (H0 := StableStdSort)
      (H1 := RecentFirstSet)
      sc [Fixture.ws "the"] 5 = Some []
  ∧ NJamSpell.GetCandidatesRaw (H := Fixture.backend) (H0 := StableStdSort) (H1 := RecentFirstSet)
      sc [Fixture.ws "the"] 5 = Some []
  ∧ NJamSpell.GetCandidates (H := Fixture.backend) (H0 := StableStdSort) (H1 := RecentFirstSet)
      sc [Fixture.ws "the"] 5 = Some []
  ∧ NOpenSpell.Correct (H := StableStdSort) (H0 := RecentFirstSet) (NJamSpell.LangModel sc)
      [Fixture.ws "the"] 5 = Some [].
Proof.
  intros sc.
  apply (query_out_of_range (H := Fixture.backend) (H0 := StableStdSort) (H1 := RecentFirstSet)
           sc (NJamSpell.LangModel sc) [Fixture.ws "the"] 5).
  simpl. lia.
Defined.

(** ** Loading the cache *)

Section LoadCacheFacts.
Context `{BloomBackend}.
Import NJamSpell.

Lemma LoadCache_unfold fs sc cacheFile :
  LoadCache fs sc cacheFile =
    match fs !! cacheFile with
    | None => (false, sc)
    | Some content =>
        let c := readCacheFields content in
        if cacheChecks sc c
        then (true, withDeletes sc (Some (loadedDeletes1 c)) (Some (loadedDeletes2 c)))
        else (false, sc)
    end.
Proof.
  unfold LoadCache, readCacheFields, cacheChecks.
  destruct (fs !! cacheFile) as [content|]; [|done].
  destruct (Load 8 0 _) as [magic1 in1].
  destruct (Load 2 0 in1) as [version in2].
  destruct (Load 8 0 in2) as [checkSum in3].
  destruct (BloomLoad in3) as [deletes1 in4].
  destruct (BloomLoad in4) as [deletes2 in5].
  destruct (Load 8 0 in5) as [magic2 in6]. simpl.
  repeat case_bool_decide; simpl; congruence.
Qed.

End LoadCacheFacts.

(** C4. Loading the cache is all or nothing. When the file cannot be
    opened, or the leading magic number, the version, the model checksum or
    the trailing magic number fails its check, [LoadCache] returns false and
    the engine, [Deletes1] and [Deletes2] included, is the one it was given.
    When every check passes it returns true and both filters are replaced
    by the two filters read from the file; nothing else changes. *)
Theorem LoadCache_atomic `{BloomBackend} (fs : FileSystem)
    (sc : NJamSpell.TSpellCorrector) (cacheFile : string) :
  let r := NJamSpell.LoadCache fs sc cacheFile in
  match fs !! cacheFile with
  | None => r = (false, sc)
  | Some content =>
      let c := readCacheFields content in
      (leadingMagic c ≠ NJamSpell.SPELL_CHECKER_CACHE_MAGIC_BYTE
       ∨ cacheVersion c ≠ NJamSpell.SPELL_CHECKER_CACHE_VERSION
       ∨ modelCheckSum c ≠ TLangModel.GetCheckSum (NJamSpell.LangModel sc)
       ∨ trailingMagic c ≠ NJamSpell.SPELL_CHECKER_CACHE_MAGIC_BYTE
       → r = (false, sc))
      ∧ (leadingMagic c = NJamSpell.SPELL_CHECKER_CACHE_MAGIC_BYTE
         ∧ cacheVersion c = NJamSpell.SPELL_CHECKER_CACHE_VERSION
         ∧ modelCheckSum c = TLangModel.GetCheckSum (NJamSpell.LangModel sc)
         ∧ trailingMagic c = NJamSpell.SPELL_CHECKER_CACHE_MAGIC_BYTE
         → r = (true, NJamSpell.withDeletes sc (Some (loadedDeletes1 c))
                        (Some (loadedDeletes2 c))))
  end
  ∧ (r.1 = false → r.2 = sc)
  ∧ (r.1 = true →
       NJamSpell.Deletes1 r.2 ≠ None ∧ NJamSpell.Deletes2 r.2 ≠ None
       ∧ r.2 = NJamSpell.withDeletes sc (NJamSpell.Deletes1 r.2) (NJamSpell.Deletes2 r.2)).
Proof.
  intros r. subst r. rewrite LoadCache_unfold.
  destruct (fs !! cacheFile) as [content|]; simpl; [|by repeat split].
  unfold cacheChecks. repeat split.
  - intros [?|[?|[?|?]]]; repeat case_bool_decide; simpl; done.
  - intros (-> & -> & -> & ->). by rewrite !bool_decide_eq_true_2.
  - repeat case_bool_decide; simpl; done.
  - repeat case_bool_decide; simpl in *; done.
  - repeat case_bool_decide; simpl in *; done.
  - repeat case_bool_decide; simpl in *; done.
Qed.

(** ** The local window *)

Section WindowFacts.
Import NJamSpell.

Lemma bind_all_nil {A B} (f : A → list B) (l : list A) :
  (∀ x, x ∈ l → f x = []) → l ≫= f = [].
Proof.
  induction l as [|x l IH]; intros Hf; [done|].
  rewrite bind_cons, Hf, IH; [done| |]; [intros; apply Hf|]; set_solver.
Qed.

Lemma seq_split (a n k : nat) : (k ≤ n)%nat → seq a n = seq a k ++ seq (a + k) (n - k).
Proof. intros Hk. rewrite <- seq_app. f_equal. lia. Qed.

Lemma windowStep_far sentence p c i :
  (i + 2 < p ∨ p + 2 < i)%nat → windowStep sentence p c i = [].
Proof.
  intros Hi. unfold windowStep.
  rewrite bool_decide_eq_false_2 by lia. by rewrite bool_decide_eq_false_2 by lia.
Qed.

Lemma windowStep_near sentence p c i :
  (i ≠ p)%nat → (p ≤ i + 2 ∧ i ≤ p + 2)%nat →
  windowStep sentence p c i = option_list (sentence !! i).
Proof.
  intros Hne Hi. unfold windowStep.
  rewrite bool_decide_eq_false_2 by lia. by rewrite bool_decide_eq_true_2 by lia.
Qed.

Lemma windowStep_at sentence p c : windowStep sentence p c p = [c].
Proof. unfold windowStep. by rewrite bool_decide_eq_true_2. Qed.

Lemma window_before sentence p c :
  seq 0 p ≫= windowStep sentence p c =
    (if bool_decide (2 ≤ p)%nat then option_list (sentence !! (p - 2)%nat) else [])
    ++ (if bool_decide (1 ≤ p)%nat then option_list (sentence !! (p - 1)%nat) else []).
Proof.
  destruct p as [|[|p]].
  - done.
  - change (seq 0 1) with [0%nat].
    rewrite bind_singleton, windowStep_near by lia. done.
  - rewrite (seq_split 0 (S (S p)) p) by lia.
    replace (S (S p) - p)%nat with 2%nat by lia.
    rewrite bind_app.
    rewrite bind_all_nil.
    2:{ intros i Hi%elem_of_seq. apply windowStep_far. lia. }
    change (seq (0 + p) 2) with [p; S p].
    rewrite bind_cons, bind_singleton, !windowStep_near by lia.
    rewrite !bool_decide_eq_true_2 by lia.
    replace (S (S p) - 2)%nat with p by lia.
    by replace (S (S p) - 1)%nat with (S p) by lia.
Qed.

Lemma window_after sentence p c n :
  (length sentence = p + 1 + n)%nat →
  seq (p + 1) n ≫= windowStep sentence p c =
    option_list (sentence !! (p + 1)%nat) ++ option_list (sentence !! (p + 2)%nat).
Proof.
  intros Hlen.
  assert (Hout : ∀ i, (length sentence ≤ i)%nat → option_list (sentence !! i) = []).
  { intros i Hi. by rewrite lookup_ge_None_2. }
  destruct n as [|[|n]].
  - rewrite !Hout by lia. done.
  - change (seq (p + 1) 1) with [(p + 1)%nat].
    rewrite bind_singleton, windowStep_near by lia.
    rewrite (Hout (p + 2)%nat) by lia. by rewrite app_nil_r.
  - change (seq (p + 1) (S (S n))) with ((p + 1)%nat :: S (p + 1) :: seq (S (S (p + 1))) n).
    rewrite !bind_cons, !windowStep_near by lia.
    rewrite bind_all_nil.
    2:{ intros i Hi%elem_of_seq. apply windowStep_far. lia. }
    replace (S (p + 1)) with (p + 2)%nat by lia. by rewrite app_nil_r.
Qed.

Lemma candSentence_window sentence p c :
  (p < length sentence)%nat → candSentence sentence p c = localWindow sentence p c.
Proof.
  intros Hp. unfold localWindow.
  change (candSentence sentence p c)
    with (seq 0 (length sentence) ≫= windowStep sentence p c).
  rewrite (seq_split 0 (length sentence) p) by lia.
  rewrite bind_app, window_before.
  replace (length sentence - p)%nat with (S (length sentence - p - 1)) by lia.
  cbn [seq Nat.add].
  rewrite bind_cons, windowStep_at.
  replace (S p) with (p + 1)%nat by lia.
  rewrite (window_after sentence p c) by lia.
  by rewrite <- !app_assoc.
Qed.

End WindowFacts.


(** ** The candidate query, stage by stage *)

Section QueryFacts.
Import NJamSpell.
Context `{BloomBackend} `{StdSort} `{UnorderedSet}.
Variable sc : TSpellCorrector.

Lemma rankable_strict_weak l : rankable l → strict_weak_on byScore l.
Proof.
  intros Hl. unfold byScore. repeat split.
  - intros a _. apply ltb_irrefl.
  - intros a b c _ _ _ Hab Hbc. by apply (ltb_trans _ (Score b)).
  - intros a b c _ Hb _ Hac.
    destruct (ltb_negtrans (Score c) (Score b) (Score a)) as [?|?]; auto.
    by apply (proj1 (Forall_forall _ _) Hl).
Qed.

Lemma addQueryWord_eq w candidates :
  addQueryWord sc w candidates =
    (identityToken sc w, candidates ++ [identityToken sc w], isKnown sc w).
Proof.
  unfold addQueryWord, identityToken, isKnown. by destruct (IsWord _).
Qed.

Lemma generateCandidates_first w :
  Edits2 sc w true ≠ [] → generateCandidates sc w = Some (Edits2 sc w true, true).
Proof. intros Hne. unfold generateCandidates. by rewrite bool_decide_eq_false_2. Qed.

Lemma generateCandidates_fallback w :
  Edits2 sc w true = [] →
  generateCandidates sc w =
    match Edits sc w with Some candidates => Some (candidates, false) | None => None end.
Proof.
  intros Hnil. unfold generateCandidates. rewrite bool_decide_eq_true_2 by done.
  by destruct (Edits sc w).
Qed.

Lemma generateCandidates_level w candidates firstLevel :
  generateCandidates sc w = Some (candidates, firstLevel) → firstLevel = fromFirstLevel sc w.
Proof.
  unfold generateCandidates, fromFirstLevel. case_bool_decide as Hc.
  - destruct (Edits sc w); simpl; [|done]. intros [= _ <-].
    by rewrite bool_decide_eq_false_2 by (by intros ?).
  - intros [= _ <-]. by rewrite bool_decide_eq_true_2.
Qed.

(** *** The container *)

Lemma uset_range_perm (l : TWords) :
  uset_items (uset_range l) ≡ₚ elements (list_to_set l : gset TWord).
Proof.
  apply NoDup_Permutation; [apply uset_items_NoDup|apply NoDup_elements|].
  intros c. by rewrite uset_range_spec, elem_of_elements, elem_of_list_to_set.
Qed.

Lemma uset_size_range (l : TWords) :
  uset_size (uset_range l) = size (list_to_set l : gset TWord).
Proof. unfold uset_size. by rewrite uset_range_perm. Qed.

Lemma elem_of_foldl_insert (l : list (TCount * TWord)) : ∀ (s : uset) c,
  c ∈ uset_items (foldl (λ s cc, uset_insert cc.2 s) s l)
  ↔ c ∈ snd <$> l ∨ c ∈ uset_items s.
Proof.
  induction l as [|e l IH]; intros s c; simpl.
  - split; [by right|]. by intros [?%elem_of_nil|?].
  - rewrite IH, uset_insert_spec, elem_of_cons. tauto.
Qed.

(** *** The frequency pruner *)

Lemma FilterCandidatesByFrequency_small X orig :
  (uset_size X ≤ MaxCandiatesToCheck sc)%nat → FilterCandidatesByFrequency sc X orig = X.
Proof. intros HX. unfold FilterCandidatesByFrequency. by rewrite bool_decide_eq_true_2. Qed.

Lemma FilterCandidatesByFrequency_large X orig c :
  (MaxCandiatesToCheck sc < uset_size X)%nat →
  c ∈ uset_items (FilterCandidatesByFrequency sc X orig)
  ↔ c ∈ snd <$> take (MaxCandiatesToCheck sc) (rankedByCount sc X) ∨ c = orig.
Proof.
  intros HX. unfold FilterCandidatesByFrequency.
  rewrite bool_decide_eq_false_2 by lia.
  rewrite uset_insert_spec, elem_of_foldl_insert, uset_clear_spec.
  fold (countOfWord sc). fold (rankedByCount sc X).
  split; [intros [?|[?|?%elem_of_nil]]|intros [?|?]]; tauto.
Qed.

Lemma rankedByCount_perm X : rankedByCount sc X ≡ₚ countOfWord sc <$> uset_items X.
Proof. apply stable_sort_perm. Qed.

Lemma rankedByCount_words X c : c ∈ snd <$> rankedByCount sc X ↔ c ∈ uset_items X.
Proof.
  rewrite rankedByCount_perm, <- list_fmap_compose.
  rewrite (list_fmap_ext (snd ∘ countOfWord sc) id (uset_items X)) by done.
  by rewrite list_fmap_id.
Qed.

Lemma FilterCandidatesByFrequency_sub X orig c :
  c ∈ uset_items (FilterCandidatesByFrequency sc X orig) → c ∈ uset_items X ∨ c = orig.
Proof.
  destruct (decide (uset_size X ≤ MaxCandiatesToCheck sc)%nat) as [HX|HX].
  - rewrite FilterCandidatesByFrequency_small by done. by left.
  - rewrite FilterCandidatesByFrequency_large by lia.
    intros [Hc | ->]; [left|by right].
    apply rankedByCount_words. revert Hc. rewrite fmap_take.
    apply subseteq_take.
Qed.

Lemma FilterCandidatesByFrequency_orig X orig :
  orig ∈ uset_items X ∨ (MaxCandiatesToCheck sc < uset_size X)%nat →
  orig ∈ uset_items (FilterCandidatesByFrequency sc X orig).
Proof.
  destruct (decide (uset_size X ≤ MaxCandiatesToCheck sc)%nat) as [HX|HX].
  - rewrite FilterCandidatesByFrequency_small by done. intros [?|?]; [done|lia].
  - intros _. rewrite FilterCandidatesByFrequency_large by lia. by right.
Qed.

(** *** Scoring and ranking *)

Lemma scoredCandidates_eq sentence p w candidates firstLevel :
  scoredCandidates sc sentence p w candidates firstLevel =
    scoreCandidate sc sentence p (identityToken sc w) (isKnown sc w) firstLevel
      <$> prunedItems sc w candidates.
Proof. unfold scoredCandidates. by rewrite addQueryWord_eq. Qed.

Lemma elem_of_prunedItems w candidates c :
  c ∈ prunedItems sc w candidates ↔ c ∈ prunedSet sc w candidates.
Proof. unfold prunedSet. by rewrite elem_of_list_to_set. Qed.

Lemma NoDup_prunedItems w candidates : NoDup (prunedItems sc w candidates).
Proof. apply uset_items_NoDup. Qed.

Lemma identityToken_pruned w candidates : identityToken sc w ∈ prunedSet sc w candidates.
Proof.
  apply elem_of_prunedItems, FilterCandidatesByFrequency_orig. left.
  apply uset_range_spec, elem_of_app. right. by apply list_elem_of_singleton.
Qed.

Lemma prunedSet_sub w candidates c :
  c ∈ prunedSet sc w candidates → c ∈ candidates ∨ c = identityToken sc w.
Proof.
  intros [Hc|Hc]%elem_of_prunedItems%FilterCandidatesByFrequency_sub; [|by right].
  apply uset_range_spec, elem_of_app in Hc as [Hc|Hc]; [by left|right].
  by apply list_elem_of_singleton in Hc.
Qed.

Lemma GetCandidatesScoredRaw_eq sentence p r :
  GetCandidatesScoredRaw sc sentence p = Some r →
  (r = [] ∧ beforeSort sc sentence p = [])
  ∨ ((p < length sentence)%nat
     ∧ ∃ candidates firstLevel,
         generateCandidates sc (queryWord sentence p) = Some (candidates, firstLevel)
         ∧ candidates ≠ []
         ∧ beforeSort sc sentence p =
             scoredCandidates sc sentence p (queryWord sentence p) candidates firstLevel
         ∧ r = std_sort byScore (beforeSort sc sentence p)).
Proof.
  unfold GetCandidatesScoredRaw, beforeSort. fold (queryWord sentence p).
  case_bool_decide as Hp.
  - intros [= <-]. left. split; [done|].
    by destruct (generateCandidates sc _) as [[??]|].
  - destruct (generateCandidates sc _) as [[candidates firstLevel]|]; simpl; [|done].
    destruct (decide (candidates = [])) as [Hc|Hc].
    + rewrite !(bool_decide_eq_true_2 _ Hc). intros [= <-]. by left.
    + rewrite !(bool_decide_eq_false_2 _ Hc). intros [= <-]. right.
      split; [lia|]. by exists candidates, firstLevel.
Qed.

Lemma GetCandidatesScoredRaw_perm sentence p r :
  GetCandidatesScoredRaw sc sentence p = Some r →
  rankable (beforeSort sc sentence p) → r ≡ₚ beforeSort sc sentence p.
Proof.
  intros [[-> ->]|(_ & _ & _ & _ & _ & _ & ->)]%GetCandidatesScoredRaw_eq Hr; [done|].
  by apply std_sort_perm, rankable_strict_weak.
Qed.

Lemma GetCandidatesScoredRaw_sorted sentence p r :
  GetCandidatesScoredRaw sc sentence p = Some r →
  rankable (beforeSort sc sentence p) → sorted_by byScore r.
Proof.
  intros [[-> ->]|(_ & _ & _ & _ & _ & _ & ->)]%GetCandidatesScoredRaw_eq Hr.
  - apply sorted_by_nil.
  - by apply std_sort_sorted, rankable_strict_weak.
Qed.

(** What is known of a scored candidate of the result. *)
Lemma GetCandidatesScoredRaw_elem sentence p r sw :
  GetCandidatesScoredRaw sc sentence p = Some r →
  rankable (beforeSort sc sentence p) → sw ∈ r →
  (p < length sentence)%nat
  ∧ ∃ candidates,
      generateCandidates sc (queryWord sentence p)
        = Some (candidates, fromFirstLevel sc (queryWord sentence p))
      ∧ candidates ≠ []
      ∧ Word sw ∈ prunedSet sc (queryWord sentence p) candidates
      ∧ sw = scoreCandidate sc sentence p (identityToken sc (queryWord sentence p))
               (isKnown sc (queryWord sentence p)) (fromFirstLevel sc (queryWord sentence p))
               (Word sw).
Proof.
  intros Hr Hrank Hsw.
  rewrite (GetCandidatesScoredRaw_perm _ _ _ Hr Hrank) in Hsw.
  apply GetCandidatesScoredRaw_eq in Hr
    as [[_ Hnil]|(Hp & candidates & firstLevel & Hgen & Hne & Hbefore & _)].
  { rewrite Hnil in Hsw. by apply elem_of_nil in Hsw. }
  split; [done|]. exists candidates.
  rewrite Hbefore, scoredCandidates_eq in Hsw.
  apply list_elem_of_fmap in Hsw as (c & -> & Hc%elem_of_prunedItems).
  rewrite <- (generateCandidates_level _ _ _ Hgen). by repeat split.
Qed.

End QueryFacts.

(** ** The frequency pruner *)

Lemma byCount_strict_weak (l : list (TCount * TWord)) :
  strict_weak_on NJamSpell.byCount l.
Proof.
  unfold NJamSpell.byCount. repeat split.
  - intros a _. apply bool_decide_eq_false_2. lia.
  - intros a b c _ _ _ Hab%bool_decide_eq_true_1 Hbc%bool_decide_eq_true_1.
    apply bool_decide_eq_true_2. lia.
  - intros a b c _ _ _ Hac%bool_decide_eq_true_1.
    destruct (decide (b.1 < a.1)) as [Hba|Hba].
    + left. by apply bool_decide_eq_true_2.
    + right. apply bool_decide_eq_true_2. lia.
Qed.

Lemma sorted_by_take_drop {A} (comp : A → A → bool) (l : list A) (n : nat) a b :
  sorted_by comp l → a ∈ take n l → b ∈ drop n l → comp b a = false.
Proof.
  intros Hs (i & Hi & Hin)%elem_of_take (j & Hj)%list_elem_of_lookup.
  rewrite lookup_drop in Hj. apply (Hs i (n + j)%nat a b); [lia|done..].
Qed.

(** C3. For every candidate set, query token and cap [K]: a set of at most
    [K] tokens is returned unchanged. A larger set is replaced by the first
    [K] tokens of its stable sort by descending [GetWordCount] (a
    rearrangement of the tokens, as the iteration of the set lists them, in
    which counts never increase and tokens of equal count keep the order of
    that iteration, so the [K] kept tokens are distinct and no dropped token
    has a larger count than a kept one), with the query token added. The
    query token is in the pruned set of every set that holds it, and the
    candidate query (lines 86-98) passes the candidates with the query
    token appended, so there it is always present. *)
Theorem frequency_pruner `{UnorderedSet} (sc : NJamSpell.TSpellCorrector)
    (uniqueCandidates : uset) (origWord : TWord) :
  let K := NJamSpell.MaxCandiatesToCheck sc in
  let pruned := NJamSpell.FilterCandidatesByFrequency sc uniqueCandidates origWord in
  let counted := countOfWord sc <$> uset_items uniqueCandidates in
  let ranked := rankedByCount sc uniqueCandidates in
  ((uset_size uniqueCandidates ≤ K)%nat → pruned = uniqueCandidates)
  ∧ ((K < uset_size uniqueCandidates)%nat →
       (∀ c, c ∈ uset_items pruned ↔ c ∈ snd <$> take K ranked ∨ c = origWord)
       ∧ ranked ≡ₚ counted
       ∧ (∀ i j a b, (i < j)%nat → ranked !! i = Some a → ranked !! j = Some b → b.1 ≤ a.1)
       ∧ (∀ n : TCount, filter (λ e, e.1 = n) ranked = filter (λ e, e.1 = n) counted)
       ∧ length (take K ranked) = K
       ∧ NoDup (snd <$> take K ranked)
       ∧ (∀ kept dropped, kept ∈ take K ranked → dropped ∈ drop K ranked →
            dropped.1 ≤ kept.1)
       ∧ origWord ∈ uset_items pruned)
  ∧ (origWord ∈ uset_items uniqueCandidates → origWord ∈ uset_items pruned)
  ∧ (∀ candidates : TWords,
       origWord ∈ uset_items
         (NJamSpell.FilterCandidatesByFrequency sc
            (uset_range (candidates ++ [origWord])) origWord)).
Proof.
  intros K pruned counted ranked.
  assert (Hsorted : sorted_by NJamSpell.byCount ranked).
  { apply stable_sort_sorted, byCount_strict_weak. }
  split; [apply FilterCandidatesByFrequency_small|].
  split; [|split; [intros ?; apply FilterCandidatesByFrequency_orig; by left|]].
  2:{ intros candidates. apply FilterCandidatesByFrequency_orig. left.
      apply uset_range_spec, elem_of_app. right. apply list_elem_of_here. }
  intros HK. repeat split.
  - by apply FilterCandidatesByFrequency_large.
  - by apply FilterCandidatesByFrequency_large.
  - apply rankedByCount_perm.
  - intros i j a b Hij Hi Hj.
    pose proof (Hsorted i j a b Hij Hi Hj) as Hc.
    unfold NJamSpell.byCount in Hc. apply bool_decide_eq_false_1 in Hc. lia.
  - intros n. apply stable_sort_filter.
    intros x y _ _ Hx Hy. apply bool_decide_eq_false_2. lia.
  - rewrite length_take. unfold ranked.
    rewrite (Permutation_length (rankedByCount_perm sc uniqueCandidates)).
    rewrite length_fmap. unfold K, uset_size in *. lia.
  - rewrite fmap_take. apply (sublist_NoDup _ (snd <$> ranked)); [|apply sublist_take].
    unfold ranked. rewrite rankedByCount_perm, <- list_fmap_compose.
    rewrite (list_fmap_ext (snd ∘ countOfWord sc) id (uset_items uniqueCandidates)) by done.
    rewrite list_fmap_id. apply uset_items_NoDup.
  - intros kept dropped Hk Hd.
    pose proof (sorted_by_take_drop _ _ _ _ _ Hsorted Hk Hd) as Hc.
    unfold NJamSpell.byCount in Hc. apply bool_decide_eq_false_1 in Hc. lia.
  - apply FilterCandidatesByFrequency_orig. by right.
Qed.

(** A set over the cap: four tokens with the query token, the two of
    largest count kept, the query token added. *)
Example frequency_pruner_over_cap :
  let sc := Fixture.engineOf [("a", 3); ("b", 1); ("c", 7); ("d", 0)] "abcd" 2 in
  list_to_set (C := gset TWord)
    (uset_items
       (NJamSpell.FilterCandidatesByFrequency (H1 := RecentFirstSet) sc
          (uset_range [Fixture.ws "a"; Fixture.ws "b"; Fixture.ws "c"; Fixture.ws "d"])
          (Fixture.ws "d")))
  = list_to_set [Fixture.ws "c"; Fixture.ws "a"; Fixture.ws "d"].
Proof. vm_compute. reflexivity. Qed.

(** ** The two enumerations *)

Section EnumerationFacts.
Import NJamSpell.
Variable sc : TSpellCorrector.

Lemma elem_of_Lookup c s :
  c ∈ Lookup sc s ↔ c = TLangModel.GetWord (LangModel sc) s ∧ IsWord c = true.
Proof.
  unfold Lookup. destruct (IsWord (TLangModel.GetWord _ s)) eqn:Hw.
  - rewrite list_elem_of_singleton. split; [by intros ->|by intros [-> _]].
  - rewrite elem_of_nil. split; [done|]. intros [-> Hc]. congruence.
Qed.

(** With [lastLevel = true], [Edits2] is the one-level enumeration: the
    vocabulary tokens of the strings one edit away from the word. *)
Lemma elem_of_Edits2 w c :
  c ∈ Edits2 sc w true ↔
    ∃ s, oneEdit sc w s ∧ c = TLangModel.GetWord (LangModel sc) s ∧ IsWord c = true.
Proof.
  unfold Edits2, Edits2Level, Edits2At, oneEdit.
  rewrite list_elem_of_bind. setoid_rewrite elem_of_seq.
  setoid_rewrite elem_of_app. setoid_rewrite elem_of_app. setoid_rewrite elem_of_app.
  split.
  - intros (i & [Hc|[Hc|[Hc|Hc]]] & Hi).
    + case_bool_decide; [|by apply elem_of_nil in Hc].
      rewrite app_nil_r in Hc. apply elem_of_Lookup in Hc. eauto 10.
    + case_bool_decide; [|by apply elem_of_nil in Hc].
      rewrite app_nil_r in Hc. apply elem_of_Lookup in Hc.
      eexists. split; [right; left; eauto|done].
    + case_bool_decide; [|by apply elem_of_nil in Hc].
      apply list_elem_of_bind in Hc as (ch & Hc & Hch).
      rewrite app_nil_r in Hc. apply elem_of_Lookup in Hc.
      eexists. split; [right; right; left; eauto 10|done].
    + apply list_elem_of_bind in Hc as (ch & Hc & Hch).
      rewrite app_nil_r in Hc. apply elem_of_Lookup in Hc.
      eexists. split; [right; right; right; exists i, ch; split; [lia|done]|done].
  - intros (s & [(i & Hi & ->)|[(i & Hi & ->)|[(i & ch & Hi & Hch & ->)
                |(i & ch & Hi & Hch & ->)]]] & Hc).
    + exists i. split; [|lia]. left.
      rewrite bool_decide_eq_true_2, app_nil_r by done. by apply elem_of_Lookup.
    + exists i. split; [|lia]. right. left.
      rewrite bool_decide_eq_true_2, app_nil_r by done. by apply elem_of_Lookup.
    + exists i. split; [|lia]. right. right. left.
      rewrite bool_decide_eq_true_2 by done. apply list_elem_of_bind.
      exists ch. split; [|done]. rewrite app_nil_r. by apply elem_of_Lookup.
    + exists i. split; [|lia]. right. right. right. apply list_elem_of_bind.
      exists ch. split; [|done]. rewrite app_nil_r. by apply elem_of_Lookup.
Qed.

End EnumerationFacts.

(** ** The order of the two enumerations *)

Lemma query_ignores_filters `{BloomBackend} `{StdSort} `{UnorderedSet}
    (sc : NJamSpell.TSpellCorrector)
    (d1 d2 : option TBloomFilter) (sentence : TWords) (p : nat) :
  NJamSpell.Edits2 sc (queryWord sentence p) true ≠ [] →
  NJamSpell.GetCandidatesScoredRaw (NJamSpell.withDeletes sc d1 d2) sentence p
    = NJamSpell.GetCandidatesScoredRaw sc sentence p.
Proof.
  intros Hne. unfold NJamSpell.GetCandidatesScoredRaw.
  case_bool_decide; [done|]. fold (queryWord sentence p).
  rewrite (generateCandidates_first sc _ Hne).
  rewrite (generateCandidates_first (NJamSpell.withDeletes sc d1 d2) _ Hne).
  done.
Qed.

(** C1 (as amended). For every sentence and in-range position, candidate
    generation first runs the one-level edit enumeration [Edits2] (delete,
    transpose, replace, insert, each result looked up in the vocabulary).
    When it returns candidates they are the candidates, marked first level,
    and the bloom filters are not consulted: the query gives the same answer
    whatever [Deletes1] and [Deletes2] hold. Only when it returns none does
    the bloom-filter-accelerated symmetric-delete enumeration [Edits] run,
    as the fallback. Every token of the ranked list is the query word's
    identity token or a candidate of the enumeration that was used. *)
Theorem generation_order `{BloomBackend} `{StdSort} `{UnorderedSet} (sc : NJamSpell.TSpellCorrector)
    (sentence : TWords) (p : nat) :
  (p < length sentence)%nat →
  let w := queryWord sentence p in
  (∀ c, c ∈ NJamSpell.Edits2 sc w true ↔
        ∃ s, oneEdit sc w s ∧ c = TLangModel.GetWord (NJamSpell.LangModel sc) s
             ∧ IsWord c = true)
  ∧ (NJamSpell.Edits2 sc w true ≠ [] →
       NJamSpell.generateCandidates sc w = Some (NJamSpell.Edits2 sc w true, true)
       ∧ ∀ d1 d2,
           NJamSpell.GetCandidatesScoredRaw (NJamSpell.withDeletes sc d1 d2) sentence p
             = NJamSpell.GetCandidatesScoredRaw sc sentence p)
  ∧ (NJamSpell.Edits2 sc w true = [] →
       NJamSpell.generateCandidates sc w =
         match NJamSpell.Edits sc w with
         | Some candidates => Some (candidates, false)
         | None => None
         end)
  ∧ (∀ r c,
       NJamSpell.GetCandidatesScoredRaw sc sentence p = Some r →
       rankable (beforeSort sc sentence p) →
       c ∈ NJamSpell.Word <$> r →
       c = identityToken sc w
       ∨ (if fromFirstLevel sc w then c ∈ NJamSpell.Edits2 sc w true
          else ∃ candidates, NJamSpell.Edits sc w = Some candidates ∧ c ∈ candidates)).
Proof.
  intros Hp w. split; [apply elem_of_Edits2|].
  split; [|split].
  - intros Hne. split; [by apply generateCandidates_first|].
    intros d1 d2. by apply query_ignores_filters.
  - apply generateCandidates_fallback.
  - intros r c Hr Hrank (sw & -> & Hsw)%list_elem_of_fmap.
    destruct (GetCandidatesScoredRaw_elem sc sentence p r sw Hr Hrank Hsw)
      as (_ & candidates & Hgen & _ & Hc & _).
    fold w in Hgen, Hc.
    apply prunedSet_sub in Hc as [Hc|Hc]; [right|by left].
    unfold fromFirstLevel in *. case_bool_decide as Hfirst.
    + rewrite (generateCandidates_first sc w Hfirst) in Hgen. by injection Hgen as <-.
    + assert (Hnil : NJamSpell.Edits2 sc w true = []).
      { by destruct (NJamSpell.Edits2 sc w true); [|destruct Hfirst]. }
      rewrite (generateCandidates_fallback sc w Hnil) in Hgen.
      destruct (NJamSpell.Edits sc w) as [fallback|]; [|done].
      injection Hgen as <-. by exists fallback.
Qed.

Lemma generation_order_witness :
  let sentence := [Fixture.ws "abc"; Fixture.ws "ab"] in
  (0 < length sentence)%nat
  ∧ NJamSpell.generateCandidates (H := Fixture.backend) engineAbcd (Fixture.ws "abc")
      = Some (NJamSpell.Edits2 engineAbcd (Fixture.ws "abc") true, true).
Proof.
  intros sentence.
  assert (Hp : (0 < length sentence)%nat) by (simpl; lia).
  split; [exact Hp|].
  refine (proj1 (proj1 (proj2 (generation_order (H := Fixture.backend)
            (H0 := StableStdSort) (H1 := RecentFirstSet) engineAbcd sentence 0 Hp)) _)).
  vm_compute. discriminate.
Defined.

(** The claim as stated fails: for the known word [ab] the one-level
    enumeration finds [ab] itself, so the symmetric-delete enumeration,
    which would also reach [abcd] two insertions away, is never run, and
    [abcd] is not a candidate. *)
Lemma generation_order_not_symmetric_delete_first :
  let w := Fixture.ws "ab" in
  NJamSpell.generateCandidates (H := Fixture.backend) engineAbcd w
    = Some ([w; w], true)
  ∧ claimedGenerate (H := Fixture.backend) engineAbcd w
    = Some ([w; w; w; Fixture.ws "abcd"; Fixture.ws "abcd"], true)
  ∧ NJamSpell.generateCandidates (H := Fixture.backend) engineAbcd w
    ≠ claimedGenerate (H := Fixture.backend) engineAbcd w
  ∧ NJamSpell.GetCandidates (H := Fixture.backend) (H0 := StableStdSort) (H1 := RecentFirstSet)
      engineAbcd [w] 0 = Some [w].
Proof.
  intros w. repeat split; try (vm_compute; reflexivity).
  vm_compute. discriminate.
Qed.

(** The fallback at work: over the alphabet [c, d] no single edit of [ab]
    is a word, and the symmetric-delete enumeration supplies [ab] and
    [abcd]. *)
Example generation_order_fallback :
  let w := Fixture.ws "ab" in
  NJamSpell.Edits2 engineCd w true = []
  ∧ NJamSpell.generateCandidates (H := Fixture.backend) engineCd w
    = Some ([w; Fixture.ws "abcd"; Fixture.ws "abcd"], false).
Proof. split; vm_compute; reflexivity. Qed.

(** ** Scores *)

(** C5. For every scored candidate [c] of a correction query, with [s] the
    language model's score of its window: when [c] is the identity
    candidate its score is [s]; otherwise, when the query word is in the
    vocabulary, it is [s - KnownWordsPenalty] if the candidates came from
    the first edit level and [s * 50] if they came from the fallback level;
    otherwise (the query word is unknown) it is [s - UnknownWordsPenalty]. *)
Theorem candidate_score_penalty `{BloomBackend} `{StdSort} `{UnorderedSet}
    (sc : NJamSpell.TSpellCorrector) (sentence : TWords) (p : nat)
    (r : NJamSpell.TScoredWords) (sw : NJamSpell.TScoredWord) :
  NJamSpell.GetCandidatesScoredRaw sc sentence p = Some r →
  rankable (beforeSort sc sentence p) →
  sw ∈ r →
  let w := queryWord sentence p in
  let c := NJamSpell.Word sw in
  let s := TLangModel.Score (NJamSpell.LangModel sc) (NJamSpell.candSentence sentence p c) in
  NJamSpell.Score sw =
    if bool_decide (c = identityToken sc w) then s
    else if isKnown sc w then
           if fromFirstLevel sc w then (s - NJamSpell.KnownWordsPenalty sc)%float
           else (s * 50)%float
         else (s - NJamSpell.UnknownWordsPenalty sc)%float.
Proof.
  intros Hr Hrank Hsw w c s.
  destruct (GetCandidatesScoredRaw_elem sc sentence p r sw Hr Hrank Hsw)
    as (_ & _ & _ & _ & _ & Heq).
  by rewrite Heq at 1.
Qed.

(** The three penalties on one query each: an unknown query word, a known
    one served by the first level, a known one served by the fallback. *)
Example score_unknown_word :
  NJamSpell.GetCandidatesScoredRaw (H := Fixture.backend) (H0 := StableStdSort)
      (H1 := RecentFirstSet)
    engineAbcd [Fixture.ws "abc"; Fixture.ws "ab"] 0
  = Some [ {| NJamSpell.Word := Fixture.ws "abc"; NJamSpell.Score := 5 |};
           {| NJamSpell.Word := Fixture.ws "abcd"; NJamSpell.Score := (12 - 50)%float |};
           {| NJamSpell.Word := Fixture.ws "ab"; NJamSpell.Score := (10 - 50)%float |} ].
Proof. vm_compute. reflexivity. Qed.

Example score_known_word_fallback :
  NJamSpell.GetCandidatesScoredRaw (H := Fixture.backend) (H0 := StableStdSort)
      (H1 := RecentFirstSet)
    engineCd [Fixture.ws "ab"] 0
  = Some [ {| NJamSpell.Word := Fixture.ws "abcd"; NJamSpell.Score := (7 * 50)%float |};
           {| NJamSpell.Word := Fixture.ws "ab"; NJamSpell.Score := 5 |} ].
Proof. vm_compute. reflexivity. Qed.

Lemma candidate_score_penalty_witness :
  let sc := Fixture.preparedOf [("ab", 5); ("abcd", 7); ("abc", 1)] "abcd" 14 in
  let sentence := [Fixture.ws "abc"; Fixture.ws "ab"] in
  let sw := {| NJamSpell.Word := Fixture.ws "abcd"; NJamSpell.Score := (12 - 20)%float |} in
  NJamSpell.Score sw =
    (TLangModel.Score (NJamSpell.LangModel sc)
       (NJamSpell.candSentence sentence 0 (Fixture.ws "abcd"))
     - NJamSpell.KnownWordsPenalty sc)%float.
Proof.
  intros sc sentence sw.
  pose proof (candidate_score_penalty (H := Fixture.backend) (H0 := StableStdSort)
      (H1 := RecentFirstSet)
                sc sentence 0
                [ {| NJamSpell.Word := Fixture.ws "abc"; NJamSpell.Score := 6 |};
                  {| NJamSpell.Word := Fixture.ws "abcd"; NJamSpell.Score := (-8) |};
                  {| NJamSpell.Word := Fixture.ws "ab"; NJamSpell.Score := (-10) |} ] sw)
    as Hscore.
  apply Hscore.
  - vm_compute. reflexivity.
  - vm_compute. repeat constructor.
  - vm_compute. apply list_elem_of_further, list_elem_of_here.
Defined.

(** C6. For every sentence, in-range position [p] and candidate [c], the
    sentence passed to the language model's [Score] is made of the tokens at
    positions [p-2], [p-1], then [c] in place of position [p], then [p+1]
    and [p+2] of the original sentence, in that order, positions outside the
    sentence left out. The score recorded for [c] is computed from the
    language model's score of that window. *)
Theorem scoring_window (sc : NJamSpell.TSpellCorrector) (sentence : TWords)
    (p : nat) (w : TWord) (knownWord firstLevel : bool) (c : TWord) :
  (p < length sentence)%nat →
  NJamSpell.candSentence sentence p c = localWindow sentence p c
  ∧ NJamSpell.scoreCandidate sc sentence p w knownWord firstLevel c =
      let s := TLangModel.Score (NJamSpell.LangModel sc) (localWindow sentence p c) in
      {| NJamSpell.Word := c;
         NJamSpell.Score :=
           if bool_decide (c = w) then s
           else if knownWord then
                  if firstLevel then (s - NJamSpell.KnownWordsPenalty sc)%float
                  else (s * 50)%float
                else (s - NJamSpell.UnknownWordsPenalty sc)%float |}.
Proof.
  intros Hp. split; [by apply candSentence_window|].
  unfold NJamSpell.scoreCandidate. by rewrite candSentence_window.
Qed.

Lemma scoring_window_witness :
  let word := Fixture.ws in
  let sentence := [word "a"; word "b"; word "c"; word "d"; word "e"; word "f"; word "g"] in
  NJamSpell.candSentence sentence 3 (word "x")
    = [word "b"; word "c"; word "x"; word "e"; word "f"]
  ∧ NJamSpell.candSentence sentence 0 (word "x") = [word "x"; word "b"; word "c"]
  ∧ NJamSpell.candSentence sentence 6 (word "x") = [word "e"; word "f"; word "x"].
Proof.
  intros word sentence.
  pose proof (scoring_window engineAbcd sentence 3 (word "d") true true (word "x")) as H3.
  pose proof (scoring_window engineAbcd sentence 0 (word "a") true true (word "x")) as H0.
  pose proof (scoring_window engineAbcd sentence 6 (word "g") true true (word "x")) as H6.
  split; [|split].
  - rewrite (proj1 (H3 ltac:(simpl; lia))). reflexivity.
  - rewrite (proj1 (H0 ltac:(simpl; lia))). reflexivity.
  - rewrite (proj1 (H6 ltac:(simpl; lia))). reflexivity.
Defined.

(** ** The final sort *)

(** C8 (as amended). The scored candidate list returned by a correction
    query is a rearrangement of the scored candidates in descending order
    of score: no candidate has a smaller score than one listed after it.
    The order of candidates of equal score is the one [std::sort] leaves,
    which the standard does not fix. *)
Theorem ranking_sorted `{BloomBackend} `{StdSort} `{UnorderedSet}
    (sc : NJamSpell.TSpellCorrector) (sentence : TWords) (p : nat)
    (r : NJamSpell.TScoredWords) :
  NJamSpell.GetCandidatesScoredRaw sc sentence p = Some r →
  rankable (beforeSort sc sentence p) →
  r ≡ₚ beforeSort sc sentence p
  ∧ ∀ i j a b, (i < j)%nat → r !! i = Some a → r !! j = Some b →
      (NJamSpell.Score a <? NJamSpell.Score b)%float = false.
Proof.
  intros Hr Hrank. split; [by apply GetCandidatesScoredRaw_perm|].
  intros i j a b Hij Hi Hj.
  by apply (GetCandidatesScoredRaw_sorted sc sentence p r Hr Hrank i j a b).
Qed.

Lemma ranking_sorted_witness :
  let sentence := [Fixture.ws "abc"; Fixture.ws "ab"] in
  let r := [ {| NJamSpell.Word := Fixture.ws "abc"; NJamSpell.Score := 5 |};
             {| NJamSpell.Word := Fixture.ws "abcd"; NJamSpell.Score := (-38) |};
             {| NJamSpell.Word := Fixture.ws "ab"; NJamSpell.Score := (-40) |} ] in
  r ≡ₚ beforeSort (H := Fixture.backend) (H0 := RecentFirstSet) engineAbcd sentence 0
  ∧ ∀ i j a b, (i < j)%nat → r !! i = Some a → r !! j = Some b →
      (NJamSpell.Score a <? NJamSpell.Score b)%float = false.
Proof.
  intros sentence r.
  apply (ranking_sorted (H := Fixture.backend) (H0 := StableStdSort) (H1 := RecentFirstSet)
           engineAbcd sentence 0 r).
  - vm_compute. reflexivity.
  - vm_compute. repeat constructor.
Defined.

(** The claim as stated fails on the order of ties. The enumeration lists
    [ab] before [ac], and both score 5 - 50. The candidates reach the sort
    through the unordered set (lines 96-103), which does not keep the order
    of the enumeration: with a container that visits the latest token
    first, and insertion sort, which is stable and meets the contract of
    [std::sort], the query returns [ac] before [ab]. *)
Lemma ranking_not_stable :
  let sentence := [Fixture.ws "aa"] in
  let r := [ {| NJamSpell.Word := Fixture.ws "aa"; NJamSpell.Score := 0 |};
             {| NJamSpell.Word := Fixture.ws "ac"; NJamSpell.Score := (5 - 50) |};
             {| NJamSpell.Word := Fixture.ws "ab"; NJamSpell.Score := (5 - 50) |} ] in
  NJamSpell.Edits2 engineTie (Fixture.ws "aa") true = [Fixture.ws "ab"; Fixture.ws "ac"]
  ∧ NJamSpell.GetCandidatesScored (H := Fixture.backend) (H0 := StableStdSort)
      (H1 := RecentFirstSet) engineTie sentence 0 = Some r
  ∧ ¬ tiesKeepOrder (NJamSpell.Edits2 engineTie (Fixture.ws "aa") true) r.
Proof.
  intros sentence r. split; [vm_compute; reflexivity|].
  split; [vm_compute; reflexivity|].
  intros Hkeep.
  pose proof (Hkeep 1%nat 2%nat _ _ 1%nat 0%nat ltac:(lia) eq_refl eq_refl
                eq_refl eq_refl eq_refl) as Hle.
  lia.
Qed.

(** ** The query word among the candidates *)

(** With both filters in place the query returns a ranked list. *)
Lemma GetCandidatesScoredRaw_total `{BloomBackend} `{StdSort} `{UnorderedSet}
    (sc : NJamSpell.TSpellCorrector) (sentence : TWords) (p : nat) :
  NJamSpell.Deletes1 sc ≠ None → NJamSpell.Deletes2 sc ≠ None →
  ∃ r, NJamSpell.GetCandidatesScoredRaw sc sentence p = Some r.
Proof.
  intros Hd1 Hd2. unfold NJamSpell.GetCandidatesScoredRaw.
  case_bool_decide; [by eexists|].
  unfold NJamSpell.generateCandidates, NJamSpell.Edits.
  destruct (NJamSpell.Deletes1 sc) as [d1|]; [|done].
  destruct (NJamSpell.Deletes2 sc) as [d2|]; [|done]. simpl.
  repeat (case_bool_decide; simpl); by eexists.
Qed.

(** C10. For every sentence and in-range position, whenever the candidate
    query returns a non-empty list, the list contains the query word's own
    token: its canonical vocabulary token when the word is known, the
    original token otherwise. *)
Theorem query_word_survives `{BloomBackend} `{StdSort} `{UnorderedSet}
    (sc : NJamSpell.TSpellCorrector) (sentence : TWords) (p : nat)
    (r : NJamSpell.TScoredWords) :
  (p < length sentence)%nat →
  NJamSpell.GetCandidatesScoredRaw sc sentence p = Some r →
  rankable (beforeSort sc sentence p) →
  r ≠ [] →
  let w := queryWord sentence p in
  sentence !! p = Some w
  ∧ (if IsWord (TLangModel.GetWord (NJamSpell.LangModel sc) w)
     then TLangModel.GetWord (NJamSpell.LangModel sc) w
     else w) ∈ NJamSpell.Word <$> r.
Proof.
  intros Hp Hr Hrank Hne w. split.
  { subst w. unfold queryWord.
    destruct (sentence !! p) as [x|] eqn:Hx; [done|].
    apply lookup_ge_None in Hx. lia. }
  change (identityToken sc w ∈ NJamSpell.Word <$> r).
  rewrite (GetCandidatesScoredRaw_perm sc sentence p r Hr Hrank).
  apply GetCandidatesScoredRaw_eq in Hr
    as [[-> _]|(_ & candidates & firstLevel & _ & _ & -> & _)]; [done|].
  rewrite scoredCandidates_eq, <- list_fmap_compose.
  apply list_elem_of_fmap. exists (identityToken sc w). split; [done|].
  apply elem_of_prunedItems, identityToken_pruned.
Qed.

Lemma query_word_survives_witness :
  Fixture.ws "abc" ∈
    NJamSpell.Word <$>
      [ {| NJamSpell.Word := Fixture.ws "abc"; NJamSpell.Score := 5 |};
        {| NJamSpell.Word := Fixture.ws "abcd"; NJamSpell.Score := (-38) |};
        {| NJamSpell.Word := Fixture.ws "ab"; NJamSpell.Score := (-40) |} ].
Proof.
  refine (proj2 (query_word_survives (H := Fixture.backend) (H0 := StableStdSort)
      (H1 := RecentFirstSet)
                   engineAbcd [Fixture.ws "abc"; Fixture.ws "ab"] 0 _ _ _ _ _)).
  - simpl. lia.
  - vm_compute. reflexivity.
  - vm_compute. repeat constructor.
  - discriminate.
Defined.

(** ** Scenarios of section 8 *)

(** Scenarios 1 to 4: an insertion, a replacement, a transposition and a
    word that is already correct. *)
Example scenarios_ranked_first :
  let word := Fixture.ws in
  let top sentence p :=
    head <$> NJamSpell.GetCandidates (H := Fixture.backend) (H0 := StableStdSort)
        (H1 := RecentFirstSet)
               engineFox sentence p in
  top [word "the"; word "quik"; word "brown"; word "fox"] 1%nat = Some (Some (word "quick"))
  ∧ top [word "the"; word "jumpz"; word "over"] 1%nat = Some (Some (word "jumps"))
  ∧ top [word "teh"; word "quick"] 0%nat = Some (Some (word "the"))
  ∧ top [word "the"; word "quick"; word "brown"] 2%nat = Some (Some (word "brown")).
Proof. intros word top. repeat split; vm_compute; reflexivity. Qed.

(** Scenario 5: nothing is within reach of [xyzzy], the fallback runs and
    the query returns the empty list. *)
Example scenario_no_candidate :
  NJamSpell.Edits2 engineFox (Fixture.ws "xyzzy") true = []
  ∧ NJamSpell.Edits (H := Fixture.backend) engineFox (Fixture.ws "xyzzy") = Some []
  ∧ NJamSpell.GetCandidatesScored (H := Fixture.backend) (H0 := StableStdSort)
      (H1 := RecentFirstSet)
      engineFox [Fixture.ws "xyzzy"] 0 = Some [].
Proof. repeat split; vm_compute; reflexivity. Qed.

(** ** The delete sets *)

Section DeleteSetFacts.
Context `{BloomBackend}.
Import NJamSpell.

Lemma extends_refl f : extends f f.
Proof. by repeat split. Qed.

Lemma extends_trans f g h : extends f g → extends g h → extends f h.
Proof.
  intros (? & ? & ?) (? & ? & ?). repeat split; [congruence..|].
  by transitivity (Bits g).
Qed.

Lemma BloomInsert_extends f key : extends f (BloomInsert f key).
Proof. repeat split. simpl. apply union_subseteq_r. Qed.

Lemma BloomContains_spec f key :
  BloomContains f key = true ↔ ∀ b, b ∈ BloomSlots f key → b ∈ Bits f.
Proof.
  unfold BloomContains. rewrite forallb_forall.
  split; intros Hb b Hin.
  - apply list_elem_of_In in Hin. specialize (Hb b Hin).
    by apply bool_decide_eq_true_1 in Hb.
  - apply list_elem_of_In in Hin. specialize (Hb b Hin).
    by apply bool_decide_eq_true_2.
Qed.

Lemma BloomContains_extends f g key :
  extends f g → BloomContains f key = true → BloomContains g key = true.
Proof.
  intros (Hm & Hk & Hbits). rewrite !BloomContains_spec. intros Hf b Hb.
  apply Hbits, Hf. unfold BloomSlots in *. by rewrite <- Hm, <- Hk.
Qed.

(** No false negative: an inserted key is contained. *)
Lemma BloomContains_insert f key : BloomContains (BloomInsert f key) key = true.
Proof.
  apply BloomContains_spec. intros b Hb. simpl.
  apply elem_of_union_l, elem_of_list_to_set. done.
Qed.

Lemma insertAll_extends d keys : extends d (insertAll d keys).
Proof.
  revert d. induction keys as [|k keys IH]; intros d; simpl; [apply extends_refl|].
  eapply extends_trans; [apply BloomInsert_extends|apply IH].
Qed.

Lemma insertAll_contains d keys w :
  w ∈ keys → BloomContains (insertAll d keys) (WideToUTF8 w) = true.
Proof.
  revert d. induction keys as [|k keys IH]; intros d Hw; [by apply elem_of_nil in Hw|].
  apply elem_of_cons in Hw as [->|Hw]; simpl; [|by apply IH].
  eapply BloomContains_extends; [apply insertAll_extends|apply BloomContains_insert].
Qed.

Lemma insertDeletes_snoc d pre back :
  insertDeletes d (pre ++ [back]) =
    (BloomInsert d.1 (WideToUTF8 back), insertAll d.2 pre).
Proof.
  unfold insertDeletes. rewrite last_snoc, length_app. simpl.
  replace (length pre + 1 - 1)%nat with (length pre) by lia.
  by rewrite take_app_length.
Qed.

Lemma insertDeletes_extends d w1 :
  extends d.1 (insertDeletes d w1).1 ∧ extends d.2 (insertDeletes d w1).2.
Proof.
  unfold insertDeletes. destruct (last w1); simpl.
  - split; [apply BloomInsert_extends|apply insertAll_extends].
  - split; apply extends_refl.
Qed.

Lemma foldl_insertDeletes_extends d ws :
  extends d.1 (foldl insertDeletes d ws).1 ∧ extends d.2 (foldl insertDeletes d ws).2.
Proof.
  revert d. induction ws as [|w1 ws IH]; intros d; simpl.
  - split; apply extends_refl.
  - destruct (insertDeletes_extends d w1), (IH (insertDeletes d w1)).
    split; eapply extends_trans; done.
Qed.

Lemma foldl_insertDeletes_contains d ws pre back :
  pre ++ [back] ∈ ws →
  BloomContains (foldl insertDeletes d ws).1 (WideToUTF8 back) = true
  ∧ ∀ w, w ∈ pre → BloomContains (foldl insertDeletes d ws).2 (WideToUTF8 w) = true.
Proof.
  revert d. induction ws as [|w1 ws IH]; intros d Hin; [by apply elem_of_nil in Hin|].
  apply elem_of_cons in Hin as [<-|Hin]; simpl; [|by apply IH].
  destruct (foldl_insertDeletes_extends (insertDeletes d (pre ++ [back])) ws) as [H1 H2].
  rewrite insertDeletes_snoc in H1, H2 |- *. simpl in H1, H2. split.
  - eapply BloomContains_extends; [exact H1|apply BloomContains_insert].
  - intros w Hw. eapply BloomContains_extends; [exact H2|by apply insertAll_contains].
Qed.

Lemma fillDeletes_extends wordToId d :
  extends d.1 (fillDeletes wordToId d).1 ∧ extends d.2 (fillDeletes wordToId d).2.
Proof.
  revert d. induction wordToId as [|it rest IH]; intros d; simpl.
  - split; apply extends_refl.
  - destruct (foldl_insertDeletes_extends d (GetDeletes2 it.1)),
      (IH (foldl insertDeletes d (GetDeletes2 it.1))).
    split; eapply extends_trans; done.
Qed.

Lemma fillDeletes_contains wordToId d it pre back :
  it ∈ wordToId → pre ++ [back] ∈ GetDeletes2 it.1 →
  BloomContains (fillDeletes wordToId d).1 (WideToUTF8 back) = true
  ∧ ∀ w, w ∈ pre → BloomContains (fillDeletes wordToId d).2 (WideToUTF8 w) = true.
Proof.
  revert d. induction wordToId as [|it' rest IH]; intros d Hit Hin;
    [by apply elem_of_nil in Hit|].
  apply elem_of_cons in Hit as [<-|Hit]; [|by apply IH].
  change (fillDeletes (it :: rest) d)
    with (fillDeletes rest (foldl insertDeletes d (GetDeletes2 it.1))).
  destruct (fillDeletes_extends rest (foldl insertDeletes d (GetDeletes2 it.1))) as [H1 H2].
  destruct (foldl_insertDeletes_contains d _ _ _ Hin) as [Hb Hpre].
  split.
  - by eapply BloomContains_extends.
  - intros w Hw. eapply BloomContains_extends; [done|by apply Hpre].
Qed.

(** Deleting one character shortens the word by one. *)
Lemma length_delete_at i (w : wstring) :
  (i < length w)%nat → length (delete_at i w) = (length w - 1)%nat.
Proof. intros Hi. unfold delete_at. rewrite length_app, length_take, length_drop. lia. Qed.

Lemma elem_of_GetDeletes1 (w : wstring) i :
  (i < length w)%nat → (2 ≤ length w)%nat → delete_at i w ∈ GetDeletes1 w.
Proof.
  intros Hi Hlen. unfold GetDeletes1. apply list_elem_of_bind. exists i.
  split; [|apply elem_of_seq; lia].
  rewrite bool_decide_eq_true_2; [apply list_elem_of_here|].
  intros Hnil. pose proof (length_delete_at i w Hi) as Hl. rewrite Hnil in Hl.
  simpl in Hl. lia.
Qed.

Lemma elem_of_GetDeletes2 (w : wstring) i :
  (i < length w)%nat → (2 ≤ length w)%nat →
  GetDeletes1 (delete_at i w) ++ [delete_at i w] ∈ GetDeletes2 w.
Proof.
  intros Hi Hlen. unfold GetDeletes2. apply list_elem_of_bind. exists i.
  split; [|apply elem_of_seq; lia].
  rewrite bool_decide_eq_true_2; [apply list_elem_of_here|].
  intros Hnil. pose proof (length_delete_at i w Hi) as Hl. rewrite Hnil in Hl.
  simpl in Hl. lia.
Qed.

Lemma PrepareCache_filters sc sc' :
  PrepareCache sc = Some sc' →
  ∃ d, Deletes1 sc' = Some (fillDeletes (TLangModel.GetWordToId (LangModel sc)) d).1
       ∧ Deletes2 sc' = Some (fillDeletes (TLangModel.GetWordToId (LangModel sc)) d).2.
Proof.
  unfold PrepareCache.
  destruct (cacheSizes _) as [[[deletes1size deletes2size] falsePositiveProb]|];
    simpl; [|done].
  intros [= <-]. by eexists.
Qed.

End DeleteSetFacts.

(** C2 (as amended). After the delete-set cache is built, for every
    vocabulary word [w] of length at least 2 every string obtained by
    deleting one character of [w] is reported as contained by [Deletes1],
    and for every vocabulary word [w] of length at least 3 every string
    obtained by deleting two characters of [w] is reported as contained by
    [Deletes2]. *)
Theorem delete_sets_sound `{BloomBackend}
    (sc sc' : NJamSpell.TSpellCorrector) (w : wstring) (id : TWordId) :
  NJamSpell.PrepareCache sc = Some sc' →
  (w, id) ∈ TLangModel.GetWordToId (NJamSpell.LangModel sc) →
  ∃ deletes1 deletes2,
    NJamSpell.Deletes1 sc' = Some deletes1
    ∧ NJamSpell.Deletes2 sc' = Some deletes2
    ∧ ((2 ≤ length w)%nat →
         ∀ i, (i < length w)%nat →
           BloomContains deletes1 (WideToUTF8 (delete_at i w)) = true)
    ∧ ((3 ≤ length w)%nat →
         ∀ i j, (i < length w)%nat → (j < length w - 1)%nat →
           length (delete_at j (delete_at i w)) = (length w - 2)%nat
           ∧ BloomContains deletes2 (WideToUTF8 (delete_at j (delete_at i w))) = true).
Proof.
  intros (d & Hd1 & Hd2)%PrepareCache_filters Hw.
  eexists _, _. split; [exact Hd1|]. split; [exact Hd2|]. split.
  - intros Hlen i Hi.
    pose proof (elem_of_GetDeletes2 w i Hi Hlen) as Hin.
    by destruct (fillDeletes_contains _ d (w, id) _ _ Hw Hin) as [Hb _].
  - intros Hlen i j Hi Hj.
    pose proof (length_delete_at i w Hi) as Hl.
    split; [rewrite length_delete_at; lia|].
    pose proof (elem_of_GetDeletes2 w i Hi ltac:(lia)) as Hin.
    destruct (fillDeletes_contains _ d (w, id) _ _ Hw Hin) as [_ Hpre].
    apply Hpre, elem_of_GetDeletes1; lia.
Qed.

Lemma delete_sets_sound_witness :
  let sc' := Fixture.preparedOf [("the", 9); ("fox", 2)] "abc" 14 in
  ∃ deletes1 deletes2,
    NJamSpell.Deletes1 sc' = Some deletes1
    ∧ NJamSpell.Deletes2 sc' = Some deletes2
    ∧ BloomContains (H := Fixture.backend) deletes1 (WideToUTF8 (Fixture.ws "fx")) = true
    ∧ BloomContains (H := Fixture.backend) deletes2 (WideToUTF8 (Fixture.ws "o")) = true.
Proof.
  intros sc'.
  destruct (delete_sets_sound (H := Fixture.backend)
              (Fixture.engineOf [("the", 9); ("fox", 2)] "abc" 14) sc'
              (Fixture.ws "fox") 1)
    as (deletes1 & deletes2 & Hd1 & Hd2 & Hone & Htwo).
  - vm_compute. reflexivity.
  - apply list_elem_of_further, list_elem_of_here.
  - exists deletes1, deletes2. split; [exact Hd1|]. split; [exact Hd2|]. split.
    + apply (Hone ltac:(simpl; lia) 1%nat). simpl. lia.
    + apply (Htwo ltac:(simpl; lia) 0%nat 1%nat); simpl; lia.
Defined.

(** The claim as stated fails at length 2: deleting both characters of
    [ab] leaves the empty string, which [GetDeletes1] never returns, so
    nothing is inserted into [Deletes2] and it reports the empty string as
    absent. *)
Lemma delete_sets_length_two :
  let sc := Fixture.engineOf [("ab", 1)] "ab" 14 in
  let w := Fixture.ws "ab" in
  (w, 0) ∈ TLangModel.GetWordToId (NJamSpell.LangModel sc)
  ∧ length w = 2%nat
  ∧ delete_at 0 (delete_at 0 w) = []
  ∧ ∃ sc' deletes2,
      NJamSpell.PrepareCache (H := Fixture.backend) sc = Some sc'
      ∧ NJamSpell.Deletes2 sc' = Some deletes2
      ∧ BloomContains (H := Fixture.backend) deletes2
          (WideToUTF8 (delete_at 0 (delete_at 0 w))) = false.
Proof.
  intros sc w. split; [apply list_elem_of_here|]. split; [done|]. split; [done|].
  eexists _, _. split; [vm_compute; reflexivity|]. split; [reflexivity|].
  vm_compute. reflexivity.
Qed.

(** ** Sizing the filters *)

Section SizingFacts.
Import NJamSpell.

Lemma sampleLoop_count wordToId n0 s0 :
  0 ≤ n0 ≤ 3000 →
  (sampleLoop wordToId n0 s0).1 = Z.min (n0 + Z.of_nat (length wordToId)) 3001.
Proof.
  revert n0 s0. induction wordToId as [|it rest IH]; intros n0 s0 Hn0; simpl.
  - lia.
  - assert (Hw : wrap64 (n0 + 1) = n0 + 1).
    { unfold wrap64. apply Z.mod_small. lia. }
    rewrite Hw. case_bool_decide as Hn; simpl.
    + lia.
    + rewrite IH by lia. lia.
Qed.

(** The sampling loop reads one word more than 3000 before it stops. *)
Lemma sampleLoop_reads_3001 wordToId :
  (3001 ≤ length wordToId)%nat → (sampleLoop wordToId 0 0).1 = 3001.
Proof. intros Hlen. rewrite sampleLoop_count by lia. lia. Qed.

(** What [cacheSizes] returns: the capacity of [Deletes1] is floored at
    1000, the capacity of [Deletes2] is the product as it is. *)
Lemma cacheSizes_shape wordToId deletes1size deletes2size falsePositiveProb :
  cacheSizes wordToId = Some (deletes1size, deletes2size, falsePositiveProb) →
  ∃ avgWordLen,
    avgWordLenOf (sampleLoop wordToId 0 0).1 (sampleLoop wordToId 0 0).2 = Some avgWordLen
    ∧ deletes1size = Z.max 1000 (wrap64 (Z.of_nat (length wordToId) * avgWordLen))
    ∧ deletes2size =
        wrap64 (wrap64 (Z.of_nat (length wordToId) * avgWordLen)
                * Z.max 1 (wrap64 (avgWordLen - 1)))
    ∧ falsePositiveProb = 0.001%float.
Proof.
  unfold cacheSizes. destruct (sampleLoop wordToId 0 0) as [n s]. simpl.
  destruct (avgWordLenOf n s) as [avgWordLen|]; simpl; [|done].
  intros [= <- <- <-]. exists avgWordLen. repeat split. lia.
Qed.

End SizingFacts.

(** C7. Where the code departs from the claimed sizing. For a vocabulary
    of the single word [a] the capacity of [Deletes1] is floored to 1000
    but [Deletes2] is built with capacity 2: line 476 floors
    [deletes1size] a second time and [deletes2size] never. For a
    vocabulary of 3500 words the average is taken over 3001 words, not
    3000: the loop counts a word before it tests [n > 3000]. *)
Theorem cache_sizes_divergence :
  NJamSpell.cacheSizes [(Fixture.ws "a", 0)] = Some (1000, 2, 0.001%float)
  ∧ NJamSpell.sampleLoop (replicate 3500 (Fixture.ws "ab", 0)) 0 0 = (3001, 6002).
Proof. split; vm_compute; reflexivity. Qed.

(** ** Cache files *)

(** A well-formed cache replaces both filters. *)
Example LoadCache_accepts :
  NJamSpell.LoadCache (H := Fixture.backend) (diskWith goodCache) engineAbcd "model.bin.spell"
  = (true,
     NJamSpell.withDeletes engineAbcd
       (Some {| ExpectedItems := 0; FalsePositiveProb := 0; NumBits := 8; NumHashes := 1;
                Bits := list_to_set [1; 3]%N |})
       (Some {| ExpectedItems := 0; FalsePositiveProb := 0; NumBits := 8; NumHashes := 1;
                Bits := list_to_set [2]%N |})).
Proof. vm_compute. reflexivity. Qed.

(** A changed checksum, a truncated trailing magic number and a missing
    file each leave the engine as it was. *)
Example LoadCache_rejects :
  let magic := NJamSpell.SPELL_CHECKER_CACHE_MAGIC_BYTE in
  NJamSpell.LoadCache (H := Fixture.backend)
    (diskWith (cacheBytes magic 1 43 (le_bytes 8 magic))) engineAbcd "model.bin.spell"
  = (false, engineAbcd)
  ∧ NJamSpell.LoadCache (H := Fixture.backend)
      (diskWith (cacheBytes magic 1 42 (le_bytes 7 magic))) engineAbcd "model.bin.spell"
    = (false, engineAbcd)
  ∧ NJamSpell.LoadCache (H := Fixture.backend)
      (diskWith goodCache) engineAbcd "other.spell"
    = (false, engineAbcd).
Proof. intros magic. repeat split; vm_compute; reflexivity. Qed.

(** * Further properties of the code *)

(** ** Single edits of a string *)

Section EditFacts.

Local Ltac len :=
  unfold TWord, wstring, wchar in *;
  repeat (progress (rewrite ?length_app, ?length_take, ?length_drop; simpl)); lia.

Lemma length_insert_at i ch (w : wstring) :
  (i ≤ length w)%nat → length (insert_at i ch w) = S (length w).
Proof. intros Hi. unfold insert_at. len. Qed.

Lemma length_replace_at i ch (w : wstring) :
  (i < length w)%nat → length (replace_at i ch w) = length w.
Proof. intros Hi. unfold replace_at. len. Qed.

Lemma insert_at_delete_at i ch (w : wstring) :
  w !! i = Some ch → insert_at i ch (delete_at i w) = w.
Proof.
  intros Hi. pose proof (lookup_lt_Some _ _ _ Hi) as Hlt.
  unfold insert_at, delete_at.
  rewrite take_app_length' by len.
  rewrite drop_app_length' by len.
  by apply take_drop_middle.
Qed.

Lemma delete_at_insert_at i ch (w : wstring) :
  (i ≤ length w)%nat → delete_at i (insert_at i ch w) = w.
Proof.
  intros Hi. unfold insert_at, delete_at.
  rewrite take_app_length' by len.
  rewrite (cons_middle ch), app_assoc.
  rewrite drop_app_length' by len.
  apply take_drop.
Qed.

Lemma replace_at_insert_at i ch (w : wstring) :
  replace_at i ch w = insert_at i ch (delete_at i w).
Proof.
  unfold replace_at, insert_at, delete_at.
  destruct (decide (i ≤ length w)%nat) as [Hi|Hi].
  - rewrite take_app_length' by len. by rewrite drop_app_length' by len.
  - rewrite !take_ge by (unfold wstring, wchar in *; lia).
    rewrite !drop_ge by (unfold wstring, wchar in *; lia).
    rewrite app_nil_r. rewrite take_ge by (unfold wstring, wchar in *; lia).
    by rewrite drop_ge by (unfold wstring, wchar in *; lia).
Qed.

Lemma delete_at_replace_at i ch (w : wstring) :
  (i < length w)%nat → delete_at i (replace_at i ch w) = delete_at i w.
Proof.
  intros Hi. rewrite replace_at_insert_at. apply delete_at_insert_at.
  rewrite length_delete_at by done. unfold wstring, wchar in *. lia.
Qed.

Lemma replace_at_same i a (w : wstring) : w !! i = Some a → replace_at i a w = w.
Proof. intros Ha. unfold replace_at. by apply take_drop_middle. Qed.

Lemma replace_at_replace_at i a ch (w : wstring) :
  (i < length w)%nat → replace_at i a (replace_at i ch w) = replace_at i a w.
Proof.
  intros Hi. unfold replace_at.
  rewrite take_app_length' by len.
  rewrite (cons_middle ch), app_assoc.
  by rewrite drop_app_length' by len.
Qed.

Lemma elem_of_delete_at i (w : wstring) ch : ch ∈ delete_at i w → ch ∈ w.
Proof.
  unfold delete_at. intros [Hc|Hc]%elem_of_app.
  - by apply (subseteq_take i w).
  - by apply (subseteq_drop (S i) w).
Qed.

(** The transposition of lines 385-390 swaps the characters at [i] and
    [i + 1] and leaves the rest in place. *)
Lemma transpose_at_swap i (w : wstring) a b :
  w !! i = Some a → w !! S i = Some b →
  transpose_at i w = take i w ++ b :: a :: drop (i + 2) w.
Proof.
  intros Ha Hb. pose proof (lookup_lt_Some _ _ _ Hb) as Hlt.
  unfold transpose_at.
  rewrite (drop_S w b (S i)) by done. rewrite (drop_S w a i) by done. simpl.
  f_equal. f_equal. f_equal.
  case_bool_decide as Hlen; [done|].
  rewrite drop_ge; [done|]. unfold wstring, wchar in *. lia.
Qed.

Lemma transpose_at_app (pre : wstring) a b (post : wstring) :
  transpose_at (length pre) (pre ++ a :: b :: post) = pre ++ b :: a :: post.
Proof.
  rewrite (transpose_at_swap (length pre) _ a b).
  - unfold wstring, wchar in *. rewrite take_app_length.
    replace (pre ++ a :: b :: post) with ((pre ++ [a; b]) ++ post)
      by (by rewrite <- app_assoc).
    rewrite drop_app_length'; [done|]. rewrite length_app. simpl. lia.
  - unfold wstring, wchar in *. by apply list_lookup_middle.
  - unfold wstring, wchar in *. rewrite (cons_middle a), app_assoc.
    apply list_lookup_middle. rewrite length_app. simpl. lia.
Qed.

Lemma delete_at_transpose_at i (w : wstring) :
  (i + 1 < length w)%nat → delete_at i (transpose_at i w) = delete_at (S i) w.
Proof.
  intros Hi.
  destruct (lookup_lt_is_Some_2 w i) as [a Ha]; [unfold wstring, wchar in *; lia|].
  destruct (lookup_lt_is_Some_2 w (S i)) as [b Hb]; [unfold wstring, wchar in *; lia|].
  rewrite (transpose_at_swap i w a b Ha Hb). unfold delete_at.
  rewrite take_app_length' by len.
  rewrite (cons_middle b), app_assoc.
  rewrite drop_app_length' by len.
  rewrite (take_S_r w i a Ha), <- app_assoc. simpl.
  by replace (i + 2)%nat with (S (S i)) by lia.
Qed.

End EditFacts.

Lemma transpose_at_facts (i : nat) (w : wstring) :
  (i + 1 < length w)%nat →
  length (transpose_at i w) = length w
  ∧ transpose_at i w ≡ₚ w
  ∧ transpose_at i w !! i = w !! S i
  ∧ transpose_at i w !! S i = w !! i
  ∧ (∀ j, j ≠ i → j ≠ S i → transpose_at i w !! j = w !! j)
  ∧ transpose_at i (transpose_at i w) = w.
Proof.
  intros Hi. unfold wstring, wchar in *.
  destruct (lookup_lt_is_Some_2 w i) as [a Ha]; [lia|].
  destruct (lookup_lt_is_Some_2 w (S i)) as [b Hb]; [lia|].
  assert (Hw : w = take i w ++ a :: b :: drop (i + 2) w).
  { rewrite <- (take_drop_middle w i a Ha) at 1. f_equal. f_equal.
    rewrite (drop_S w b (S i)) by done. f_equal. f_equal. lia. }
  assert (Hlen : length (take i w) = i) by (rewrite length_take; lia).
  revert Hw Hlen. generalize (take i w) (drop (i + 2) w). intros pre post -> <-.
  clear Hi Ha Hb.
  pose proof (transpose_at_app pre a b post) as Hsw.
  unfold wstring, wchar in Hsw. rewrite Hsw. clear Hsw.
  split; [|split; [|split; [|split; [|split]]]].
  - rewrite !length_app. simpl. lia.
  - apply Permutation_app_head, Permutation_swap.
  - rewrite list_lookup_middle by done.
    rewrite (cons_middle a), app_assoc.
    rewrite list_lookup_middle; [done|]. rewrite length_app. simpl. lia.
  - rewrite (cons_middle b), app_assoc.
    rewrite list_lookup_middle by (rewrite length_app; simpl; lia).
    by rewrite list_lookup_middle.
  - intros j Hj HSj. destruct (decide (j < length pre)%nat).
    + by rewrite !lookup_app_l by lia.
    + rewrite !lookup_app_r by lia.
      destruct (j - length pre)%nat as [|[|k]] eqn:Hk; [lia|lia|done].
  - apply (transpose_at_app pre b a post).
Qed.

(** X1. The transposition [Edits2] builds at index [i] (lines 385-390) is
    the word with the characters at [i] and [i + 1] exchanged: the same
    length, the same characters, and applying it twice gives the word
    back. *)
Theorem transpose_at_exchanges (i : nat) (w : wstring) :
  (i + 1 < length w)%nat →
  length (transpose_at i w) = length w
  ∧ transpose_at i w ≡ₚ w
  ∧ transpose_at i w !! i = w !! S i
  ∧ transpose_at i w !! S i = w !! i
  ∧ (∀ j, j ≠ i → j ≠ S i → transpose_at i w !! j = w !! j)
  ∧ transpose_at i (transpose_at i w) = w.
Proof. apply transpose_at_facts. Qed.

Lemma transpose_at_exchanges_witness :
  transpose_at 1 (Fixture.ws "tehn") = Fixture.ws "then".
Proof.
  pose proof (transpose_at_exchanges 1 (Fixture.ws "then") ltac:(simpl; lia)) as H.
  exact (proj2 (proj2 (proj2 (proj2 (proj2 H))))).
Defined.

(** ** The delete neighbourhoods *)

Section DeletesShape.
Import NJamSpell.

Lemma bind_singleton_fmap {A B} (f : A → B) (g : A → list B) (l : list A) :
  (∀ x, x ∈ l → g x = [f x]) → l ≫= g = f <$> l.
Proof.
  induction l as [|x l IH]; intros Hg; [done|].
  rewrite bind_cons, fmap_cons, Hg, IH; [done| |].
  - intros y Hy. apply Hg. by apply list_elem_of_further.
  - apply list_elem_of_here.
Qed.

Lemma delete_at_nonempty i (w : wstring) :
  (i < length w)%nat → (2 ≤ length w)%nat → delete_at i w ≠ [].
Proof.
  intros Hi Hlen Hnil. pose proof (length_delete_at i w Hi) as Hl.
  rewrite Hnil in Hl. simpl in Hl. lia.
Qed.

Lemma GetDeletes1_long (w : wstring) :
  (2 ≤ length w)%nat → GetDeletes1 w = (λ i, delete_at i w) <$> seq 0 (length w).
Proof.
  intros Hlen. unfold GetDeletes1. apply bind_singleton_fmap.
  intros i Hi%elem_of_seq. rewrite bool_decide_eq_true_2; [done|].
  apply delete_at_nonempty; lia.
Qed.

Lemma GetDeletes1_short (w : wstring) : (length w < 2)%nat → GetDeletes1 w = [].
Proof. destruct w as [|a [|b w]]; simpl; intros Hlen; [done|done|lia]. Qed.

Lemma GetDeletes2_long (w : wstring) :
  (2 ≤ length w)%nat →
  GetDeletes2 w =
    (λ i, GetDeletes1 (delete_at i w) ++ [delete_at i w]) <$> seq 0 (length w).
Proof.
  intros Hlen. unfold GetDeletes2. apply bind_singleton_fmap.
  intros i Hi%elem_of_seq. rewrite bool_decide_eq_true_2; [done|].
  apply delete_at_nonempty; lia.
Qed.

Lemma GetDeletes2_short (w : wstring) : (length w < 2)%nat → GetDeletes2 w = [].
Proof. destruct w as [|a [|b w]]; simpl; intros Hlen; [done|done|lia]. Qed.

Lemma elem_of_GetDeletes1_inv (w s : wstring) :
  s ∈ GetDeletes1 w → s ≠ [] ∧ ∃ i, (i < length w)%nat ∧ s = delete_at i w.
Proof.
  unfold GetDeletes1. intros (i & Hs & Hi%elem_of_seq)%list_elem_of_bind.
  case_bool_decide as Hne; [|by apply elem_of_nil in Hs].
  apply list_elem_of_singleton in Hs as ->. split; [done|]. exists i. split; [lia|done].
Qed.

Lemma elem_of_GetDeletes2_inv (w : wstring) (w1 : list wstring) :
  w1 ∈ GetDeletes2 w →
  ∃ i, (i < length w)%nat ∧ delete_at i w ≠ []
       ∧ w1 = GetDeletes1 (delete_at i w) ++ [delete_at i w].
Proof.
  unfold GetDeletes2. intros (i & Hs & Hi%elem_of_seq)%list_elem_of_bind.
  case_bool_decide as Hne; [|by apply elem_of_nil in Hs].
  apply list_elem_of_singleton in Hs as ->. exists i. split; [lia|done].
Qed.

End DeletesShape.

(** X2. [GetDeletes1] (lines 13-22) returns nothing for a word of fewer
    than two characters; for a longer word it returns, in order of the
    deleted position, the [|w|] strings with one character deleted. It
    never returns the empty string, and every string it returns is one
    character shorter than the word. *)
Theorem GetDeletes1_shape (w : wstring) :
  ((length w < 2)%nat → NJamSpell.GetDeletes1 w = [])
  ∧ ((2 ≤ length w)%nat →
       NJamSpell.GetDeletes1 w = (λ i, delete_at i w) <$> seq 0 (length w)
       ∧ length (NJamSpell.GetDeletes1 w) = length w)
  ∧ (∀ s, s ∈ NJamSpell.GetDeletes1 w → s ≠ [] ∧ S (length s) = length w).
Proof.
  split; [apply GetDeletes1_short|]. split.
  - intros Hlen. split; [by apply GetDeletes1_long|].
    rewrite GetDeletes1_long by done. by rewrite length_fmap, length_seq.
  - intros s (Hne & i & Hi & ->)%elem_of_GetDeletes1_inv. split; [done|].
    rewrite length_delete_at by done. unfold wstring, wchar in *. lia.
Qed.

(** X3. [GetDeletes2] (lines 24-35) returns nothing for a word of fewer
    than two characters; for a longer word it returns one entry per deleted
    position, made of the single deletions of the shortened word followed by
    the shortened word itself. No entry is empty, no entry holds the empty
    string, and the last string of an entry is one character shorter than
    the word, the others two. *)
Theorem GetDeletes2_shape (w : wstring) :
  ((length w < 2)%nat → NJamSpell.GetDeletes2 w = [])
  ∧ ((2 ≤ length w)%nat →
       NJamSpell.GetDeletes2 w =
         (λ i, NJamSpell.GetDeletes1 (delete_at i w) ++ [delete_at i w])
           <$> seq 0 (length w))
  ∧ (∀ w1, w1 ∈ NJamSpell.GetDeletes2 w →
       ∃ front back,
         w1 = front ++ [back]
         ∧ back ≠ [] ∧ S (length back) = length w
         ∧ front = NJamSpell.GetDeletes1 back
         ∧ ∀ s, s ∈ front → s ≠ [] ∧ S (S (length s)) = length w).
Proof.
  split; [apply GetDeletes2_short|]. split; [apply GetDeletes2_long|].
  intros w1 (i & Hi & Hne & ->)%elem_of_GetDeletes2_inv.
  pose proof (length_delete_at i w Hi) as Hl.
  eexists _, _. split; [done|]. split; [done|].
  split; [unfold wstring, wchar in *; lia|]. split; [done|].
  intros s (Hs & j & Hj & ->)%elem_of_GetDeletes1_inv. split; [done|].
  rewrite length_delete_at by done. unfold wstring, wchar in *. lia.
Qed.

(** ** What the first enumeration reaches *)

Section FirstLevelRecall.
Import NJamSpell.
Context `{BloomBackend} `{StdSort} `{UnorderedSet}.
Variable sc : TSpellCorrector.

(** A misspelling is undone by one edit over the alphabet. *)
Lemma misspelt_oneEdit v w : spelled sc v → misspelt v w → oneEdit sc w v.
Proof.
  intros Hsp [(i & Hi & ->)|[(i & Hi & ->)|[(i & ch & Hi & ->)|(i & ch & Hi & ->)]]].
  - destruct (lookup_lt_is_Some_2 v i) as [a Ha]; [unfold wstring, wchar in *; lia|].
    right. right. right. exists i, a. split; [|split].
    + rewrite length_delete_at by done. unfold wstring, wchar in *. lia.
    + apply Hsp. by apply list_elem_of_lookup_2 with i.
    + by rewrite insert_at_delete_at.
  - right. left. exists i.
    destruct (transpose_at_facts i v Hi) as (Hlen & _ & _ & _ & _ & Hinv).
    split; [|done]. unfold wstring, wchar in *. lia.
  - destruct (lookup_lt_is_Some_2 v i) as [a Ha]; [unfold wstring, wchar in *; lia|].
    right. right. left. exists i, a. split; [|split].
    + by rewrite length_replace_at.
    + apply Hsp. by apply list_elem_of_lookup_2 with i.
    + rewrite replace_at_replace_at by done. by rewrite replace_at_same.
  - left. exists i. split.
    + rewrite length_insert_at by done. lia.
    + by rewrite delete_at_insert_at.
Qed.

Lemma Edits2_recall v w :
  spelled sc v → IsWord (TLangModel.GetWord (LangModel sc) v) = true → misspelt v w →
  TLangModel.GetWord (LangModel sc) v ∈ Edits2 sc w true.
Proof.
  intros Hsp Hv Hm. apply elem_of_Edits2. exists v.
  split; [by apply misspelt_oneEdit|done].
Qed.

(** A candidate set within the cap is scored whole. *)
Lemma GetCandidatesScoredRaw_first_words sentence p r c :
  (p < length sentence)%nat →
  GetCandidatesScoredRaw sc sentence p = Some r →
  rankable (beforeSort sc sentence p) →
  c ∈ Edits2 sc (queryWord sentence p) true →
  (size (list_to_set (C := gset TWord)
           (Edits2 sc (queryWord sentence p) true
              ++ [identityToken sc (queryWord sentence p)]))
     ≤ MaxCandiatesToCheck sc)%nat →
  c ∈ Word <$> r.
Proof.
  intros Hp Hr Hrank Hc Hcap.
  assert (Hne : Edits2 sc (queryWord sentence p) true ≠ []).
  { intros Hnil. rewrite Hnil in Hc. by apply elem_of_nil in Hc. }
  rewrite (GetCandidatesScoredRaw_perm sc sentence p r Hr Hrank).
  apply GetCandidatesScoredRaw_eq in Hr
    as [[-> Hnil]|(_ & candidates & firstLevel & Hgen & _ & -> & _)].
  - unfold beforeSort in Hnil. rewrite (generateCandidates_first sc _ Hne) in Hnil.
    rewrite bool_decide_eq_false_2 in Hnil by lia.
    rewrite bool_decide_eq_false_2 in Hnil by done. simpl in Hnil.
    rewrite scoredCandidates_eq in Hnil. apply fmap_nil_inv in Hnil.
    pose proof (identityToken_pruned sc (queryWord sentence p)
                  (Edits2 sc (queryWord sentence p) true)) as Hid.
    apply elem_of_prunedItems in Hid. rewrite Hnil in Hid. by apply elem_of_nil in Hid.
  - rewrite (generateCandidates_first sc _ Hne) in Hgen. injection Hgen as <- <-.
    rewrite scoredCandidates_eq, <- list_fmap_compose.
    apply list_elem_of_fmap. exists c. split; [done|].
    unfold prunedItems.
    rewrite FilterCandidatesByFrequency_small by (by rewrite uset_size_range).
    apply uset_range_spec, elem_of_app. by left.
Qed.

End FirstLevelRecall.

(** X4. Edit-distance-1 recall of the first enumeration. When the query
    word is a vocabulary word [v] (all of whose characters are in the
    alphabet) with one character deleted, two neighbours exchanged, one
    character replaced or one character inserted, [Edits2] (lines 366-430)
    returns the token of [v]; the ranked list of the query holds it unless
    the candidate set exceeds [MaxCandiatesToCheck]. *)
Theorem first_level_recall `{BloomBackend} `{StdSort} `{UnorderedSet}
    (sc : NJamSpell.TSpellCorrector)
    (v : wstring) (sentence : TWords) (p : nat) :
  spelled sc v →
  IsWord (TLangModel.GetWord (NJamSpell.LangModel sc) v) = true →
  (p < length sentence)%nat →
  misspelt v (queryWord sentence p) →
  let w := queryWord sentence p in
  TLangModel.GetWord (NJamSpell.LangModel sc) v ∈ NJamSpell.Edits2 sc w true
  ∧ NJamSpell.generateCandidates sc w = Some (NJamSpell.Edits2 sc w true, true)
  ∧ ∀ r,
      NJamSpell.GetCandidatesScoredRaw sc sentence p = Some r →
      rankable (beforeSort sc sentence p) →
      (size (list_to_set (C := gset TWord)
               (NJamSpell.Edits2 sc w true ++ [identityToken sc w]))
         ≤ NJamSpell.MaxCandiatesToCheck sc)%nat →
      TLangModel.GetWord (NJamSpell.LangModel sc) v ∈ NJamSpell.Word <$> r.
Proof.
  intros Hsp Hv Hp Hm w.
  pose proof (Edits2_recall sc v w Hsp Hv Hm) as Hin.
  split; [done|]. split.
  - apply generateCandidates_first. intros Hnil. rewrite Hnil in Hin.
    by apply elem_of_nil in Hin.
  - intros r Hr Hrank Hcap.
    by apply (GetCandidatesScoredRaw_first_words sc sentence p r).
Qed.

Lemma first_level_recall_witness :
  Fixture.ws "the" ∈ NJamSpell.Edits2 engineFox (Fixture.ws "teh") true.
Proof.
  refine (proj1 (first_level_recall (H := Fixture.backend) (H0 := StableStdSort)
      (H1 := RecentFirstSet)
                   engineFox (Fixture.ws "the") [Fixture.ws "teh"; Fixture.ws "quick"] 0
                   _ _ _ _)).
  - intros ch Hch. vm_compute in Hch. vm_compute.
    repeat (apply elem_of_cons in Hch as [->|Hch];
            [repeat (first [apply list_elem_of_here|apply list_elem_of_further])|]).
    by apply elem_of_nil in Hch.
  - reflexivity.
  - simpl. lia.
  - right. left. exists 1%nat. split; [simpl; lia|reflexivity].
Defined.

(** ** What a query returns *)

Section ResultFacts.
Import NJamSpell.
Context `{BloomBackend} `{StdSort} `{UnorderedSet}.
Variable sc : TSpellCorrector.

Lemma Word_scoreCandidate sentence p w knownWord firstLevel (l : list TWord) :
  Word <$> (scoreCandidate sc sentence p w knownWord firstLevel <$> l) = l.
Proof. rewrite <- list_fmap_compose. by rewrite <- (list_fmap_id l) at 2. Qed.

(** The words handed to the final sort, in the order the candidate set
    lists them. *)
Lemma Word_beforeSort sentence p :
  Word <$> beforeSort sc sentence p =
    match generateCandidates sc (queryWord sentence p) with
    | Some (candidates, _) =>
        if bool_decide (length sentence ≤ p)%nat || bool_decide (candidates = []) then []
        else prunedItems sc (queryWord sentence p) candidates
    | None => []
    end.
Proof.
  unfold beforeSort.
  destruct (generateCandidates sc _) as [[candidates firstLevel]|]; [|done].
  destruct (_ || _); [done|].
  by rewrite scoredCandidates_eq, Word_scoreCandidate.
Qed.

Lemma rankedByCount_NoDup X : NoDup (snd <$> rankedByCount sc X).
Proof.
  rewrite rankedByCount_perm, <- list_fmap_compose.
  rewrite (list_fmap_ext (snd ∘ countOfWord sc) id (uset_items X)) by done.
  rewrite list_fmap_id. apply uset_items_NoDup.
Qed.

Lemma FilterCandidatesByFrequency_size X orig :
  (uset_size (FilterCandidatesByFrequency sc X orig) ≤ S (MaxCandiatesToCheck sc))%nat.
Proof.
  destruct (decide (uset_size X ≤ MaxCandiatesToCheck sc)%nat) as [HX|HX].
  - rewrite FilterCandidatesByFrequency_small by done. lia.
  - unfold uset_size.
    assert (Hsub : uset_items (FilterCandidatesByFrequency sc X orig)
                   ⊆+ orig :: (snd <$> take (MaxCandiatesToCheck sc) (rankedByCount sc X))).
    { apply NoDup_submseteq; [apply uset_items_NoDup|].
      intros c Hc. apply FilterCandidatesByFrequency_large in Hc; [|lia].
      apply elem_of_cons. tauto. }
    apply submseteq_length in Hsub. simpl in Hsub.
    rewrite length_fmap, length_take in Hsub. lia.
Qed.

Lemma prunedItems_length w candidates :
  (length (prunedItems sc w candidates) ≤ S (MaxCandiatesToCheck sc))%nat.
Proof. apply FilterCandidatesByFrequency_size. Qed.

Lemma Word_beforeSort_facts sentence p :
  NoDup (Word <$> beforeSort sc sentence p)
  ∧ (length (beforeSort sc sentence p) ≤ S (MaxCandiatesToCheck sc))%nat.
Proof.
  rewrite <- (length_fmap Word), Word_beforeSort.
  destruct (generateCandidates sc _) as [[candidates firstLevel]|];
    [|split; [constructor|simpl; lia]].
  destruct (_ || _); [split; [constructor|simpl; lia]|].
  split; [apply NoDup_prunedItems|apply prunedItems_length].
Qed.

End ResultFacts.

(** X9. The ranked list of a query never names a token twice and has at
    most [MaxCandiatesToCheck + 1] entries (lines 96-98, 154-174): the
    candidates are deduplicated, a set over the cap is cut down to the cap,
    and the query word is added. *)
Theorem ranked_list_bounds `{BloomBackend} `{StdSort} `{UnorderedSet}
    (sc : NJamSpell.TSpellCorrector) (sentence : TWords) (p : nat)
    (r : NJamSpell.TScoredWords) :
  NJamSpell.GetCandidatesScoredRaw sc sentence p = Some r →
  rankable (beforeSort sc sentence p) →
  NoDup (NJamSpell.Word <$> r)
  ∧ (length r ≤ S (NJamSpell.MaxCandiatesToCheck sc))%nat.
Proof.
  intros Hr Hrank.
  pose proof (GetCandidatesScoredRaw_perm sc sentence p r Hr Hrank) as Hperm.
  destruct (Word_beforeSort_facts sc sentence p) as [Hnd Hlen].
  split.
  - by rewrite Hperm.
  - by rewrite (Permutation_length Hperm).
Qed.

Lemma ranked_list_bounds_witness :
  let sc := NJamSpell.SetMaxCandiatesToCheck engineAbcd 1 in
  let r := [ {| NJamSpell.Word := Fixture.ws "abc"; NJamSpell.Score := 5 |};
             {| NJamSpell.Word := Fixture.ws "abcd"; NJamSpell.Score := (-38) |} ] in
  NJamSpell.GetCandidatesScoredRaw (H := Fixture.backend) (H0 := StableStdSort)
      (H1 := RecentFirstSet)
    sc [Fixture.ws "abc"; Fixture.ws "ab"] 0 = Some r
  ∧ NoDup (NJamSpell.Word <$> r) ∧ (length r ≤ 2)%nat.
Proof.
  intros sc r.
  assert (Hr : NJamSpell.GetCandidatesScoredRaw (H := Fixture.backend) (H0 := StableStdSort)
      (H1 := RecentFirstSet)
                 sc [Fixture.ws "abc"; Fixture.ws "ab"] 0 = Some r)
    by (vm_compute; reflexivity).
  split; [exact Hr|].
  apply (ranked_list_bounds (H := Fixture.backend) (H0 := StableStdSort)
      (H1 := RecentFirstSet) sc _ 0 r Hr).
  vm_compute. repeat constructor.
Defined.

(** ** Known query words *)

Section KnownWordFacts.
Import NJamSpell.
Context `{BloomBackend} `{StdSort} `{UnorderedSet}.
Variable sc : TSpellCorrector.

(** Replacing a character by itself gives the word back, so a known word
    with a character of the alphabet is among its own first-level
    candidates. *)
Lemma known_word_in_Edits2 (w : TWord) i ch :
  isKnown sc w = true → w !! i = Some ch →
  ch ∈ TLangModel.GetAlphabet (LangModel sc) →
  identityToken sc w ∈ Edits2 sc w true.
Proof.
  intros Hk Hi Hch. apply elem_of_Edits2. exists w. split.
  - right. right. left. exists i, ch. split; [by apply lookup_lt_Some in Hi|].
    split; [done|]. by rewrite replace_at_same.
  - unfold identityToken. rewrite Hk. done.
Qed.

Lemma GetCandidatesScoredRaw_first_total sentence p :
  Edits2 sc (queryWord sentence p) true ≠ [] →
  ∃ r, GetCandidatesScoredRaw sc sentence p = Some r.
Proof.
  intros Hne. unfold GetCandidatesScoredRaw. case_bool_decide; [by eexists|].
  fold (queryWord sentence p). rewrite (generateCandidates_first sc _ Hne). simpl.
  rewrite bool_decide_eq_false_2 by done. by eexists.
Qed.

End KnownWordFacts.

(** X8. A known query word with a character in the alphabet is always
    served by the first enumeration: replacing that character by itself
    (lines 401-411) yields the word, so [Edits2] is not empty, the fallback
    and the bloom filters are never reached (the query returns even when
    they are null), and the fallback factor 50 of line 123 is never
    applied: the word's own token scores the language model's value and
    every other candidate that value less [KnownWordsPenalty]. *)
Theorem known_word_first_level `{BloomBackend} `{StdSort} `{UnorderedSet}
    (sc : NJamSpell.TSpellCorrector) (sentence : TWords) (p i : nat) (ch : wchar) :
  (p < length sentence)%nat →
  isKnown sc (queryWord sentence p) = true →
  queryWord sentence p !! i = Some ch →
  ch ∈ TLangModel.GetAlphabet (NJamSpell.LangModel sc) →
  let w := queryWord sentence p in
  TLangModel.GetWord (NJamSpell.LangModel sc) w ∈ NJamSpell.Edits2 sc w true
  ∧ ∃ r,
      NJamSpell.GetCandidatesScoredRaw sc sentence p = Some r
      ∧ (rankable (beforeSort sc sentence p) →
           TLangModel.GetWord (NJamSpell.LangModel sc) w ∈ NJamSpell.Word <$> r
           ∧ ∀ sw, sw ∈ r →
               let s := TLangModel.Score (NJamSpell.LangModel sc)
                          (NJamSpell.candSentence sentence p (NJamSpell.Word sw)) in
               NJamSpell.Score sw =
                 if bool_decide (NJamSpell.Word sw = TLangModel.GetWord (NJamSpell.LangModel sc) w)
                 then s else (s - NJamSpell.KnownWordsPenalty sc)%float).
Proof.
  intros Hp Hk Hi Hch w. subst w. set (w := queryWord sentence p) in *.
  pose proof (known_word_in_Edits2 sc w i ch Hk Hi Hch) as Hin.
  assert (Hid : identityToken sc w = TLangModel.GetWord (NJamSpell.LangModel sc) w).
  { unfold identityToken. by rewrite Hk. }
  assert (Hne : NJamSpell.Edits2 sc w true ≠ []).
  { intros Hnil. rewrite Hnil in Hin. by apply elem_of_nil in Hin. }
  rewrite <- Hid. split; [done|].
  destruct (GetCandidatesScoredRaw_first_total sc sentence p Hne) as [r Hr].
  exists r. split; [done|]. intros Hrank. split.
  - rewrite (GetCandidatesScoredRaw_perm sc sentence p r Hr Hrank).
    apply GetCandidatesScoredRaw_eq in Hr
      as [[-> Hnil]|(_ & candidates & firstLevel & _ & _ & -> & _)].
    + exfalso. unfold beforeSort in Hnil. fold w in Hnil.
      rewrite (generateCandidates_first sc _ Hne) in Hnil.
      rewrite bool_decide_eq_false_2 in Hnil by lia.
      rewrite bool_decide_eq_false_2 in Hnil by done. simpl in Hnil.
      rewrite scoredCandidates_eq in Hnil. apply fmap_nil_inv in Hnil.
      pose proof (identityToken_pruned sc w (NJamSpell.Edits2 sc w true)) as Hid'.
      apply elem_of_prunedItems in Hid'. rewrite Hnil in Hid'. by apply elem_of_nil in Hid'.
    + rewrite scoredCandidates_eq, Word_scoreCandidate.
      apply elem_of_prunedItems, identityToken_pruned.
  - intros sw Hsw s.
    destruct (GetCandidatesScoredRaw_elem sc sentence p r sw Hr Hrank Hsw)
      as (_ & _ & _ & _ & _ & Heq).
    rewrite Heq at 1. simpl. fold w. rewrite Hk.
    unfold fromFirstLevel. by rewrite (bool_decide_eq_true_2 _ Hne).
Qed.

Lemma known_word_first_level_witness :
  Fixture.ws "ab" ∈ NJamSpell.Edits2 engineAbcd (Fixture.ws "ab") true.
Proof.
  refine (proj1 (known_word_first_level (H := Fixture.backend) (H0 := StableStdSort)
      (H1 := RecentFirstSet)
                   engineAbcd [Fixture.ws "ab"] 0 0 97%N _ _ _ _)).
  - simpl. lia.
  - reflexivity.
  - reflexivity.
  - apply list_elem_of_here.
Defined.

(** ** Penalties and context *)

Section PenaltyFacts.
Import NJamSpell.
Context `{BloomBackend} `{StdSort} `{UnorderedSet}.
Variable sc : TSpellCorrector.

Lemma Word_beforeSort_SetPenalty sentence p known unknown :
  Word <$> beforeSort (SetPenalty sc known unknown) sentence p
    = Word <$> beforeSort sc sentence p.
Proof. by rewrite !Word_beforeSort. Qed.

Lemma GetCandidatesScoredRaw_SetPenalty_total sentence p known unknown r :
  GetCandidatesScoredRaw sc sentence p = Some r →
  ∃ r', GetCandidatesScoredRaw (SetPenalty sc known unknown) sentence p = Some r'.
Proof.
  unfold GetCandidatesScoredRaw. case_bool_decide; [by eexists|].
  change (generateCandidates (SetPenalty sc known unknown))
    with (generateCandidates sc).
  destruct (generateCandidates sc _) as [[candidates firstLevel]|]; simpl; [|done].
  case_bool_decide; by eexists.
Qed.

(** Scoring reads the sentence through the window only. *)
Lemma scoredCandidates_window sentence sentence' p p' w candidates firstLevel :
  (∀ c, candSentence sentence p c = candSentence sentence' p' c) →
  scoredCandidates sc sentence p w candidates firstLevel
    = scoredCandidates sc sentence' p' w candidates firstLevel.
Proof.
  intros Hwin. rewrite !scoredCandidates_eq. apply list_fmap_ext.
  intros k c _. unfold scoreCandidate. by rewrite Hwin.
Qed.

Lemma GetCandidatesScoredRaw_window sentence sentence' p p' :
  (p < length sentence)%nat → (p' < length sentence')%nat →
  queryWord sentence p = queryWord sentence' p' →
  (∀ c, localWindow sentence p c = localWindow sentence' p' c) →
  GetCandidatesScoredRaw sc sentence p = GetCandidatesScoredRaw sc sentence' p'.
Proof.
  intros Hp Hp' Hw Hwin. unfold GetCandidatesScoredRaw.
  rewrite !bool_decide_eq_false_2 by lia.
  fold (queryWord sentence p). fold (queryWord sentence' p'). rewrite <- Hw.
  destruct (generateCandidates sc _) as [[candidates firstLevel]|]; simpl; [|done].
  case_bool_decide; [done|]. do 2 f_equal.
  apply scoredCandidates_window. intros c.
  rewrite !candSentence_window by done. apply Hwin.
Qed.

End PenaltyFacts.

(** X11. [SetPenalty] (lines 322-325) changes scores and order only: with
    other penalties the query, if it returned, still returns, and it
    returns the same candidate tokens. *)
Theorem penalties_keep_candidates `{BloomBackend} `{StdSort} `{UnorderedSet}
    (sc : NJamSpell.TSpellCorrector) (sentence : TWords) (p : nat)
    (known unknown : float) (r : NJamSpell.TScoredWords) :
  NJamSpell.GetCandidatesScoredRaw sc sentence p = Some r →
  ∃ r',
    NJamSpell.GetCandidatesScoredRaw (NJamSpell.SetPenalty sc known unknown) sentence p
      = Some r'
    ∧ (rankable (beforeSort sc sentence p) →
       rankable (beforeSort (NJamSpell.SetPenalty sc known unknown) sentence p) →
       NJamSpell.Word <$> r' ≡ₚ NJamSpell.Word <$> r).
Proof.
  intros Hr.
  destruct (GetCandidatesScoredRaw_SetPenalty_total sc sentence p known unknown r Hr)
    as [r' Hr'].
  exists r'. split; [done|]. intros Hrank Hrank'.
  rewrite (GetCandidatesScoredRaw_perm _ sentence p r' Hr' Hrank').
  rewrite (GetCandidatesScoredRaw_perm _ sentence p r Hr Hrank).
  by rewrite Word_beforeSort_SetPenalty.
Qed.

Lemma penalties_keep_candidates_witness :
  ∃ r',
    NJamSpell.GetCandidatesScoredRaw (H := Fixture.backend) (H0 := StableStdSort)
        (H1 := RecentFirstSet)
      (NJamSpell.SetPenalty engineAbcd 1 100) [Fixture.ws "abc"; Fixture.ws "ab"] 0
      = Some r'
    ∧ NJamSpell.Word <$> r' ≡ₚ [Fixture.ws "abc"; Fixture.ws "abcd"; Fixture.ws "ab"].
Proof.
  destruct (penalties_keep_candidates (H := Fixture.backend) (H0 := StableStdSort)
      (H1 := RecentFirstSet)
              engineAbcd [Fixture.ws "abc"; Fixture.ws "ab"] 0 1 100
              [ {| NJamSpell.Word := Fixture.ws "abc"; NJamSpell.Score := 5 |};
                {| NJamSpell.Word := Fixture.ws "abcd"; NJamSpell.Score := (-38) |};
                {| NJamSpell.Word := Fixture.ws "ab"; NJamSpell.Score := (-40) |} ])
    as (r' & Hr' & Hperm).
  - vm_compute. reflexivity.
  - exists r'. split; [exact Hr'|]. apply Hperm; vm_compute; repeat constructor.
Defined.

Section LocalityFacts.

Lemma lookup_window (sentence : TWords) p k :
  (k < 5)%nat → (2 ≤ p)%nat →
  drop (p - 2) (take (p + 3) sentence) !! k = sentence !! (p - 2 + k)%nat.
Proof.
  intros Hk Hp. unfold TWords. rewrite lookup_drop, lookup_take_lt by lia. done.
Qed.

Lemma lookup_window_start (sentence : TWords) p k :
  (p < 2)%nat → (k < p + 3)%nat →
  drop (p - 2) (take (p + 3) sentence) !! k = sentence !! k.
Proof.
  intros Hp Hk. unfold TWords. replace (p - 2)%nat with 0%nat by lia.
  rewrite drop_0. by rewrite lookup_take_lt by lia.
Qed.

End LocalityFacts.

(** X12. A query looks at most two words to either side (lines 103-113):
    cutting the sentence down to the words at positions [p - 2] to [p + 2]
    and asking at the position the query word then has gives the same
    answer. *)
Theorem query_is_local `{BloomBackend} `{StdSort} `{UnorderedSet}
    (sc : NJamSpell.TSpellCorrector) (sentence : TWords) (p : nat) :
  (p < length sentence)%nat →
  NJamSpell.GetCandidatesScoredRaw sc
    (drop (p - 2) (take (p + 3) sentence)) (p `min` 2)
  = NJamSpell.GetCandidatesScoredRaw sc sentence p.
Proof.
  intros Hp.
  assert (Hlen : (p `min` 2 < length (drop (p - 2) (take (p + 3) sentence)))%nat).
  { unfold TWords in *. rewrite length_drop, length_take. lia. }
  apply GetCandidatesScoredRaw_window; [done|done| |].
  - unfold queryWord. destruct (decide (2 ≤ p)%nat).
    + rewrite lookup_window by lia. do 2 f_equal. lia.
    + rewrite lookup_window_start by lia. do 2 f_equal. lia.
  - intros c. unfold localWindow. destruct (decide (2 ≤ p)%nat).
    + replace (p `min` 2)%nat with 2%nat by lia.
      rewrite !lookup_window by lia.
      rewrite !bool_decide_eq_true_2 by lia.
      replace (p - 2 + (2 - 2))%nat with (p - 2)%nat by lia.
      replace (p - 2 + (2 - 1))%nat with (p - 1)%nat by lia.
      replace (p - 2 + (2 + 1))%nat with (p + 1)%nat by lia.
      by replace (p - 2 + (2 + 2))%nat with (p + 2)%nat by lia.
    + replace (p `min` 2)%nat with p by lia.
      rewrite !lookup_window_start by lia. done.
Qed.

Lemma query_is_local_witness :
  let word := Fixture.ws in
  NJamSpell.GetCandidatesScoredRaw (H := Fixture.backend) (H0 := StableStdSort)
      (H1 := RecentFirstSet) engineFox
    [word "quick"; word "brown"; word "fxo"; word "jumps"; word "over"] 2
  = NJamSpell.GetCandidatesScoredRaw (H := Fixture.backend) (H0 := StableStdSort)
      (H1 := RecentFirstSet) engineFox
      [word "the"; word "quick"; word "brown"; word "fxo"; word "jumps"; word "over";
       word "the"; word "lazy"; word "dog"] 3.
Proof.
  intros word.
  apply (query_is_local (H := Fixture.backend) (H0 := StableStdSort)
      (H1 := RecentFirstSet) engineFox
           [word "the"; word "quick"; word "brown"; word "fxo"; word "jumps"; word "over";
            word "the"; word "lazy"; word "dog"] 3).
  simpl. lia.
Defined.

(** ** The symmetric-delete enumeration *)

Section EditsFacts.
Import NJamSpell.
Context `{BloomBackend}.
Variable sc : TSpellCorrector.

Lemma elem_of_Inserts (w : wstring) c :
  c ∈ Inserts sc w ↔
    ∃ i ch, (i ≤ length w)%nat ∧ ch ∈ TLangModel.GetAlphabet (LangModel sc)
            ∧ c = TLangModel.GetWord (LangModel sc) (insert_at i ch w)
            ∧ IsWord c = true.
Proof.
  unfold Inserts. rewrite list_elem_of_bind. split.
  - intros (i & (ch & Hc%elem_of_Lookup & Hch)%list_elem_of_bind & Hi%elem_of_seq).
    exists i, ch. split; [lia|]. by split.
  - intros (i & ch & Hi & Hch & Hc). exists i. split; [|apply elem_of_seq; lia].
    apply list_elem_of_bind. exists ch. split; [|done]. by apply elem_of_Lookup.
Qed.

Lemma elem_of_Inserts2 d1 (w : wstring) c :
  c ∈ Inserts2 sc d1 w ↔
    ∃ i ch, (i ≤ length w)%nat ∧ ch ∈ TLangModel.GetAlphabet (LangModel sc)
            ∧ BloomContains d1 (WideToUTF8 (insert_at i ch w)) = true
            ∧ c ∈ Inserts sc (insert_at i ch w).
Proof.
  unfold Inserts2. rewrite list_elem_of_bind. split.
  - intros (i & (ch & Hc & Hch)%list_elem_of_bind & Hi%elem_of_seq).
    destruct (BloomContains d1 _) eqn:Hb; [|by apply elem_of_nil in Hc].
    exists i, ch. split; [lia|]. by repeat split.
  - intros (i & ch & Hi & Hch & Hb & Hc). exists i. split; [|apply elem_of_seq; lia].
    apply list_elem_of_bind. exists ch. split; [|done]. by rewrite Hb.
Qed.

Lemma elem_of_EditsOf d1 d2 (w : wstring) c :
  c ∈ EditsOf sc d1 d2 w ↔
    c ∈ Lookup sc w
    ∨ (BloomContains d1 (WideToUTF8 w) = true ∧ c ∈ Inserts sc w)
    ∨ (BloomContains d2 (WideToUTF8 w) = true ∧ c ∈ Inserts2 sc d1 w).
Proof.
  unfold EditsOf. rewrite !elem_of_app.
  destruct (BloomContains d1 _), (BloomContains d2 _); rewrite ?elem_of_nil;
    intuition discriminate.
Qed.

Lemma elem_of_Edits (word : TWord) l c :
  Edits sc word = Some l →
  c ∈ l ↔
    ∃ d1 d2 w1 w,
      Deletes1 sc = Some d1 ∧ Deletes2 sc = Some d2
      ∧ w1 ∈ GetDeletes2 word ++ [[word]] ∧ w ∈ w1 ∧ c ∈ EditsOf sc d1 d2 w.
Proof.
  unfold Edits. destruct (Deletes1 sc) as [d1|]; [|done].
  destruct (Deletes2 sc) as [d2|]; [|done]. simpl. intros [= <-].
  rewrite list_elem_of_bind. split.
  - intros (w1 & (w & Hc & Hw)%list_elem_of_bind & Hw1). by exists d1, d2, w1, w.
  - intros (? & ? & w1 & w & [= <-] & [= <-] & Hw1 & Hw & Hc).
    exists w1. split; [|done]. apply list_elem_of_bind. by exists w.
Qed.

(** The strings [Edits] starts from: the word and its deletions. *)
Lemma Edits_seed (word : TWord) w1 (w : wstring) :
  w1 ∈ GetDeletes2 word ++ [[word]] → w ∈ w1 →
  ∃ a, (a ≤ 2)%nat ∧ deletions a word w.
Proof.
  intros [Hw1|Hw1]%elem_of_app Hw.
  - apply elem_of_GetDeletes2_inv in Hw1 as (i & Hi & _ & ->).
    apply elem_of_app in Hw as [Hw|Hw].
    + apply elem_of_GetDeletes1_inv in Hw as (_ & j & Hj & ->).
      exists 2%nat. split; [lia|]. simpl. exists i. split; [done|]. by exists j.
    + apply list_elem_of_singleton in Hw as ->.
      exists 1%nat. split; [lia|]. simpl. by exists i.
  - apply list_elem_of_singleton in Hw1 as ->. apply list_elem_of_singleton in Hw as ->.
    exists 0%nat. split; [lia|done].
Qed.

Lemma Edits_sound (word : TWord) l c :
  Edits sc word = Some l → c ∈ l →
  ∃ a b s0 s,
    (a ≤ 2)%nat ∧ (b ≤ 2)%nat ∧ deletions a word s0 ∧ insertions sc b s0 s
    ∧ c = TLangModel.GetWord (LangModel sc) s ∧ IsWord c = true.
Proof.
  intros Hl Hc. apply (elem_of_Edits word l c Hl) in Hc
    as (d1 & d2 & w1 & w & _ & _ & Hw1 & Hw & Hc).
  destruct (Edits_seed word w1 w Hw1 Hw) as (a & Ha & Hdel).
  apply elem_of_EditsOf in Hc as [Hc|[[_ Hc]|[_ Hc]]].
  - apply elem_of_Lookup in Hc as [-> Hv].
    exists a, 0%nat, w, w. by repeat split; try lia.
  - apply elem_of_Inserts in Hc as (i & ch & Hi & Hch & -> & Hv).
    exists a, 1%nat, w, (insert_at i ch w). repeat split; try done; try lia.
    simpl. by exists i, ch.
  - apply elem_of_Inserts2 in Hc as (i & ch & Hi & Hch & _ & Hc).
    apply elem_of_Inserts in Hc as (j & ch' & Hj & Hch' & -> & Hv).
    exists a, 2%nat, w, (insert_at j ch' (insert_at i ch w)).
    repeat split; try done; try lia.
    simpl. exists i, ch. split; [done|]. split; [done|]. by exists j, ch'.
Qed.

(** What [PrepareCache] leaves in the filters, for one vocabulary word. *)
Lemma PrepareCache_contains sc0 (v : wstring) (id : TWordId) :
  PrepareCache sc0 = Some sc →
  (v, id) ∈ TLangModel.GetWordToId (LangModel sc0) →
  LangModel sc = LangModel sc0
  ∧ ∃ d1 d2,
      Deletes1 sc = Some d1 ∧ Deletes2 sc = Some d2
      ∧ ((2 ≤ length v)%nat → ∀ i, (i < length v)%nat →
           BloomContains d1 (WideToUTF8 (delete_at i v)) = true)
      ∧ ((3 ≤ length v)%nat → ∀ i j, (i < length v)%nat → (j < length v - 1)%nat →
           BloomContains d2 (WideToUTF8 (delete_at j (delete_at i v))) = true).
Proof.
  intros Hprep Hv.
  assert (Hlm : LangModel sc = LangModel sc0).
  { unfold PrepareCache in Hprep. destruct (cacheSizes _) as [[[??]?]|]; [|done].
    simpl in Hprep. by injection Hprep as <-. }
  split; [done|].
  apply PrepareCache_filters in Hprep as (d & Hd1 & Hd2).
  eexists _, _. split; [exact Hd1|]. split; [exact Hd2|]. split.
  - intros Hlen i Hi.
    pose proof (elem_of_GetDeletes2 v i Hi Hlen) as Hin.
    by destruct (fillDeletes_contains _ d (v, id) _ _ Hv Hin) as [Hb _].
  - intros Hlen i j Hi Hj.
    pose proof (length_delete_at i v Hi) as Hl.
    pose proof (elem_of_GetDeletes2 v i Hi ltac:(lia)) as Hin.
    destruct (fillDeletes_contains _ d (v, id) _ _ Hv Hin) as [_ Hpre].
    apply Hpre, elem_of_GetDeletes1; unfold wstring, wchar in *; lia.
Qed.

End EditsFacts.

(** X5. Every candidate [Edits] returns (lines 340-364, 432-453) is the
    valid vocabulary token of a string obtained from the word by at most
    two deletions followed by at most two insertions of characters of the
    alphabet; nothing else is ever returned. *)
Theorem Edits_within_reach `{BloomBackend} (sc : NJamSpell.TSpellCorrector)
    (word : TWord) (l : TWords) (c : TWord) :
  NJamSpell.Edits sc word = Some l → c ∈ l →
  ∃ a b s0 s,
    (a ≤ 2)%nat ∧ (b ≤ 2)%nat ∧ deletions a word s0 ∧ insertions sc b s0 s
    ∧ c = TLangModel.GetWord (NJamSpell.LangModel sc) s ∧ IsWord c = true.
Proof. apply Edits_sound. Qed.

Lemma Edits_within_reach_witness :
  ∃ a b s0 s,
    (a ≤ 2)%nat ∧ (b ≤ 2)%nat ∧ deletions a (Fixture.ws "ab") s0
    ∧ insertions engineCd b s0 s
    ∧ Fixture.ws "abcd" = TLangModel.GetWord (NJamSpell.LangModel engineCd) s
    ∧ IsWord (Fixture.ws "abcd") = true.
Proof.
  apply (Edits_within_reach (H := Fixture.backend) engineCd (Fixture.ws "ab")
           [Fixture.ws "ab"; Fixture.ws "abcd"; Fixture.ws "abcd"]).
  - vm_compute. reflexivity.
  - apply list_elem_of_further, list_elem_of_here.
Defined.

Section FallbackRecall.
Import NJamSpell.
Context `{BloomBackend}.
Variable sc0 sc : TSpellCorrector.
Hypothesis Hprepared : PrepareCache sc0 = Some sc.

Lemma Edits_intro d1 d2 (word : TWord) w1 (s : wstring) c :
  Deletes1 sc = Some d1 → Deletes2 sc = Some d2 →
  w1 ∈ GetDeletes2 word ++ [[word]] → s ∈ w1 → c ∈ EditsOf sc d1 d2 s →
  ∃ l, Edits sc word = Some l ∧ c ∈ l.
Proof.
  intros Hd1 Hd2 Hw1 Hs Hc.
  assert (Hl : ∃ l, Edits sc word = Some l).
  { unfold Edits. rewrite Hd1, Hd2. by eexists. }
  destruct Hl as [l Hl]. exists l. split; [done|].
  apply (elem_of_Edits sc word l c Hl). by exists d1, d2, w1, s.
Qed.

Lemma own_seed (word : TWord) : [word] ∈ GetDeletes2 word ++ [[word]].
Proof. apply elem_of_app. right. apply list_elem_of_here. Qed.

Lemma deleted_seed (word : TWord) i :
  (i < length word)%nat → (2 ≤ length word)%nat →
  GetDeletes1 (delete_at i word) ++ [delete_at i word] ∈ GetDeletes2 word ++ [[word]]
  ∧ delete_at i word ∈ GetDeletes1 (delete_at i word) ++ [delete_at i word].
Proof.
  intros Hi Hlen. split.
  - apply elem_of_app. left. by apply elem_of_GetDeletes2.
  - apply elem_of_app. right. apply list_elem_of_here.
Qed.

Lemma fallback_one_edit (v : wstring) (id : TWordId) (w : TWord) :
  (v, id) ∈ TLangModel.GetWordToId (LangModel sc0) →
  IsWord (TLangModel.GetWord (LangModel sc0) v) = true →
  spelled sc0 v → (2 ≤ length v)%nat → misspelt v w →
  ∃ l, Edits sc w = Some l ∧ TLangModel.GetWord (LangModel sc0) v ∈ l.
Proof.
  intros Hv Hword Hsp Hlen Hm.
  destruct (PrepareCache_contains sc sc0 v id Hprepared Hv)
    as (Hlm & d1 & d2 & Hd1 & Hd2 & Hone & _).
  specialize (Hone Hlen).
  assert (Hins : ∀ (s : wstring) i a,
             v !! i = Some a → s = delete_at i v →
             TLangModel.GetWord (LangModel sc0) v ∈ Inserts sc s).
  { intros s i a Ha ->. pose proof (lookup_lt_Some _ _ _ Ha) as Hi.
    apply elem_of_Inserts. exists i, a. rewrite Hlm. split; [|split; [|split]].
    - rewrite length_delete_at by done. unfold wstring, wchar in *. lia.
    - apply Hsp. by apply list_elem_of_lookup_2 with i.
    - by rewrite insert_at_delete_at.
    - done. }
  destruct Hm as [(i & Hi & ->)|[(i & Hi & ->)|[(i & ch & Hi & ->)|(i & ch & Hi & ->)]]].
  - destruct (lookup_lt_is_Some_2 v i) as [a Ha]; [unfold wstring, wchar in *; lia|].
    apply (Edits_intro d1 d2 _ _ _ _ Hd1 Hd2 (own_seed _) (list_elem_of_here _ _)).
    apply elem_of_EditsOf. right. left. split; [by apply Hone|by apply (Hins _ i a)].
  - destruct (lookup_lt_is_Some_2 v (S i)) as [a Ha]; [unfold wstring, wchar in *; lia|].
    destruct (transpose_at_facts i v Hi) as (Hl & _).
    destruct (deleted_seed (transpose_at i v) i) as [Hw1 Hs];
      [unfold wstring, wchar, TWord in *; lia..|].
    apply (Edits_intro d1 d2 _ _ _ _ Hd1 Hd2 Hw1 Hs).
    rewrite delete_at_transpose_at by done.
    apply elem_of_EditsOf. right. left. split; [|by apply (Hins _ (S i) a)].
    apply Hone. unfold wstring, wchar in *. lia.
  - destruct (lookup_lt_is_Some_2 v i) as [a Ha]; [unfold wstring, wchar in *; lia|].
    pose proof (length_replace_at i ch v Hi) as Hl.
    destruct (deleted_seed (replace_at i ch v) i) as [Hw1 Hs];
      [unfold wstring, wchar, TWord in *; lia..|].
    apply (Edits_intro d1 d2 _ _ _ _ Hd1 Hd2 Hw1 Hs).
    rewrite delete_at_replace_at by done.
    apply elem_of_EditsOf. right. left. split; [by apply Hone|by apply (Hins _ i a)].
  - pose proof (length_insert_at i ch v Hi) as Hl.
    destruct (deleted_seed (insert_at i ch v) i) as [Hw1 Hs];
      [unfold wstring, wchar, TWord in *; lia..|].
    apply (Edits_intro d1 d2 _ _ _ _ Hd1 Hd2 Hw1 Hs).
    rewrite delete_at_insert_at by done.
    apply elem_of_EditsOf. left. apply elem_of_Lookup. by rewrite Hlm.
Qed.

Lemma fallback_two_deletions (v : wstring) (id : TWordId) i j :
  (v, id) ∈ TLangModel.GetWordToId (LangModel sc0) →
  IsWord (TLangModel.GetWord (LangModel sc0) v) = true →
  spelled sc0 v → (3 ≤ length v)%nat →
  (i < length v)%nat → (j < length v - 1)%nat →
  ∃ l, Edits sc (delete_at j (delete_at i v)) = Some l
       ∧ TLangModel.GetWord (LangModel sc0) v ∈ l.
Proof.
  intros Hv Hword Hsp Hlen Hi Hj.
  destruct (PrepareCache_contains sc sc0 v id Hprepared Hv)
    as (Hlm & d1 & d2 & Hd1 & Hd2 & Hone & Htwo).
  pose proof (length_delete_at i v Hi) as Hl.
  destruct (lookup_lt_is_Some_2 v i) as [a Ha]; [done|].
  destruct (lookup_lt_is_Some_2 (delete_at i v) j) as [b Hb];
    [unfold wstring, wchar in *; lia|].
  apply (Edits_intro d1 d2 _ _ _ _ Hd1 Hd2 (own_seed _) (list_elem_of_here _ _)).
  apply elem_of_EditsOf. right. right. split; [by apply Htwo|].
  apply elem_of_Inserts2. exists j, b. rewrite Hlm.
  rewrite (insert_at_delete_at j b (delete_at i v) Hb).
  split; [|split; [|split]].
  - rewrite length_delete_at by (unfold wstring, wchar in *; lia).
    unfold wstring, wchar in *. lia.
  - apply Hsp, (elem_of_delete_at i), (list_elem_of_lookup_2 _ j). done.
  - apply Hone; [lia|done].
  - apply elem_of_Inserts. exists i, a. rewrite Hlm. split; [|split; [|split]].
    + unfold wstring, wchar in *. lia.
    + apply Hsp. by apply list_elem_of_lookup_2 with i.
    + by rewrite insert_at_delete_at.
    + done.
Qed.

End FallbackRecall.

(** X6. Edit-distance-1 recall of the fallback, cache and enumeration
    together (lines 340-364, 455-516). After [PrepareCache], for every
    vocabulary word [v] of at least two characters, all in the alphabet,
    and every string [w] that is [v] with one character deleted, two
    neighbours exchanged, one character replaced or one character inserted,
    [Edits] on [w] returns the token of [v]. *)
Theorem fallback_recall_one_edit `{BloomBackend} (sc0 sc : NJamSpell.TSpellCorrector)
    (v : wstring) (id : TWordId) (w : TWord) :
  NJamSpell.PrepareCache sc0 = Some sc →
  (v, id) ∈ TLangModel.GetWordToId (NJamSpell.LangModel sc0) →
  IsWord (TLangModel.GetWord (NJamSpell.LangModel sc0) v) = true →
  spelled sc0 v → (2 ≤ length v)%nat → misspelt v w →
  ∃ l, NJamSpell.Edits sc w = Some l
       ∧ TLangModel.GetWord (NJamSpell.LangModel sc0) v ∈ l.
Proof. intros Hprep. by apply fallback_one_edit. Qed.

Lemma fallback_recall_one_edit_witness :
  ∃ l, NJamSpell.Edits (H := Fixture.backend) engineFox (Fixture.ws "jumpz") = Some l
       ∧ Fixture.ws "jumps" ∈ l.
Proof.
  apply (fallback_recall_one_edit (H := Fixture.backend)
           (Fixture.engineOf
              [("the", 900); ("quick", 100); ("brown", 120); ("fox", 80);
               ("jumps", 60); ("over", 300); ("lazy", 70); ("dog", 110)]
              "abcdefghijklmnopqrstuvwxyz" 14)
           engineFox (Fixture.ws "jumps") 4).
  - vm_compute. reflexivity.
  - do 4 apply list_elem_of_further. apply list_elem_of_here.
  - reflexivity.
  - intros ch Hch. vm_compute in Hch. vm_compute.
    repeat (apply elem_of_cons in Hch as [->|Hch];
            [repeat (first [apply list_elem_of_here|apply list_elem_of_further])|]).
    by apply elem_of_nil in Hch.
  - simpl. lia.
  - right. right. left. exists 4%nat, 122%N. split; [simpl; lia|reflexivity].
Defined.

(** X7. Two missing letters. After [PrepareCache], for every vocabulary
    word [v] of at least three characters, all in the alphabet, [Edits] on
    [v] with any two characters deleted returns the token of [v]
    (lines 357-359, 444-453: the string is in [Deletes2], one insertion
    leads into [Deletes1], the second to [v]); they are the candidates of
    the query when the first enumeration finds nothing. *)
Theorem fallback_recall_two_deletions `{BloomBackend} (sc0 sc : NJamSpell.TSpellCorrector)
    (v : wstring) (id : TWordId) (i j : nat) :
  NJamSpell.PrepareCache sc0 = Some sc →
  (v, id) ∈ TLangModel.GetWordToId (NJamSpell.LangModel sc0) →
  IsWord (TLangModel.GetWord (NJamSpell.LangModel sc0) v) = true →
  spelled sc0 v → (3 ≤ length v)%nat →
  (i < length v)%nat → (j < length v - 1)%nat →
  let w := delete_at j (delete_at i v) in
  ∃ l, NJamSpell.Edits sc w = Some l
       ∧ TLangModel.GetWord (NJamSpell.LangModel sc0) v ∈ l
       ∧ (NJamSpell.Edits2 sc w true = [] →
          NJamSpell.generateCandidates sc w = Some (l, false)).
Proof.
  intros Hprep Hv Hword Hsp Hlen Hi Hj w.
  destruct (fallback_two_deletions sc0 sc Hprep v id i j Hv Hword Hsp Hlen Hi Hj)
    as (l & Hl & Hin).
  exists l. split; [done|]. split; [done|].
  intros Hnil. rewrite (generateCandidates_fallback sc w Hnil). fold w in Hl.
  by rewrite Hl.
Qed.

Lemma fallback_recall_two_deletions_witness :
  ∃ l, NJamSpell.Edits (H := Fixture.backend) engineFox (Fixture.ws "qck") = Some l
       ∧ Fixture.ws "quick" ∈ l
       ∧ (NJamSpell.Edits2 engineFox (Fixture.ws "qck") true = [] →
          NJamSpell.generateCandidates (H := Fixture.backend) engineFox (Fixture.ws "qck")
            = Some (l, false)).
Proof.
  apply (fallback_recall_two_deletions (H := Fixture.backend)
           (Fixture.engineOf
              [("the", 900); ("quick", 100); ("brown", 120); ("fox", 80);
               ("jumps", 60); ("over", 300); ("lazy", 70); ("dog", 110)]
              "abcdefghijklmnopqrstuvwxyz" 14)
           engineFox (Fixture.ws "quick") 1 1 1).
  - vm_compute. reflexivity.
  - apply list_elem_of_further, list_elem_of_here.
  - reflexivity.
  - intros ch Hch. vm_compute in Hch. vm_compute.
    repeat (apply elem_of_cons in Hch as [->|Hch];
            [repeat (first [apply list_elem_of_here|apply list_elem_of_further])|]).
    by apply elem_of_nil in Hch.
  - simpl. lia.
  - simpl. lia.
  - simpl. lia.
Defined.

(** X10. A query never invents a word (lines 72-94 with the enumerations):
    every token of the ranked list is a valid token returned by the
    vocabulary lookup [GetWord], except the query word itself when it is
    not in the vocabulary. *)
Theorem ranked_words_from_vocabulary `{BloomBackend} `{StdSort} `{UnorderedSet}
    (sc : NJamSpell.TSpellCorrector) (sentence : TWords) (p : nat)
    (r : NJamSpell.TScoredWords) (c : TWord) :
  NJamSpell.GetCandidatesScoredRaw sc sentence p = Some r →
  rankable (beforeSort sc sentence p) →
  c ∈ NJamSpell.Word <$> r →
  (IsWord c = true ∧ ∃ s, c = TLangModel.GetWord (NJamSpell.LangModel sc) s)
  ∨ (isKnown sc (queryWord sentence p) = false ∧ sentence !! p = Some c).
Proof.
  intros Hr Hrank (sw & -> & Hsw)%list_elem_of_fmap.
  destruct (GetCandidatesScoredRaw_elem sc sentence p r sw Hr Hrank Hsw)
    as (Hp & candidates & Hgen & _ & Hc & _).
  apply prunedSet_sub in Hc as [Hc|Hc].
  - left. unfold NJamSpell.generateCandidates in Hgen.
    change lastLevelDefault with true in Hgen.
    case_bool_decide as Hnil.
    + destruct (NJamSpell.Edits sc _) as [l|] eqn:Hl; [|done].
      simpl in Hgen. injection Hgen as <- _.
      destruct (Edits_sound sc _ l _ Hl Hc) as (_ & _ & _ & s & _ & _ & _ & _ & -> & Hv).
      split; [done|by exists s].
    + injection Hgen as <- _.
      apply elem_of_Edits2 in Hc as (s & _ & -> & Hv). split; [done|by exists s].
  - rewrite Hc. unfold identityToken. destruct (isKnown sc _) eqn:Hk.
    + left. split; [done|by eexists].
    + right. split; [done|]. unfold queryWord.
      destruct (sentence !! p) as [x|] eqn:Hx; [done|].
      apply lookup_ge_None in Hx. lia.
Qed.

Lemma ranked_words_from_vocabulary_witness :
  (IsWord (Fixture.ws "abcd") = true
   ∧ ∃ s, Fixture.ws "abcd" = TLangModel.GetWord (NJamSpell.LangModel engineAbcd) s)
  ∨ (isKnown engineAbcd (queryWord [Fixture.ws "abc"; Fixture.ws "ab"] 0) = false
     ∧ [Fixture.ws "abc"; Fixture.ws "ab"] !! 0%nat = Some (Fixture.ws "abcd")).
Proof.
  apply (ranked_words_from_vocabulary (H := Fixture.backend) (H0 := StableStdSort)
      (H1 := RecentFirstSet)
           engineAbcd [Fixture.ws "abc"; Fixture.ws "ab"] 0
           [ {| NJamSpell.Word := Fixture.ws "abc"; NJamSpell.Score := 5 |};
             {| NJamSpell.Word := Fixture.ws "abcd"; NJamSpell.Score := (-38) |};
             {| NJamSpell.Word := Fixture.ws "ab"; NJamSpell.Score := (-40) |} ]).
  - vm_compute. reflexivity.
  - vm_compute. repeat constructor.
  - apply list_elem_of_further, list_elem_of_here.
Defined.

(** ** Saving and loading the cache *)

Section SerializationFacts.

Lemma length_le_bytes n z : length (le_bytes n z) = n.
Proof. revert z. induction n as [|n IH]; intros z; simpl; [done|]. by rewrite IH. Qed.

Lemma le_value_le_bytes n z : le_value (le_bytes n z) = z mod 256 ^ Z.of_nat n.
Proof.
  revert z. induction n as [|n IH]; intros z.
  - simpl. by rewrite Z.mod_1_r.
  - cbn [le_bytes le_value]. rewrite IH.
    rewrite Z2N.id by (apply Z.mod_pos_bound; lia).
    rewrite Nat2Z.inj_succ, Z.pow_succ_r by lia.
    rewrite Z.rem_mul_r by lia. done.
Qed.

Lemma stream_read_app n init (pre rest : list N) :
  length pre = n →
  stream_read n init {| Data := pre ++ rest; Good := true |}
    = (pre, {| Data := rest; Good := true |}).
Proof.
  intros <-. unfold stream_read. simpl.
  rewrite bool_decide_eq_true_2 by (rewrite length_app; lia).
  by rewrite take_app_length, drop_app_length.
Qed.

Lemma Load_Dump n init z rest :
  0 ≤ z < 256 ^ Z.of_nat n →
  Load n init {| Data := Dump n z ++ rest; Good := true |}
    = (z, {| Data := rest; Good := true |}).
Proof.
  intros Hz. unfold Load, Dump.
  rewrite stream_read_app by apply length_le_bytes.
  rewrite le_value_le_bytes. by rewrite Z.mod_small.
Qed.

End SerializationFacts.

Section CacheRoundTrip.
Import NJamSpell.
Context `{BloomBackend} `{BloomDumper}.

Lemma withDeletes_same sc : withDeletes sc (Deletes1 sc) (Deletes2 sc) = sc.
Proof. by destruct sc. Qed.

Lemma readCacheFields_cacheImage sc d1 d2 :
  checksumInRange sc → dumpsFaithfully d1 → dumpsFaithfully d2 →
  readCacheFields (cacheImage sc d1 d2) =
    {| leadingMagic := SPELL_CHECKER_CACHE_MAGIC_BYTE;
       cacheVersion := SPELL_CHECKER_CACHE_VERSION;
       modelCheckSum := TLangModel.GetCheckSum (LangModel sc);
       loadedDeletes1 := d1; loadedDeletes2 := d2;
       trailingMagic := SPELL_CHECKER_CACHE_MAGIC_BYTE |}.
Proof.
  intros Hcs Hd1 Hd2. unfold readCacheFields, cacheImage.
  rewrite Load_Dump by (unfold SPELL_CHECKER_CACHE_MAGIC_BYTE; simpl; lia).
  rewrite Load_Dump by (unfold SPELL_CHECKER_CACHE_VERSION; simpl; lia).
  rewrite Load_Dump by exact Hcs.
  rewrite Hd1, Hd2.
  rewrite <- (app_nil_r (Dump 8 _)).
  rewrite Load_Dump by (unfold SPELL_CHECKER_CACHE_MAGIC_BYTE; simpl; lia).
  done.
Qed.

Lemma LoadCache_cacheImage fs sc sc2 d1 d2 cacheFile :
  checksumInRange sc → dumpsFaithfully d1 → dumpsFaithfully d2 →
  LoadCache (<[cacheFile := cacheImage sc d1 d2]> fs) sc2 cacheFile =
    if bool_decide (TLangModel.GetCheckSum (LangModel sc)
                    = TLangModel.GetCheckSum (LangModel sc2))
    then (true, withDeletes sc2 (Some d1) (Some d2))
    else (false, sc2).
Proof.
  intros Hcs Hd1 Hd2. rewrite LoadCache_unfold. unfold FileSystem in *.
  rewrite lookup_insert_eq. simpl.
  rewrite (readCacheFields_cacheImage sc d1 d2 Hcs Hd1 Hd2).
  unfold cacheChecks. simpl. by rewrite andb_true_r.
Qed.

Lemma SaveCache_LoadCache writable fs sc cacheFile :
  writable cacheFile = true → checksumInRange sc → filtersPersist sc →
  SaveCache writable fs sc cacheFile
    = (true, (SaveCache writable fs sc cacheFile).2)
  ∧ ∀ sc2,
      LoadCache (SaveCache writable fs sc cacheFile).2 sc2 cacheFile =
        if bool_decide (TLangModel.GetCheckSum (LangModel sc)
                        = TLangModel.GetCheckSum (LangModel sc2))
        then (true, withDeletes sc2 (Deletes1 sc) (Deletes2 sc))
        else (false, sc2).
Proof.
  intros Hw Hcs (d1 & d2 & Hd1 & Hd2 & Hf1 & Hf2).
  unfold SaveCache. rewrite Hw, Hd1, Hd2. simpl. split; [done|].
  intros sc2. by apply LoadCache_cacheImage.
Qed.

End CacheRoundTrip.

(** X13. Cache round trip (lines 521-572). When the cache file can be
    opened for writing, the checksum of the model fits in 64 bits and both
    filters are present and read back from their dumps, [SaveCache] succeeds
    and [LoadCache] on the file it wrote returns true and leaves the engine
    exactly as it is. An engine whose model has another checksum rejects the
    same file and keeps its filters; one with the same checksum takes over
    the saved filters. *)
Theorem cache_round_trip `{BloomBackend} `{BloomDumper} (writable : string → bool)
    (fs : FileSystem) (sc : NJamSpell.TSpellCorrector) (cacheFile : string) :
  writable cacheFile = true → checksumInRange sc → filtersPersist sc →
  let saved := NJamSpell.SaveCache writable fs sc cacheFile in
  saved.1 = true
  ∧ NJamSpell.LoadCache saved.2 sc cacheFile = (true, sc)
  ∧ ∀ sc2,
      NJamSpell.LoadCache saved.2 sc2 cacheFile =
        if bool_decide (TLangModel.GetCheckSum (NJamSpell.LangModel sc)
                        = TLangModel.GetCheckSum (NJamSpell.LangModel sc2))
        then (true, NJamSpell.withDeletes sc2 (NJamSpell.Deletes1 sc) (NJamSpell.Deletes2 sc))
        else (false, sc2).
Proof.
  intros Hw Hcs Hf saved. subst saved.
  destruct (SaveCache_LoadCache writable fs sc cacheFile Hw Hcs Hf) as [Hs Hl].
  split; [by rewrite Hs|]. split; [|exact Hl].
  rewrite (Hl sc), bool_decide_eq_true_2 by done. by rewrite withDeletes_same.
Qed.

Lemma FixtureIO_dumps (d : TBloomFilter) :
  FixtureIO.fits d →
  dumpsFaithfully (H := FixtureIO.backend) (H0 := FixtureIO.dumper) d.
Proof.
  intros (Hp & Hn & Hm & Hk & Hc) rest.
  cbn [BloomLoad BloomDump FixtureIO.backend FixtureIO.dumper].
  unfold FixtureIO.loadFilter, FixtureIO.dumpFilter.
  rewrite <- ?app_assoc.
  rewrite Load_Dump by (simpl; lia).
  rewrite Load_Dump by (simpl; lia).
  rewrite Load_Dump by (simpl; lia).
  rewrite Load_Dump by (simpl; lia).
  rewrite Nat2Z.id, stream_read_app by done.
  rewrite N2Z.id, Nat2Z.id, list_to_set_elements_L.
  destruct d; simpl in *. by subst.
Qed.

Lemma FixtureIO_persist (sc : NJamSpell.TSpellCorrector) :
  is_Some (NJamSpell.Deletes1 sc) → is_Some (NJamSpell.Deletes2 sc) →
  FixtureIO.fits (default BloomEmpty (NJamSpell.Deletes1 sc)) →
  FixtureIO.fits (default BloomEmpty (NJamSpell.Deletes2 sc)) →
  filtersPersist (H := FixtureIO.backend) (H0 := FixtureIO.dumper) sc.
Proof.
  intros [d1 Hd1] [d2 Hd2]. rewrite Hd1, Hd2. simpl. intros Hf1 Hf2.
  exists d1, d2. repeat split; try done; by apply FixtureIO_dumps.
Qed.

Lemma cache_round_trip_witness :
  let sc := FixtureIO.prepared in
  let saved := NJamSpell.SaveCache (H0 := FixtureIO.dumper) (λ _, true) ∅ sc "model.bin.spell" in
  saved.1 = true
  ∧ NJamSpell.LoadCache (H := FixtureIO.backend) saved.2 sc "model.bin.spell" = (true, sc)
  ∧ ∀ sc2,
      NJamSpell.LoadCache (H := FixtureIO.backend) saved.2 sc2 "model.bin.spell" =
        if bool_decide (TLangModel.GetCheckSum (NJamSpell.LangModel sc)
                        = TLangModel.GetCheckSum (NJamSpell.LangModel sc2))
        then (true, NJamSpell.withDeletes sc2 (NJamSpell.Deletes1 sc) (NJamSpell.Deletes2 sc))
        else (false, sc2).
Proof.
  apply (cache_round_trip (H := FixtureIO.backend) (H0 := FixtureIO.dumper)
           (λ _, true) ∅ FixtureIO.prepared "model.bin.spell").
  - reflexivity.
  - vm_compute. split; [discriminate|reflexivity].
  - apply FixtureIO_persist.
    + vm_compute. by eexists.
    + vm_compute. by eexists.
    + vm_compute. repeat split; done.
    + vm_compute. repeat split; done.
Defined.

(** ** Loading and training the model *)

Section LifecycleFacts.
Import NJamSpell.
Context `{BloomBackend} `{BloomDumper} `{ModelBackend}.

Lemma LoadCache_again fs sc sc' cacheFile :
  LoadCache fs sc cacheFile = (true, sc') →
  LoadCache fs sc' cacheFile = (true, sc')
  ∧ is_Some (Deletes1 sc') ∧ is_Some (Deletes2 sc') ∧ LangModel sc' = LangModel sc.
Proof.
  rewrite !LoadCache_unfold. destruct (fs !! cacheFile) as [content|]; [|done]. simpl.
  destruct (cacheChecks sc (readCacheFields content)) eqn:Hc; [|done].
  intros [= <-]. repeat split; try by eexists.
  unfold cacheChecks in *. simpl. by rewrite Hc.
Qed.

Lemma LoadCache_failed fs sc sc' cacheFile :
  LoadCache fs sc cacheFile = (false, sc') → sc' = sc.
Proof.
  rewrite LoadCache_unfold. destruct (fs !! cacheFile) as [content|]; [|congruence].
  simpl. destruct (cacheChecks sc (readCacheFields content)); congruence.
Qed.

Lemma PrepareCache_keeps sc sc' :
  PrepareCache sc = Some sc' →
  is_Some (Deletes1 sc') ∧ is_Some (Deletes2 sc') ∧ LangModel sc' = LangModel sc.
Proof.
  unfold PrepareCache.
  destruct (cacheSizes _) as [[[deletes1size deletes2size] falsePositiveProb]|];
    simpl; [|done].
  intros [= <-]. simpl. repeat split; by eexists.
Qed.

Lemma SaveCache_elsewhere writable (fs : FileSystem) sc cacheFile (f : string) :
  f ≠ cacheFile → (SaveCache writable fs sc cacheFile).2 !! f = fs !! f.
Proof.
  intros Hf. unfold SaveCache, FileSystem in *.
  destruct (writable cacheFile); [|done].
  destruct (Deletes1 sc), (Deletes2 sc); simpl; by rewrite lookup_insert_ne.
Qed.

Lemma LoadLangModel_facts writable fs sc modelFile ok sc' fs' :
  LoadLangModel writable fs sc modelFile = Some (ok, sc', fs') →
  ok = (ModelLoad fs (LangModel sc) modelFile).1
  ∧ LangModel sc' = (ModelLoad fs (LangModel sc) modelFile).2
  ∧ (ok = false → fs' = fs ∧ Deletes1 sc' = Deletes1 sc ∧ Deletes2 sc' = Deletes2 sc)
  ∧ (ok = true →
       is_Some (Deletes1 sc') ∧ is_Some (Deletes2 sc')
       ∧ (∀ f : string, f ≠ modelFile +:+ ".spell" → fs' !! f = fs !! f)
       ∧ (writable (modelFile +:+ ".spell") = true →
          checksumInRange sc' → filtersPersist sc' →
          LoadCache fs' sc' (modelFile +:+ ".spell") = (true, sc'))).
Proof.
  unfold LoadLangModel.
  destruct (ModelLoad fs (LangModel sc) modelFile) as [okL lm]. simpl.
  destruct okL; simpl.
  - destruct (LoadCache fs (withLangModel sc lm) (modelFile +:+ ".spell"))
      as [ld sc1] eqn:EC.
    destruct ld.
    + intros [= <- <- <-].
      destruct (LoadCache_again _ _ _ _ EC) as (Hl & H1' & H2' & Hlm).
      repeat split; try done.
    + apply LoadCache_failed in EC as ->.
      destruct (PrepareCache (withLangModel sc lm)) as [sc2|] eqn:EP; simpl; [|done].
      intros [= <- <- <-].
      destruct (PrepareCache_keeps _ _ EP) as (H1' & H2' & Hlm).
      repeat split; try done.
      * intros f Hf. by apply SaveCache_elsewhere.
      * intros Hw Hcs Hp.
        destruct (SaveCache_LoadCache writable fs sc2 _ Hw Hcs Hp) as [_ Hl].
        rewrite (Hl sc2), bool_decide_eq_true_2 by done. by rewrite withDeletes_same.
  - intros [= <- <- <-]. repeat split; done.
Qed.

Lemma TrainLangModel_facts writable fs sc textFile alphabetFile modelFile sc' fs' :
  TrainLangModel writable fs sc textFile alphabetFile modelFile = Some (true, sc', fs') →
  checksumInRange sc' → filtersPersist sc' →
  LangModel sc' = (ModelTrain fs (LangModel sc) textFile alphabetFile).2
  ∧ LoadCache fs' sc' (modelFile +:+ ".spell") = (true, sc')
  ∧ ∀ writable2 sc0,
      ModelLoad fs' (LangModel sc0) modelFile = (true, LangModel sc') →
      LoadLangModel writable2 fs' sc0 modelFile
        = Some (true,
                withDeletes (withLangModel sc0 (LangModel sc')) (Deletes1 sc') (Deletes2 sc'),
                fs').
Proof.
  unfold TrainLangModel.
  destruct (ModelTrain fs (LangModel sc) textFile alphabetFile) as [okT lm]. simpl.
  destruct okT; simpl; [|done].
  destruct (PrepareCache (withLangModel sc lm)) as [sc2|] eqn:EP; simpl; [|done].
  destruct (PrepareCache_keeps _ _ EP) as (_ & _ & Hlm).
  destruct (ModelDump fs (LangModel sc2) modelFile) as [dumped fs1].
  destruct dumped; simpl; [|done].
  destruct (SaveCache writable fs1 sc2 (modelFile +:+ ".spell")) as [saved fs2] eqn:ES.
  destruct saved; simpl; [|done].
  intros [= <- <-] Hcs Hp.
  assert (Hw : writable (modelFile +:+ ".spell") = true).
  { unfold SaveCache in ES. by destruct (writable _). }
  destruct (SaveCache_LoadCache writable fs1 sc2 _ Hw Hcs Hp) as [_ Hl].
  rewrite ES in Hl. simpl in Hl.
  split; [done|]. split.
  - rewrite (Hl sc2), bool_decide_eq_true_2 by done. by rewrite withDeletes_same.
  - intros writable2 sc0 Hload. unfold LoadLangModel. rewrite Hload. simpl.
    rewrite (Hl (withLangModel sc0 (LangModel sc2))).
    by rewrite bool_decide_eq_true_2 by done.
Qed.

End LifecycleFacts.

(** X14. [LoadLangModel] (lines 37-48) returns what the loader of the model
    returns. When that is false, the files and the two filters are as
    before. When it is true, both filters are present, no file but
    [modelFile + ".spell"] has changed, and, where that file can be written
    and the filters read back from their dumps, the cache on disk is valid
    for the engine: [LoadCache] on it returns true and leaves the engine as
    it is. *)
Theorem LoadLangModel_ready `{BloomBackend} `{BloomDumper} `{ModelBackend}
    (writable : string → bool) (fs fs' : FileSystem)
    (sc sc' : NJamSpell.TSpellCorrector) (modelFile : string) (ok : bool) :
  NJamSpell.LoadLangModel writable fs sc modelFile = Some (ok, sc', fs') →
  ok = (ModelLoad fs (NJamSpell.LangModel sc) modelFile).1
  ∧ NJamSpell.LangModel sc' = (ModelLoad fs (NJamSpell.LangModel sc) modelFile).2
  ∧ (ok = false →
       fs' = fs ∧ NJamSpell.Deletes1 sc' = NJamSpell.Deletes1 sc
       ∧ NJamSpell.Deletes2 sc' = NJamSpell.Deletes2 sc)
  ∧ (ok = true →
       is_Some (NJamSpell.Deletes1 sc') ∧ is_Some (NJamSpell.Deletes2 sc')
       ∧ (∀ f : string, f ≠ modelFile +:+ ".spell" → fs' !! f = fs !! f)
       ∧ (writable (modelFile +:+ ".spell") = true →
          checksumInRange sc' → filtersPersist sc' →
          NJamSpell.LoadCache fs' sc' (modelFile +:+ ".spell") = (true, sc'))).
Proof. apply LoadLangModel_facts. Qed.

Lemma LoadLangModel_ready_witness :
  let r := default (false, FixtureIO.engine, FixtureIO.disk) FixtureIO.loaded in
  r.1.1 = true
  ∧ NJamSpell.LoadCache (H := FixtureIO.backend) r.2 r.1.2 "model.bin.spell" = (true, r.1.2).
Proof.
  intros r.
  destruct (LoadLangModel_ready (H := FixtureIO.backend) (H0 := FixtureIO.dumper)
              (H1 := FixtureIO.store) (λ _, true) FixtureIO.disk r.2
              FixtureIO.engine r.1.2 "model.bin" r.1.1)
    as (Hok & _ & _ & Hready).
  { vm_compute. reflexivity. }
  split; [vm_compute; reflexivity|].
  destruct Hready as (_ & _ & _ & Hload); [vm_compute; reflexivity|].
  apply Hload.
  - reflexivity.
  - vm_compute. split; [discriminate|reflexivity].
  - apply FixtureIO_persist.
    + vm_compute. by eexists.
    + vm_compute. by eexists.
    + vm_compute. repeat split; done.
    + vm_compute. repeat split; done.
Defined.

(** X15. Training, then loading (lines 37-63). When [TrainLangModel]
    returns true and the filters read back from their dumps, the cache it
    wrote is valid for the trained engine, and a later [LoadLangModel] of
    the model file, on any engine for which the loader gives the trained
    model back, returns true with the filters of the trained engine, taken
    from the cache: nothing is rebuilt and no file is written. *)
Theorem train_then_load `{BloomBackend} `{BloomDumper} `{ModelBackend}
    (writable : string → bool) (fs fs' : FileSystem)
    (sc sc' : NJamSpell.TSpellCorrector) (textFile alphabetFile modelFile : string) :
  NJamSpell.TrainLangModel writable fs sc textFile alphabetFile modelFile
    = Some (true, sc', fs') →
  checksumInRange sc' → filtersPersist sc' →
  NJamSpell.LangModel sc'
    = (ModelTrain fs (NJamSpell.LangModel sc) textFile alphabetFile).2
  ∧ NJamSpell.LoadCache fs' sc' (modelFile +:+ ".spell") = (true, sc')
  ∧ ∀ writable2 sc0,
      ModelLoad fs' (NJamSpell.LangModel sc0) modelFile = (true, NJamSpell.LangModel sc') →
      NJamSpell.LoadLangModel writable2 fs' sc0 modelFile
        = Some (true,
                NJamSpell.withDeletes (NJamSpell.withLangModel sc0 (NJamSpell.LangModel sc'))
                  (NJamSpell.Deletes1 sc') (NJamSpell.Deletes2 sc'),
                fs').
Proof. apply TrainLangModel_facts. Qed.

Lemma train_then_load_witness :
  let r := default (false, FixtureIO.engine, FixtureIO.disk) FixtureIO.trained in
  NJamSpell.LoadCache (H := FixtureIO.backend) r.2 r.1.2 "model.bin.spell" = (true, r.1.2)
  ∧ NJamSpell.LoadLangModel (H := FixtureIO.backend) (H0 := FixtureIO.dumper)
      (H1 := FixtureIO.store) (λ _, false) r.2 FixtureIO.engine "model.bin"
    = Some (true,
            NJamSpell.withDeletes
              (NJamSpell.withLangModel FixtureIO.engine (NJamSpell.LangModel r.1.2))
              (NJamSpell.Deletes1 r.1.2) (NJamSpell.Deletes2 r.1.2),
            r.2).
Proof.
  intros r.
  destruct (train_then_load (H := FixtureIO.backend) (H0 := FixtureIO.dumper)
              (H1 := FixtureIO.store) (λ _, true)
              {["text.txt" := [2%N]; "alphabet.txt" := [3%N]]} r.2
              FixtureIO.engine r.1.2 "text.txt" "alphabet.txt" "model.bin")
    as (_ & Hcache & Hload).
  - vm_compute. reflexivity.
  - vm_compute. split; [discriminate|reflexivity].
  - apply FixtureIO_persist.
    + vm_compute. by eexists.
    + vm_compute. by eexists.
    + vm_compute. repeat split; done.
    + vm_compute. repeat split; done.
  - split; [exact Hcache|]. apply Hload. vm_compute. reflexivity.
Defined.

(** ** Fragments *)

Section JoinFacts.

Lemma concat_joinWith (sep : wstring) (l : list wstring) :
  l ≠ [] → concat ((λ w, w ++ sep) <$> l) = joinWith sep l ++ sep.
Proof.
  induction l as [|x [|y l'] IH]; [done|..]; intros _.
  - simpl. by rewrite app_nil_r.
  - change (concat ((λ w, w ++ sep) <$> x :: y :: l'))
      with ((x ++ sep) ++ concat ((λ w, w ++ sep) <$> y :: l')).
    rewrite IH by done.
    change (joinWith sep (x :: y :: l')) with (x ++ sep ++ joinWith sep (y :: l')).
    by rewrite <- !app_assoc.
Qed.

Lemma take_drop_last (pre : wstring) (ch : wchar) :
  take (length (pre ++ [ch]) - 1) (pre ++ [ch]) = pre.
Proof.
  rewrite length_app. simpl.
  replace (length pre + 1 - 1)%nat with (length pre) by lia.
  by rewrite take_app_length.
Qed.

End JoinFacts.

Section FragmentFacts.
Import NJamSpell.
Context `{BloomBackend} `{StdSort} `{ModelBackend} `{UnorderedSet}.
Variable sc : TSpellCorrector.
Hypothesis Hd1 : Deletes1 sc ≠ None.
Hypothesis Hd2 : Deletes2 sc ≠ None.

Lemma GetCandidatesRaw_total sentence p : ∃ l, GetCandidatesRaw sc sentence p = Some l.
Proof.
  unfold GetCandidatesRaw.
  destruct (GetCandidatesScoredRaw_total sc sentence p Hd1 Hd2) as [r ->]. by eexists.
Qed.

Lemma normalizeWord_step (words : TWords) (result : wstring) i :
  (i < length words)%nat →
  ∃ (candidates words1 : TWords),
    GetCandidatesRaw sc words i = Some candidates
    ∧ normalizeWord sc (words, result) i
      = Some (words1, result ++ default [] (words1 !! i) ++ [32%N])
    ∧ length words1 = length words
    ∧ take i words1 = take i words
    ∧ drop (S i) words1 = drop (S i) words
    ∧ words1 !! i = match candidates with c :: _ => Some c | [] => words !! i end.
Proof.
  intros Hi. unfold normalizeWord.
  destruct (GetCandidatesRaw_total words i) as [candidates Hc].
  exists candidates. rewrite Hc. simpl.
  destruct candidates as [|c candidates].
  - by exists words.
  - exists (<[i:=c]> words). unfold TWords, TWord in *.
    repeat split; try done.
    + by rewrite length_insert.
    + by rewrite take_insert_ge by lia.
    + by rewrite drop_insert_lt by lia.
    + by rewrite list_lookup_insert_eq by lia.
Qed.

Lemma normalizeWord_loop n : ∀ i (words : TWords) (result : wstring),
  (i + n = length words)%nat →
  ∃ words' : TWords,
    foldlM (normalizeWord sc) (words, result) (seq i n)
      = Some (words', result ++ concat ((λ w, w ++ [32%N]) <$> drop i words'))
    ∧ length words' = length words
    ∧ take i words' = take i words
    ∧ ∀ j, (i ≤ j < length words)%nat →
        ∃ candidates,
          GetCandidatesRaw sc (take j words' ++ drop j words) j = Some candidates
          ∧ words' !! j = match candidates with c :: _ => Some c | [] => words !! j end.
Proof.
  induction n as [|n IH]; intros i words result Hlen.
  - exists words. simpl. rewrite drop_ge by lia. simpl. rewrite app_nil_r.
    repeat split; try done. intros j Hj. lia.
  - cbn [seq foldlM].
    destruct (normalizeWord_step words result i ltac:(lia))
      as (candidates & words1 & Hcand & Hstep & Hlen1 & Hpre1 & Hpost1 & Hat1).
    destruct (IH (S i) words1 (result ++ default [] (words1 !! i) ++ [32%N])
                ltac:(lia)) as (words' & Hfold & Hlen' & Hpre' & Hlater).
    unfold TWords, TWord, wstring, wchar in *. rewrite Hstep.
    assert (Hpre : take i words' = take i words).
    { rewrite <- Hpre1. apply (f_equal (take i)) in Hpre'.
      by rewrite !take_take, Nat.min_l in Hpre' by lia. }
    assert (Hwi : words' !! i = words1 !! i).
    { rewrite <- (lookup_take_lt words' (S i) i) by lia.
      rewrite Hpre'. by rewrite lookup_take_lt by lia. }
    destruct (lookup_lt_is_Some_2 words1 i ltac:(lia)) as [wi Hwi1].
    exists words'. split; [|split; [|split]].
    + etransitivity; [exact Hfold|]. f_equal. f_equal.
      rewrite Hwi1 in Hwi. rewrite (drop_S words' wi i Hwi). rewrite Hwi1. simpl.
      by rewrite <- !app_assoc.
    + congruence.
    + done.
    + intros j Hj. destruct (decide (j = i)) as [->|Hne].
      * exists candidates. rewrite Hpre, take_drop, Hwi. done.
      * destruct (Hlater j ltac:(lia)) as (cands & Hq & Hat).
        exists cands.
        replace (drop j words) with (drop j words1).
        2:{ replace j with (S i + (j - S i))%nat by lia.
            by rewrite <- !drop_drop, Hpost1. }
        split; [done|]. rewrite Hat. destruct cands; [|done].
        replace j with (S i + (j - S i))%nat by lia.
        by rewrite <- !lookup_drop, Hpost1.
Qed.

Lemma normalizeSentence_empty result : normalizeSentence sc result [] = Some result.
Proof. done. Qed.

Lemma normalizeSentence_words (result : wstring) (words : TWords) :
  words ≠ [] →
  ∃ words' : TWords,
    correctedWords sc words words'
    ∧ normalizeSentence sc result words
      = Some (result ++ joinWith [32%N] words' ++ [46%N; 32%N]).
Proof.
  intros Hne. unfold normalizeSentence.
  destruct (normalizeWord_loop (length words) 0 words result eq_refl)
    as (words' & -> & Hlen & _ & Hat).
  exists words'. split.
  { split; [done|]. intros i Hi. apply Hat. lia. }
  simpl.
  assert (Hne' : words' ≠ []) by (destruct words, words'; done).
  rewrite bool_decide_eq_true_2 by (destruct words'; simpl; [done|lia]).
  rewrite drop_0, concat_joinWith by done.
  by rewrite !app_assoc, take_drop_last.
Qed.

Lemma normalizeSentence_loop (sentences : list TWords) : ∀ result : wstring,
  ∃ fixed : list TWords,
    Forall2 (correctedWords sc) (filter (λ s : TWords, s ≠ []) sentences) fixed
    ∧ foldlM (normalizeSentence sc) result sentences
      = Some (result ++ concat ((λ ws, (joinWith [32%N] ws ++ [46%N]) ++ [32%N]) <$> fixed)).
Proof.
  induction sentences as [|words sentences IH]; intros result.
  - exists []. split; [constructor|]. simpl. by rewrite app_nil_r.
  - cbn [foldlM]. destruct (decide (words = [])) as [->|Hne].
    + rewrite normalizeSentence_empty. destruct (IH result) as (fixed & Hf & ->).
      exists fixed. split; [|done]. by rewrite filter_cons_False by (intros Hn; done).
    + destruct (normalizeSentence_words result words Hne) as (words' & Hcorr & ->).
      destruct (IH (result ++ joinWith [32%N] words' ++ [46%N; 32%N]))
        as (fixed & Hf & ->).
      exists (words' :: fixed). split.
      * rewrite filter_cons_True by done. by constructor.
      * f_equal. simpl. rewrite <- !app_assoc. done.
Qed.

Lemma FixFragmentNormalized_joined (text : wstring) :
  ∃ fixed : list TWords,
    Forall2 (correctedWords sc)
      (filter (λ s : TWords, s ≠ []) (Tokenize (LangModel sc) (ToLower text))) fixed
    ∧ FixFragmentNormalized sc text
      = Some (joinWith [32%N] ((λ ws, joinWith [32%N] ws ++ [46%N]) <$> fixed)).
Proof.
  unfold FixFragmentNormalized.
  destruct (normalizeSentence_loop (Tokenize (LangModel sc) (ToLower text)) [])
    as (fixed & Hf & ->).
  exists fixed. split; [done|]. simpl. f_equal.
  destruct fixed as [|ws fixed]; [done|].
  rewrite (list_fmap_compose (λ ws, joinWith [32%N] ws ++ [46%N]) (λ w, w ++ [32%N])).
  rewrite concat_joinWith by done.
  rewrite bool_decide_eq_true_2 by (by destruct (joinWith _ _)).
  apply take_drop_last.
Qed.

(** The corrected sentence is fixed by the sentence: the relation has one
    solution. *)
Lemma correctedWords_unique (words a b : TWords) :
  correctedWords sc words a → correctedWords sc words b → a = b.
Proof.
  intros [Hla Ha] [Hlb Hb].
  assert (Hpre : ∀ n, (n ≤ length words)%nat → take n a = take n b).
  { induction n as [|n IHn]; intros Hn; [done|].
    destruct (Ha n ltac:(lia)) as (ca & Hqa & Hata).
    destruct (Hb n ltac:(lia)) as (cb & Hqb & Hatb).
    rewrite <- (IHn ltac:(lia)), Hqa in Hqb. injection Hqb as <-.
    destruct (lookup_lt_is_Some_2 a n ltac:(unfold TWords, TWord in *; lia)) as [x Hx].
    assert (Hxb : b !! n = Some x) by (by rewrite Hatb, <- Hata).
    rewrite (take_S_r a n x Hx), (take_S_r b n x Hxb). by rewrite IHn by lia. }
  rewrite <- (take_ge a (length a)), <- (take_ge b (length b)) by lia.
  unfold TWords, TWord in *. rewrite Hlb, <- Hla. apply Hpre. lia.
Qed.

End FragmentFacts.

(** X16. [FixFragmentNormalized] (lines 297-320). With both filters in
    place the function returns, and its result is made of the sentences of
    the tokenizer that have at least one word, each corrected from left to
    right: every word is replaced by the first candidate of its query on
    the sentence as corrected so far, and kept when the query has no
    candidate. The words of a sentence are joined by one space and followed
    by a full stop, the sentences are joined by one space, and nothing
    follows the last full stop; a text without words gives the empty
    string. The corrected sentences are fixed by the text, so the result
    is no other string. *)
Theorem FixFragmentNormalized_format `{BloomBackend} `{StdSort} `{ModelBackend}
    `{UnorderedSet} (sc : NJamSpell.TSpellCorrector) (text : wstring) :
  NJamSpell.Deletes1 sc ≠ None → NJamSpell.Deletes2 sc ≠ None →
  let sentences :=
    filter (λ s : TWords, s ≠ []) (Tokenize (NJamSpell.LangModel sc) (ToLower text)) in
  ∃ fixed : list TWords,
    Forall2 (correctedWords sc) sentences fixed
    ∧ (∀ fixed', Forall2 (correctedWords sc) sentences fixed' → fixed' = fixed)
    ∧ NJamSpell.FixFragmentNormalized sc text
      = Some (joinWith [32%N] ((λ ws, joinWith [32%N] ws ++ [46%N]) <$> fixed)).
Proof.
  intros Hd1 Hd2 sentences.
  destruct (FixFragmentNormalized_joined sc Hd1 Hd2 text) as (fixed & Hf & Hr).
  exists fixed. split; [done|]. split; [|done].
  intros fixed' Hf'. fold sentences in Hf. clear Hr.
  revert fixed' Hf'. induction Hf as [|s x l k Hsx Hlk IH]; intros fixed' Hf'.
  - by inversion Hf'.
  - inversion Hf' as [|s' y l' k' Hsy Hlk']; subst.
    f_equal; [by apply (correctedWords_unique sc s)|by apply IH].
Qed.

Lemma FixFragmentNormalized_format_witness :
  NJamSpell.FixFragmentNormalized (H := FixtureIO.backend) (H0 := StableStdSort)
    (H1 := FixtureIO.store) (H2 := RecentFirstSet) FixtureIO.prepared
    (Fixture.ws "Teh fox.  Dgo")
  = Some (Fixture.ws "the fox. dog.")
  ∧ ∃ fixed : list TWords,
      Forall2 (correctedWords (H := FixtureIO.backend) (H0 := StableStdSort)
                 (H1 := RecentFirstSet) FixtureIO.prepared)
        [[Fixture.ws "teh"; Fixture.ws "fox"]; [Fixture.ws "dgo"]] fixed
      ∧ NJamSpell.FixFragmentNormalized (H := FixtureIO.backend) (H0 := StableStdSort)
          (H1 := FixtureIO.store) (H2 := RecentFirstSet) FixtureIO.prepared
          (Fixture.ws "Teh fox.  Dgo")
        = Some (joinWith [32%N] ((λ ws, joinWith [32%N] ws ++ [46%N]) <$> fixed)).
Proof.
  split; [vm_compute; reflexivity|].
  destruct (FixFragmentNormalized_format (H := FixtureIO.backend) (H0 := StableStdSort)
              (H1 := FixtureIO.store) (H2 := RecentFirstSet) FixtureIO.prepared
              (Fixture.ws "Teh fox.  Dgo")) as (fixed & Hf & _ & Hr);
    [vm_compute; discriminate..|].
  exists fixed. split; [exact Hf|exact Hr].
Defined.

(** ** [NOpenSpell]: the reach of the edit loop *)

Section LastFacts.

Lemma last_app_ne {A} (l1 l2 : list A) : l2 ≠ [] → last (l1 ++ l2) = last l2.
Proof.
  intros Hne. rewrite last_app.
  destruct (last l2) eqn:E; [done|]. by apply last_None in E.
Qed.

Lemma last_drop_lt {A} k (w : list A) : (k < length w)%nat → last (drop k w) = last w.
Proof.
  intros Hk. rewrite <- (take_drop k w) at 2. symmetry. apply last_app_ne.
  intros Hnil. apply (f_equal length) in Hnil. rewrite length_drop in Hnil.
  simpl in Hnil. lia.
Qed.

Lemma mapM_total {A B} (f : A → B) (l : list A) :
  mapM (λ x, Some (f x)) l = Some (f <$> l).
Proof. induction l as [|x l IH]; [done|]. simpl. by rewrite IH. Qed.

Lemma elem_of_concat {A} (x : A) (ls : list (list A)) :
  x ∈ concat ls ↔ ∃ l, x ∈ l ∧ l ∈ ls.
Proof.
  induction ls as [|k ls IH]; simpl.
  - split; [by intros ?%elem_of_nil|]. by intros (l & _ & ?%elem_of_nil).
  - rewrite elem_of_app, IH. split.
    + intros [Hx|(l & Hx & Hl)].
      * exists k. split; [done|apply list_elem_of_here].
      * exists l. split; [done|by apply list_elem_of_further].
    + intros (l & Hx & Hl). apply elem_of_cons in Hl as [->|Hl]; [by left|].
      right. by exists l.
Qed.

End LastFacts.

Section OpenSpellFacts.
Import NOpenSpell.
Context `{StdSort} `{UnorderedSet}.
Variable LangModel : TLangModel.t.

Lemma elem_of_openspell_Lookup c s :
  c ∈ Lookup LangModel s ↔
  c = TLangModel.GetWord LangModel s ∧ IsWord (TLangModel.GetWord LangModel s) = true.
Proof.
  unfold Lookup. simpl. destruct (IsWord _).
  - rewrite list_elem_of_singleton. split; [by intros ->|by intros [-> _]].
  - split; [by intros ?%elem_of_nil|]. by intros [_ ?].
Qed.

Lemma visit_last s : visit LangModel (λ _, Some []) s = Some (Lookup LangModel s).
Proof. unfold visit. simpl. by rewrite app_nil_r. Qed.

(** The strings one round of the loop looks up. *)
Lemma EditsAt_last w i :
  EditsAt LangModel (λ _, Some []) w i =
    Some (Lookup LangModel (delete_at i w)
          ++ (if bool_decide (i + 2 < length w)%nat
              then Lookup LangModel (NOpenSpell.transpose_at i w) else [])
          ++ concat ((λ ch, Lookup LangModel (replace_at i ch w))
                     <$> TLangModel.GetAlphabet LangModel)
          ++ concat ((λ ch, Lookup LangModel (insert_at i ch w))
                     <$> TLangModel.GetAlphabet LangModel)).
Proof.
  unfold EditsAt. rewrite !visit_last.
  rewrite (mapM_ext (λ ch, visit LangModel (λ _, Some []) (replace_at i ch w))
             (λ ch, Some (Lookup LangModel (replace_at i ch w))))
    by (intros ch; apply visit_last).
  rewrite (mapM_ext (λ ch, visit LangModel (λ _, Some []) (insert_at i ch w))
             (λ ch, Some (Lookup LangModel (insert_at i ch w))))
    by (intros ch; apply visit_last).
  rewrite !mapM_total. simpl.
  by destruct (bool_decide (i + 2 < length w)%nat).
Qed.

Lemma Edits_last w :
  w ≠ [] →
  Edits LangModel w true =
    Some (concat ((λ i, default [] (EditsAt LangModel (λ _, Some []) w i))
                  <$> seq 0 (length w - 1))).
Proof.
  intros Hne. unfold Edits, EditsLevel.
  rewrite bool_decide_eq_false_2 by done.
  rewrite (mapM_ext _ (λ i, Some (default [] (EditsAt LangModel (λ _, Some []) w i)))).
  - by rewrite mapM_total.
  - intros i. by rewrite EditsAt_last.
Qed.

Lemma Edits_empty lastLevel : Edits LangModel [] lastLevel = None.
Proof. unfold Edits, EditsLevel. by destruct lastLevel. Qed.

Lemma Edits_one_letter (w : wstring) lastLevel :
  length w = 1%nat → Edits LangModel w lastLevel = Some [].
Proof.
  intros Hlen. unfold Edits, EditsLevel.
  rewrite bool_decide_eq_false_2 by (by destruct w).
  unfold wstring, wchar in *. by rewrite Hlen.
Qed.

Lemma byScore_singleton (x : TScoredWord) : strict_weak_on byScore [x].
Proof.
  assert (Hirr : byScore x x = false) by apply ltb_irrefl.
  split; [|split].
  - by intros a ->%list_elem_of_singleton.
  - intros a b c ->%list_elem_of_singleton ->%list_elem_of_singleton
      ->%list_elem_of_singleton. congruence.
  - intros a b c ->%list_elem_of_singleton ->%list_elem_of_singleton
      ->%list_elem_of_singleton. congruence.
Qed.

Lemma uset_range_singleton (c : TWord) : uset_items (uset_range [c]) = [c].
Proof.
  apply Permutation_singleton_r, NoDup_Permutation;
    [apply uset_items_NoDup|apply NoDup_singleton|].
  intros x. apply uset_range_spec.
Qed.

Lemma Correct_short sentence p (w : wstring) :
  sentence !! p = Some w →
  (w = [] → Correct LangModel sentence p = None)
  ∧ (length w = 1%nat → Correct LangModel sentence p = Some (Lookup LangModel w)).
Proof.
  intros Hw. pose proof (lookup_lt_Some _ _ _ Hw) as Hp.
  unfold Correct. unfold TWords, TWord, wstring, wchar in *.
  rewrite bool_decide_eq_false_2 by lia. rewrite Hw. simpl.
  split.
  - intros ->. by rewrite Edits_empty.
  - intros Hlen. rewrite !Edits_one_letter by done. simpl.
    unfold Lookup. destruct (IsWord (TLangModel.GetWord LangModel w)); [|done].
    simpl. f_equal. rewrite uset_range_singleton. simpl.
    pose proof (std_sort_perm _ byScore _ (byScore_singleton
      (scoreCandidate LangModel sentence p (TLangModel.GetWord LangModel w) false
         (TLangModel.GetWord LangModel w)))) as Hperm.
    apply Permutation_singleton_r in Hperm. by rewrite Hperm.
Qed.

(** Every string the first level looks up is as long as the word or
    longer only when it ends like the word. *)
Lemma first_level_string_last (w s : wstring) i :
  (i + 1 < length w)%nat →
  s = delete_at i w
  ∨ ((i + 2 < length w)%nat ∧ s = NOpenSpell.transpose_at i w)
  ∨ (∃ ch, s = replace_at i ch w)
  ∨ (∃ ch, s = insert_at i ch w) →
  (length w ≤ length s)%nat → last s = last w.
Proof.
  unfold wstring, wchar in *.
  intros Hi [->|[[Hi2 ->]|[[ch ->]|[ch ->]]]] Hlen.
  - pose proof (length_delete_at i w) as Hd. unfold wstring, wchar in *. lia.
  - unfold NOpenSpell.transpose_at, wstring, wchar in *.
    destruct (decide (i + 3 < length w)%nat) as [Hi3|Hi3].
    + rewrite bool_decide_eq_true_2 by done.
      rewrite !app_assoc, last_app_ne.
      * apply last_drop_lt. lia.
      * intros Hnil. apply (f_equal length) in Hnil. rewrite length_drop in Hnil.
        simpl in Hnil. lia.
    + rewrite bool_decide_eq_false_2 in Hlen by done.
      rewrite !length_app, !length_take, !length_drop in Hlen.
      cbn [length] in Hlen. lia.
  - unfold replace_at, wstring, wchar in *.
    destruct (drop (S i) w) as [|x rest] eqn:Hd.
    { apply (f_equal length) in Hd. rewrite length_drop in Hd. simpl in Hd. lia. }
    rewrite last_app_ne, last_cons_cons by done. rewrite <- Hd. apply last_drop_lt. lia.
  - unfold insert_at, wstring, wchar in *.
    destruct (drop i w) as [|x rest] eqn:Hd.
    { apply (f_equal length) in Hd. rewrite length_drop in Hd. simpl in Hd. lia. }
    rewrite last_app_ne, last_cons_cons by done. rewrite <- Hd. apply last_drop_lt. lia.
Qed.

Lemma elem_of_Edits_last (w : wstring) l c :
  Edits LangModel w true = Some l → c ∈ l →
  ∃ i s, (i + 1 < length w)%nat
    ∧ (s = delete_at i w
       ∨ ((i + 2 < length w)%nat ∧ s = NOpenSpell.transpose_at i w)
       ∨ (∃ ch, s = replace_at i ch w)
       ∨ (∃ ch, s = insert_at i ch w))
    ∧ c = TLangModel.GetWord LangModel s
    ∧ IsWord (TLangModel.GetWord LangModel s) = true.
Proof.
  destruct (decide (w = [])) as [->|Hne]; [by rewrite Edits_empty|].
  rewrite Edits_last by done. intros [= <-].
  intros (k & Hc & (i & -> & Hi)%list_elem_of_fmap)%elem_of_concat.
  apply elem_of_seq in Hi. rewrite EditsAt_last in Hc. simpl in Hc.
  exists i.
  rewrite !elem_of_app in Hc.
  destruct Hc as [Hc|[Hc|[Hc|Hc]]].
  - apply elem_of_openspell_Lookup in Hc as [-> Hw]. exists (delete_at i w).
    split; [lia|]. split; [by left|done].
  - case_bool_decide as Hi2; [|by apply elem_of_nil in Hc].
    apply elem_of_openspell_Lookup in Hc as [-> Hw].
    exists (NOpenSpell.transpose_at i w). split; [lia|]. split; [by right; left|done].
  - apply elem_of_concat in Hc as (k & Hc & (ch & -> & _)%list_elem_of_fmap).
    apply elem_of_openspell_Lookup in Hc as [-> Hw].
    exists (replace_at i ch w). split; [lia|]. split; [right; right; left; by eexists|done].
  - apply elem_of_concat in Hc as (k & Hc & (ch & -> & _)%list_elem_of_fmap).
    apply elem_of_openspell_Lookup in Hc as [-> Hw].
    exists (insert_at i ch w). split; [lia|]. split; [right; right; right; by eexists|done].
Qed.

Lemma Edits_last_letter (w v : wstring) l :
  (∀ s, IsWord (TLangModel.GetWord LangModel s) = true →
        TLangModel.GetWord LangModel s = s) →
  (length w ≤ length v)%nat → last v ≠ last w →
  Edits LangModel w true = Some l → v ∉ l.
Proof.
  intros Hget Hlen Hlast He Hv.
  destruct (elem_of_Edits_last w l v He Hv) as (i & s & Hi & Hs & -> & Hword).
  rewrite (Hget s Hword) in Hlen, Hlast.
  by apply Hlast, (first_level_string_last w s i).
Qed.

End OpenSpellFacts.

(** X17. Short words in [NOpenSpell] (lines 15-75, 82-147). The loop of
    [Edits] runs while [i < w.size() - 1]: on an empty query word the bound
    wraps around, [w.substr(1)] throws and [Correct] raises; on a query word
    of one character the loop does not run at either level, and [Correct]
    returns the token of the word itself when the model knows it and the
    empty list otherwise. *)
Theorem openspell_short_words `{StdSort} `{UnorderedSet} (LangModel : TLangModel.t)
    (sentence : TWords) (p : nat) (w : wstring) :
  sentence !! p = Some w →
  (w = [] → NOpenSpell.Correct LangModel sentence p = None)
  ∧ (length w = 1%nat →
     NOpenSpell.Correct LangModel sentence p = Some (NOpenSpell.Lookup LangModel w)).
Proof. apply Correct_short. Qed.

Lemma openspell_short_words_witness :
  NOpenSpell.Correct (H := StableStdSort)
      (H0 := RecentFirstSet) (Fixture.modelOf [("a", 5); ("i", 3)] "ai")
    [Fixture.ws "q"; Fixture.ws "am"] 0 = Some []
  ∧ NOpenSpell.Correct (H := StableStdSort)
      (H0 := RecentFirstSet) (Fixture.modelOf [("a", 5); ("i", 3)] "ai")
      [[]] 0 = None.
Proof.
  split.
  - apply (openspell_short_words (H := StableStdSort) (H0 := RecentFirstSet)
             (Fixture.modelOf [("a", 5); ("i", 3)] "ai")
             [Fixture.ws "q"; Fixture.ws "am"] 0 (Fixture.ws "q")); reflexivity.
  - apply (openspell_short_words (H := StableStdSort) (H0 := RecentFirstSet)
             (Fixture.modelOf [("a", 5); ("i", 3)] "ai") [[]] 0 []); reflexivity.
Defined.

(** X18. The last letter in [NOpenSpell] (lines 82-147). The loop of
    [Edits] stops before the last index, the transposition of the pair
    before the last character loses that character, and no edit touches the
    end of the word: when the model returns as token the string it is asked
    for, the first level never proposes a word that is at least as long as
    the query word and ends in another character, so neither a wrong nor a
    missing last letter is found there. *)
Theorem openspell_last_letter `{StdSort} (LangModel : TLangModel.t)
    (w v : wstring) (l : TWords) :
  (∀ s, IsWord (TLangModel.GetWord LangModel s) = true →
        TLangModel.GetWord LangModel s = s) →
  (length w ≤ length v)%nat → last v ≠ last w →
  NOpenSpell.Edits LangModel w true = Some l → v ∉ l.
Proof. apply Edits_last_letter. Qed.

Lemma openspell_last_letter_witness :
  Fixture.ws "the" ∉
    default [] (NOpenSpell.Edits (Fixture.modelOf [("the", 9); ("then", 4)] "ehnt")
                  (Fixture.ws "thx") true).
Proof.
  apply (openspell_last_letter (H := StableStdSort)
           (Fixture.modelOf [("the", 9); ("then", 4)] "ehnt")
           (Fixture.ws "thx") (Fixture.ws "the")).
  - intros s. simpl. case_bool_decide; [done|]. intros Hf. discriminate Hf.
  - simpl. lia.
  - vm_compute. discriminate.
  - vm_compute. reflexivity.
Defined.
